(** * A shallow embedding of the js-minifier engine (main.go)

    The engine is a pipeline of regular-expression rewrites over the source
    text.  This file embeds

    - the fragment of Go's [regexp] package the engine relies on
      (leftmost-first backtracking matching, [ReplaceAllString],
      [ReplaceAllStringFunc], [FindString], [FindStringSubmatch]),
    - [strings.Replace],
    - the [Minifier] methods [generateVarName], [shortenVariableNames] and
      [Minify],

    and proves the properties of the engine stated in the specification. *)

From Stdlib Require Import Ascii ZArith Lia Bool Permutation.
From Stdlib Require Import DecimalString DecimalFacts DecimalNat DecimalZ.
From Stdlib Require Floats Uint63.
From stdpp Require Import gmap strings list fin_maps.

Local Open Scope Z_scope.
Local Open Scope nat_scope.

(** ** Text *)

(** A Go [string] is a sequence of bytes.  Every pattern of the engine names
    ASCII characters only, and a byte of a multi-byte UTF-8 sequence is never
    an ASCII byte, so matching byte by byte finds the same matches as Go's
    rune-by-rune matching. *)
Abbreviation buf := (list ascii).

Definition str (s : string) : buf := String.list_ascii_of_string s.

Definition nl : ascii := "010"%char.
Definition dquote : ascii := "034"%char.
Definition squote : ascii := "'"%char.
Definition underscore : ascii := "_"%char.

(** ** Character classes *)

Definition inRange (lo hi : nat) (c : ascii) : bool :=
  (lo <=? nat_of_ascii c) && (nat_of_ascii c <=? hi).

Definition isDigit : ascii -> bool := inRange 48 57.
Definition isUpper : ascii -> bool := inRange 65 90.
Definition isLower : ascii -> bool := inRange 97 122.

(** [\s] is [[\t\n\f\r ]] in RE2 syntax. *)
Definition isSpace (c : ascii) : bool :=
  Ascii.eqb c "009" || Ascii.eqb c "010" || Ascii.eqb c "012"
  || Ascii.eqb c "013" || Ascii.eqb c " ".

(** The word characters of [\b]: [[0-9A-Za-z_]]. *)
Definition isWord (c : ascii) : bool :=
  isDigit c || isUpper c || isLower c || Ascii.eqb c "_".

(** [[a-zA-Z_$]] and [[a-zA-Z0-9_$]] *)
Definition isIdentStart (c : ascii) : bool :=
  isLower c || isUpper c || Ascii.eqb c "_" || Ascii.eqb c "$".
Definition isIdentChar (c : ascii) : bool :=
  isLower c || isUpper c || isDigit c || Ascii.eqb c "_" || Ascii.eqb c "$".

(** [.] (no [s] flag), [[\s\S]], and the classes of all characters but
    the double quote and but the single quote *)
Definition notNewline (c : ascii) : bool := negb (Ascii.eqb c nl).
Definition anyChar (c : ascii) : bool := true.
Definition notDQuote (c : ascii) : bool := negb (Ascii.eqb c dquote).
Definition notSQuote (c : ascii) : bool := negb (Ascii.eqb c squote).

(** ** Regular expressions *)

(** The syntax covers what the engine's patterns use.  Every repetition in
    them is over a single character class, so [Star] takes a class; [x+] is
    [x x*] and [x{2,}] is [x x x*], as in RE2's own simplification.  The
    flag of [Star] is [true] for the greedy [x*] and [false] for the lazy
    [x*?].  [BeginText] and [EndText] are [^] and [$] without the [m]
    flag. *)
Inductive regex : Type :=
| Eps
| Chr (c : ascii)
| Cls (p : ascii -> bool)
| Star (greedy : bool) (p : ascii -> bool)
| Seq (r1 r2 : regex)
| Alt (r1 r2 : regex)
| Group (i : nat) (r : regex)
| BeginText
| EndText
| WordBoundary.

Definition Plus (p : ascii -> bool) : regex := Seq (Cls p) (Star true p).
Definition AtLeast2 (p : ascii -> bool) : regex :=
  Seq (Cls p) (Seq (Cls p) (Star true p)).

Fixpoint Lit (s : buf) : regex :=
  match s with
  | [] => Eps
  | c :: s' => Seq (Chr c) (Lit s')
  end.

Fixpoint ngroups (r : regex) : nat :=
  match r with
  | Seq r1 r2 | Alt r1 r2 => ngroups r1 + ngroups r2
  | Group _ r1 => S (ngroups r1)
  | _ => 0
  end.

(** ** Matching *)

(** The matcher is a backtracking matcher in continuation-passing style: it
    explores the alternatives in RE2's priority order (left alternative
    first, greedy repetition longest first, lazy repetition shortest first)
    and returns the first success, which is Go's leftmost-first match at the
    given position.  [prev] is the character before the current position
    ([None] at the start of the text); [caps] holds the text of the capture
    groups, group [i] at index [i - 1]. *)
Definition wordBefore (prev : option ascii) : bool :=
  match prev with Some c => isWord c | None => false end.
Definition wordAfter (s : buf) : bool :=
  match s with c :: _ => isWord c | [] => false end.

Section Run.
Context {A : Type}.

Fixpoint starGreedy (p : ascii -> bool) (k : option ascii -> buf -> option A)
    (prev : option ascii) (s : buf) : option A :=
  match s with
  | c :: s' =>
      if p c then
        match starGreedy p k (Some c) s' with
        | Some a => Some a
        | None => k prev s
        end
      else k prev s
  | [] => k prev s
  end.

Fixpoint starLazy (p : ascii -> bool) (k : option ascii -> buf -> option A)
    (prev : option ascii) (s : buf) : option A :=
  match k prev s with
  | Some a => Some a
  | None =>
      match s with
      | c :: s' => if p c then starLazy p k (Some c) s' else None
      | [] => None
      end
  end.

Fixpoint run (r : regex) (caps : list buf) (prev : option ascii) (s : buf)
    (k : list buf -> option ascii -> buf -> option A) : option A :=
  match r with
  | Eps => k caps prev s
  | Chr c =>
      match s with
      | d :: s' => if Ascii.eqb c d then k caps (Some d) s' else None
      | [] => None
      end
  | Cls p =>
      match s with
      | d :: s' => if p d then k caps (Some d) s' else None
      | [] => None
      end
  | Star true p => starGreedy p (k caps) prev s
  | Star false p => starLazy p (k caps) prev s
  | Seq r1 r2 =>
      run r1 caps prev s (fun caps' prev' s' => run r2 caps' prev' s' k)
  | Alt r1 r2 =>
      match run r1 caps prev s k with
      | Some a => Some a
      | None => run r2 caps prev s k
      end
  | Group i r1 =>
      run r1 caps prev s (fun caps' prev' s' =>
        k (<[pred i := take (length s - length s') s]> caps') prev' s')
  | BeginText =>
      match prev with None => k caps prev s | Some _ => None end
  | EndText =>
      match s with [] => k caps prev s | _ :: _ => None end
  | WordBoundary =>
      if xorb (wordBefore prev) (wordAfter s) then k caps prev s else None
  end.
End Run.

(** [exec r prev s]: the match of [r] starting at the current position, as
    the number of characters it spans and the captured groups. *)
Definition exec (r : regex) (prev : option ascii) (s : buf)
    : option (nat * list buf) :=
  run r (replicate (ngroups r) []) prev s
      (fun caps _ s' => Some (length s - length s', caps)).

(** ** Scanning for all matches *)

(** Go's [replaceAll] loop looks for the leftmost match from the current
    search position, copies the text before it, calls the replacement, and
    resumes after the match; after an empty match it advances by one
    character, and an empty match right after another match is not
    replaced.  [scan] returns the same decomposition of the text: the
    characters that are copied and the matches that are replaced, in
    order.  [skip] counts the characters of the current match that are still
    to be passed over and [adj] tells that a match ended at the current
    position. *)
Inductive piece : Type :=
| Keep (c : ascii)
| Hit (m : buf) (caps : list buf).

Fixpoint scan (r : regex) (prev : option ascii) (adj : bool) (skip : nat)
    (s : buf) : list piece :=
  match s with
  | [] =>
      match skip with
      | O =>
          match exec r prev [] with
          | Some (_, caps) => if adj then [] else [Hit [] caps]
          | None => []
          end
      | S _ => []
      end
  | c :: s' =>
      match skip with
      | S k => scan r (Some c) true k s'
      | O =>
          match exec r prev s with
          | Some (S n, caps) =>
              Hit (take (S n) s) caps :: scan r (Some c) true n s'
          | Some (O, caps) =>
              (if adj then [] else [Hit [] caps])
                ++ Keep c :: scan r (Some c) false 0 s'
          | None => Keep c :: scan r (Some c) false 0 s'
          end
      end
  end.

Definition matches (r : regex) (s : buf) : list piece := scan r None false 0 s.

(** The text a piece comes from, and the text it becomes. *)
Definition source (p : piece) : buf :=
  match p with Keep c => [c] | Hit m _ => m end.

Definition subst (f : buf -> buf) (p : piece) : buf :=
  match p with Keep c => [c] | Hit m _ => f m end.

(** [ReplaceAllString]: none of the engine's templates contains [$], so the
    template is copied as it is. *)
Definition ReplaceAllString (r : regex) (repl : buf) (s : buf) : buf :=
  concat (map (subst (fun _ => repl)) (matches r s)).

(** [ReplaceAllStringFunc] with a closure that updates captured variables
    and may panic: the closure is run on the matches from left to right,
    threading its state. *)
Fixpoint replaceFunc {St : Type} (f : St -> buf -> option (St * buf))
    (st : St) (ps : list piece) : option (St * buf) :=
  match ps with
  | [] => Some (st, [])
  | Keep c :: ps' =>
      match replaceFunc f st ps' with
      | Some (st', out) => Some (st', c :: out)
      | None => None
      end
  | Hit m _ :: ps' =>
      match f st m with
      | Some (st1, new) =>
          match replaceFunc f st1 ps' with
          | Some (st', out) => Some (st', new ++ out)
          | None => None
          end
      | None => None
      end
  end.

Definition ReplaceAllStringFunc {St : Type} (r : regex)
    (f : St -> buf -> option (St * buf)) (st : St) (s : buf)
    : option (St * buf) :=
  replaceFunc f st (matches r s).

(** The leftmost match in [s], from the position after [prev]. *)
Fixpoint find (r : regex) (prev : option ascii) (s : buf)
    : option (buf * list buf) :=
  match exec r prev s with
  | Some (n, caps) => Some (take n s, caps)
  | None =>
      match s with
      | c :: s' => find r (Some c) s'
      | [] => None
      end
  end.

(** [FindString] returns the empty string when there is no match. *)
Definition FindString (r : regex) (s : buf) : buf :=
  match find r None s with
  | Some (m, _) => m
  | None => []
  end.

(** [FindStringSubmatch] returns the match followed by the groups, or [nil]. *)
Definition FindStringSubmatch (r : regex) (s : buf) : list buf :=
  match find r None s with
  | Some (m, caps) => m :: caps
  | None => []
  end.

(** ** [strings.Replace(s, old, new, -1)] *)

Fixpoint prefixb (p s : buf) : bool :=
  match p, s with
  | [], _ => true
  | a :: p', b :: s' => Ascii.eqb a b && prefixb p' s'
  | _ :: _, [] => false
  end.

Fixpoint replaceFrom (old new : buf) (skip : nat) (s : buf) : buf :=
  match s with
  | [] => []
  | c :: s' =>
      match skip with
      | S k => replaceFrom old new k s'
      | O =>
          if prefixb old s then new ++ replaceFrom old new (pred (length old)) s'
          else c :: replaceFrom old new 0 s'
      end
  end.

(** Non-overlapping occurrences of [old] are replaced from left to right.
    An empty [old] matches before every character and at the end (stated
    here on bytes, which is Go's behaviour on ASCII text; the engine only
    passes non-empty placeholders). *)
Definition stringsReplace (s old new : buf) : buf :=
  match old with
  | [] => concat (map (fun c => new ++ [c]) s) ++ new
  | _ :: _ => replaceFrom old new 0 s
  end.

(** [strings.Contains] *)
Fixpoint contains (s sub : buf) : bool :=
  prefixb sub s ||
  match s with
  | [] => false
  | _ :: s' => contains s' sub
  end.

(** The number of characters of a class, and [strings.Count] of a single
    character *)
Fixpoint countIf (q : ascii -> bool) (s : buf) : nat :=
  match s with
  | [] => 0
  | d :: s' => (if q d then 1 else 0) + countIf q s'
  end.

Definition count (c : ascii) (s : buf) : nat :=
  countIf (fun d => Ascii.eqb d c) s.

(** ** Go's [int] and [fmt.Sprintf] *)

(** [int] is a 64-bit two's complement integer; arithmetic wraps around. *)
Definition int_max : Z := 2 ^ 63 - 1.
Definition wrap (z : Z) : Z := ((z + 2 ^ 63) mod 2 ^ 64 - 2 ^ 63)%Z.

(** The verb [%d]: the decimal numeral, with a minus sign when negative. *)
Definition itoa (z : Z) : buf := str (NilEmpty.string_of_int (Z.to_int z)).

(** [s[i]] panics when [i] is out of range. *)
Definition index (s : buf) (i : Z) : option ascii :=
  if (i <? 0)%Z then None else s !! Z.to_nat i.

(** ** Iteration over a map *)

(** [for k, v := range m] visits the entries of a Go map in an unspecified
    order, which may change from one loop to the next.  A [RangeOrder]
    picks the order in which the entries are visited. *)
Record RangeOrder : Type := {
  visit : list (buf * buf) -> list (buf * buf);
  visit_perm : forall l, visit l ≡ₚ l
}.

Definition rangeMap (o : RangeOrder) (m : gmap buf buf) : list (buf * buf) :=
  visit o (map_to_list m).

Definition inOrder : RangeOrder :=
  {| visit := fun l => l; visit_perm := fun l => reflexivity l |}.

Definition reversed : RangeOrder :=
  {| visit := reverse; visit_perm := reverse_Permutation |}.

(** ** The minifier *)

Record Minifier : Type := {
  input : buf;
  preserveLicense : bool;
  shortenVars : bool;
  varMap : gmap buf buf;
  varCounter : Z
}.

Definition NewMinifier (input : buf) (preserveLicense shortenVars : bool)
    : Minifier :=
  {| input := input;
     preserveLicense := preserveLicense;
     shortenVars := shortenVars;
     varMap := ∅;
     varCounter := 0 |}.

Definition setVarCounter (n : Z) (m : Minifier) : Minifier :=
  {| input := input m;
     preserveLicense := preserveLicense m;
     shortenVars := shortenVars m;
     varMap := varMap m;
     varCounter := n |}.

Definition setVarMap (vm : gmap buf buf) (m : Minifier) : Minifier :=
  {| input := input m;
     preserveLicense := preserveLicense m;
     shortenVars := shortenVars m;
     varMap := vm;
     varCounter := varCounter m |}.

Definition alphabet : buf := str "abcdefghijklmnopqrstuvwxyz".

(** [generateVarName] generates short variable names (a, b, c, ... z, a1,
    b1, ...).  Go's [/] and [%] truncate towards zero. *)
Definition generateVarName (m : Minifier) : option (buf * Minifier) :=
  let suffix := Z.quot (varCounter m) 26 in
  match index alphabet (Z.rem (varCounter m) 26) with
  | None => None
  | Some char =>
      let m' := setVarCounter (wrap (varCounter m + 1)) m in
      if (suffix =? 0)%Z then Some ([char], m')
      else Some (char :: itoa suffix, m')
  end.

(** *** Patterns of [shortenVariableNames] *)

(** A double-quoted run without double quotes, or a single-quoted run
    without single quotes. *)
Definition stringRe : regex :=
  Alt (Seq (Chr dquote) (Seq (Star true notDQuote) (Chr dquote)))
      (Seq (Chr squote) (Seq (Star true notSQuote) (Chr squote))).

(** A word boundary, one of the keywords [var], [let], [const] (group 1),
    whitespace, an identifier (group 2: a character of [[a-zA-Z_$]] and any
    number of [[a-zA-Z0-9_$]]), a word boundary. *)
Definition declRe : regex :=
  Seq WordBoundary
    (Seq (Group 1 (Alt (Lit (str "var"))
                  (Alt (Lit (str "let")) (Lit (str "const")))))
    (Seq (Plus isSpace)
    (Seq (Group 2 (Seq (Cls isIdentStart) (Star true isIdentChar)))
         WordBoundary))).

(** The pattern [\b + original + \b] is compiled from the text of an
    identifier: a word character stands for itself and [$] is the
    end-of-text assertion.  [regexp.MustCompile] panics on a pattern that
    does not parse; the declaration scan only records identifiers over
    [[a-zA-Z0-9_$]], and any other character is refused here. *)
Fixpoint compileIdent (s : buf) : option regex :=
  match s with
  | [] => Some Eps
  | c :: s' =>
      match compileIdent s' with
      | None => None
      | Some r =>
          if Ascii.eqb c "$" then Some (Seq EndText r)
          else if isWord c then Some (Seq (Chr c) r)
          else None
      end
  end.

(** [regexp.MustCompile] also panics on a pattern that the parser of
    [regexp/syntax] refuses as too large (the error reads [expression too
    large]).  The parser refuses a pattern whose literals hold more than
    [maxRunes] runes, which is [128 << 20 / 4]; in [\b + original + \b]
    these are the characters of the identifier other than [$].  It also
    counts the [Regexp] nodes it allocates, and from [maxSize] nodes on,
    which is [128 << 20 / 40], it bounds the size of the program to be
    compiled by [maxSize] instructions.  A pattern with that many nodes has
    at least [maxSize - 2] instructions, and it is counted as refused
    here. *)
Definition maxRunes : Z := 2 ^ 27 / 4.
Definition maxSize : Z := 2 ^ 27 / 40.

(** The allocations of the parser: the number of nodes allocated so far,
    whether the free list holds a node, and the number of literal nodes on
    top of the stack.  A node is taken from the free list when there is
    one; a literal is a node of its own when it is pushed, and when the
    next node is pushed with two literals on top of the stack the upper
    one is merged into the lower one and freed. *)
Record parser : Type := {
  numRegexp : Z;
  freeNode : bool;
  topLiterals : nat
}.

Definition newRegexp (p : parser) : parser :=
  {| numRegexp := if freeNode p then numRegexp p else (numRegexp p + 1)%Z;
     freeNode := false;
     topLiterals := topLiterals p |}.

Definition maybeConcat (p : parser) : parser :=
  match topLiterals p with
  | S (S _) =>
      {| numRegexp := numRegexp p; freeNode := true; topLiterals := 1 |}
  | _ => p
  end.

Definition push (literal : bool) (p : parser) : parser :=
  let p := maybeConcat (newRegexp p) in
  {| numRegexp := numRegexp p;
     freeNode := freeNode p;
     topLiterals := if literal then S (topLiterals p) else 0 |}.

Definition isLiteral (c : ascii) : bool := negb (Ascii.eqb c "$").

(** The parser after [\b + original + \b]: the two assertions, the
    characters of the identifier between them, and the node of the
    concatenation. *)
Definition parseUsage (original : buf) : parser :=
  let p := push false {| numRegexp := 0; freeNode := false; topLiterals := 0 |} in
  let p := foldl (fun p c => push (isLiteral c) p) p original in
  let p := push false p in
  newRegexp (maybeConcat p).

Definition tooLarge (original : buf) : bool :=
  (maxRunes <? Z.of_nat (countIf isLiteral original))%Z
  || (maxSize <=? numRegexp (parseUsage original))%Z.

Definition usageRe (original : buf) : option regex :=
  match compileIdent original with
  | Some r =>
      if tooLarge original then None
      else Some (Seq WordBoundary (Seq r WordBoundary))
  | None => None
  end.

Definition placeholder (n : nat) : buf :=
  str "__STR_" ++ itoa (Z.of_nat n) ++ str "__".

(** The closure of the first [ReplaceAllStringFunc]: it records the literal
    under a fresh placeholder. *)
Definition shield (stringLiterals : gmap buf buf) (s : buf)
    : option (gmap buf buf * buf) :=
  let placeholder := placeholder (size stringLiterals) in
  Some (<[placeholder := s]> stringLiterals, placeholder).

(** The closure of the second [ReplaceAllStringFunc]: it allocates a short
    name for an identifier met for the first time and rewrites the
    declaration. *)
Definition declare (m : Minifier) (s : buf) : option (Minifier * buf) :=
  let parts := FindStringSubmatch declRe s in
  if length parts =? 3 then
    let original := nth 2 parts [] in
    let allocated :=
      match varMap m !! original with
      | Some _ => Some m
      | None =>
          match generateVarName m with
          | Some (name, m') =>
              Some (setVarMap (<[original := name]> (varMap m')) m')
          | None => None
          end
      end in
    match allocated with
    | Some m' =>
        Some (m', nth 1 parts [] ++ str " "
                    ++ default [] (varMap m' !! original))
    | None => None
    end
  else Some (m, s).

(** The loop over [m.varMap]: each entry replaces the whole-word occurrences
    of the original identifier. *)
Fixpoint replaceUsages (entries : list (buf * buf)) (code : buf)
    : option buf :=
  match entries with
  | [] => Some code
  | (original, short) :: rest =>
      match usageRe original with
      | Some re => replaceUsages rest (ReplaceAllString re short code)
      | None => None
      end
  end.

(** The loop over [stringLiterals]. *)
Fixpoint restoreStrings (entries : list (buf * buf)) (code : buf) : buf :=
  match entries with
  | [] => code
  | (placeholder, s) :: rest =>
      restoreStrings rest (stringsReplace code placeholder s)
  end.

Section Engine.
(** The orders of the two map iterations of [shortenVariableNames]. *)
Variables ordVars ordLits : RangeOrder.

(** [shortenVariableNames] replaces variable names with shorter versions. *)
Definition shortenVariableNames (m : Minifier) (code : buf)
    : option (buf * Minifier) :=
  (* Preserve strings *)
  match ReplaceAllStringFunc stringRe shield ∅ code with
  | None => None
  | Some (stringLiterals, code) =>
      (* Find and replace variable declarations *)
      match ReplaceAllStringFunc declRe declare m code with
      | None => None
      | Some (m, code) =>
          (* Replace variable usages *)
          match replaceUsages (rangeMap ordVars (varMap m)) code with
          | None => None
          | Some code =>
              (* Restore strings *)
              Some (restoreStrings (rangeMap ordLits stringLiterals) code, m)
          end
      end
  end.
End Engine.

(** *** Patterns of [Minify] *)

(** [^/\*!] followed by the shortest run of any characters and the closing
    delimiter *)
Definition licenseRe : regex :=
  Seq BeginText
    (Seq (Lit (str "/*!")) (Seq (Star false anyChar) (Lit (str "*/")))).

(** Two slashes and the rest of the line *)
Definition lineCommentRe : regex :=
  Seq (Lit (str "//")) (Star true notNewline).

(** The opening delimiter, the shortest run of any characters, the closing
    delimiter *)
Definition blockCommentRe : regex :=
  Seq (Lit (str "/*")) (Seq (Star false anyChar) (Lit (str "*/"))).

(** [^\s+|\s+$]: without the [m] flag the two assertions are the start and
    the end of the whole text *)
Definition trimRe : regex :=
  Alt (Seq BeginText (Plus isSpace)) (Seq (Plus isSpace) EndText).

(** [\s{2,}] *)
Definition spacesRe : regex := AtLeast2 isSpace.

(** The operator patterns as they are written in the source: four of them
    carry the backslash that quotes a metacharacter of the pattern
    syntax. *)
Definition operators : list buf :=
  [str "\+"; str "-"; str "\*"; str "/"; str "="; str "<"; str ">";
   str "!"; str "\?"; str ":"; str "&"; str "\|"; str ";"; str ","].

(** The character an operator pattern matches: a backslash quotes the
    character after it, another character stands for itself. *)
Definition operatorChar (op : buf) : regex :=
  match op with
  | "\"%char :: c :: _ => Chr c
  | c :: _ => Chr c
  | [] => Eps
  end.

(** [\s* + op + \s*] *)
Definition operatorRe (op : buf) : regex :=
  Seq (Star true isSpace) (Seq (operatorChar op) (Star true isSpace)).

(** [;;+] *)
Definition semicolonsRe : regex :=
  Seq (Chr ";") (Seq (Chr ";") (Star true (Ascii.eqb ";"))).

(** [function\s+] *)
Definition functionRe : regex := Seq (Lit (str "function")) (Plus isSpace).

(** [\n+] *)
Definition newlinesRe : regex := Plus (Ascii.eqb nl).

(** [,\s+] *)
Definition commaRe : regex := Seq (Chr ",") (Plus isSpace).

(** [\s*] a bracket [\s*] *)
Definition bracketRe (c : ascii) : regex :=
  Seq (Star true isSpace) (Seq (Chr c) (Star true isSpace)).

(** A step [result = re.ReplaceAllString(result, repl)]. *)
Definition step : Type := regex * buf.

Definition rewrite (steps : list step) (result : buf) : buf :=
  foldl (fun result '(re, repl) => ReplaceAllString re repl result)
        result steps.

Definition commentSteps : list step :=
  [ (* Remove single-line comments *)
    (lineCommentRe, []);
    (* Remove multi-line comments (except license) *)
    (blockCommentRe, []) ].

Definition compactSteps : list step :=
  [ (* Remove whitespace at the beginning and end of lines *)
    (trimRe, []);
    (* Replace multiple spaces with a single space *)
    (spacesRe, str " ") ]
  (* Remove spaces around operators: the replacement is the pattern text *)
  ++ map (fun op => (operatorRe op, op)) operators
  ++ [ (* Remove unnecessary semicolons *)
       (semicolonsRe, str ";");
       (* Remove spaces after function keywords and parentheses *)
       (functionRe, str "function");
       (* Remove newlines *)
       (newlinesRe, []);
       (* Remove spaces after commas *)
       (commaRe, str ",");
       (* Remove spaces around brackets *)
       (bracketRe "{", str "{");
       (bracketRe "}", str "}");
       (bracketRe "[", str "[");
       (bracketRe "]", str "]");
       (bracketRe "(", str "(");
       (bracketRe ")", str ")") ].

(** Preserve license comments if requested: the captured comment followed by
    a line break, and the remaining text. *)
Definition extractLicense (preserve : bool) (result : buf) : buf * buf :=
  if preserve then
    let license := FindString licenseRe result in
    match license with
    | [] => ([], result)
    | _ :: _ => (license ++ [nl], ReplaceAllString licenseRe [] result)
    end
  else ([], result).

Section Pipeline.
Variables ordVars ordLits : RangeOrder.

(** [Minify] performs the minification process. *)
Definition Minify (m : Minifier) : option (buf * Minifier) :=
  let result := input m in
  let '(licenseComment, result) :=
    extractLicense (preserveLicense m) result in
  let result := rewrite commentSteps result in
  let result := rewrite compactSteps result in
  let shortened :=
    if shortenVars m then shortenVariableNames ordVars ordLits m result
    else Some (result, m) in
  match shortened with
  | Some (result, m') =>
      match preserveLicense m, licenseComment with
      | true, _ :: _ => Some (licenseComment ++ result, m')
      | _, _ => Some (result, m')
      end
  | None => None
  end.

(** The text returned for a fresh minifier, [NewMinifier(...).Minify()]. *)
Definition minified (input : buf) (preserveLicense shortenVars : bool)
    : option buf :=
  fst <$> Minify (NewMinifier input preserveLicense shortenVars).
End Pipeline.

(** ** The checks of the test suite (minifier_test.go) *)

(** [isValidJavaScript] performs basic validation of JavaScript code: both
    braces occur, the quotes of each kind are even in number and the
    parentheses are as many open as closed.  [strings.Count] of a
    one-character string is the number of occurrences of the character. *)
Definition isValidJavaScript (code : buf) : bool :=
  (* Check for basic syntax errors *)
  if negb (contains code (str "{")) || negb (contains code (str "}"))
  then false
  else
    (* Check for unmatched quotes *)
    let singleQuotes := count squote code in
    let doubleQuotes := count dquote code in
    if negb (singleQuotes mod 2 =? 0) || negb (doubleQuotes mod 2 =? 0)
    then false
    else
      (* Check for unmatched parentheses *)
      let openParens := count "(" code in
      let closeParens := count ")" code in
      if negb (openParens =? closeParens) then false else true.

(** ** File names ([strings] and [path/filepath]) *)

(** [strings.HasSuffix] and [strings.TrimSuffix] *)
Definition HasSuffix (s suffix : buf) : bool :=
  (length suffix <=? length s)
  && bool_decide (drop (length s - length suffix) s = suffix).

Definition TrimSuffix (s suffix : buf) : buf :=
  if HasSuffix s suffix then take (length s - length suffix) s else s.

(** [os.IsPathSeparator] on Unix *)
Definition IsPathSeparator (c : ascii) : bool := Ascii.eqb c "/".

(** [filepath.Ext]: the loop goes down from the last character while it
    meets no separator and returns the text from the first dot it meets;
    [n] is the index of the loop plus one. *)
Fixpoint extFrom (path : buf) (n : nat) : buf :=
  match n with
  | O => []
  | S i =>
      match path !! i with
      | Some c =>
          if IsPathSeparator c then []
          else if Ascii.eqb c "." then drop i path
          else extFrom path i
      | None => []
      end
  end.

Definition Ext (path : buf) : buf := extFrom path (length path).

(** ** [processFile] *)

(** [float64(n)] of an [int], and the statistics of one file. *)
Definition float64 (n : Z) : PrimFloat.float :=
  if (n <? 0)%Z
  then PrimFloat.opp (PrimFloat.of_uint63 (Uint63.of_Z (- n)))
  else PrimFloat.of_uint63 (Uint63.of_Z n).

Record MinificationStats : Type := {
  InputFile : buf;
  OutputFile : buf;
  OriginalSize : Z;
  MinifiedSize : Z;
  Reduction : PrimFloat.float;
  ProcessTime : PrimFloat.float
}.

(** The output path when none is given: [.min] goes before the
    extension. *)
Definition defaultOutputPath (inputPath : buf) : buf :=
  let ext := Ext inputPath in
  TrimSuffix inputPath ext ++ str ".min" ++ ext.

Section ProcessFile.
(** The file system is left abstract: [ReadFile] returns the content or the
    text of the error, [WriteFile] the file system after the call and the
    text of the error if there is one.  [elapsed] is what
    [time.Since(start).Microseconds()] returns. *)
Variable World : Type.
Variable ReadFile : World -> buf -> buf + buf.
Variable WriteFile : World -> buf -> buf -> World * option buf.
Variables ordVars ordLits : RangeOrder.

(** What a call leaves: the file system, the lines given to [log.Printf]
    (without the prefix of the logger) and the statistics sent on the
    channel. *)
Record Effects : Type := {
  world : World;
  logged : list buf;
  sent : list MinificationStats
}.

(** [processFile] minifies a single JavaScript file.  The result is [None]
    when [Minify] panics. *)
Definition processFile (elapsed : Z) (w : World) (inputPath outputPath : buf)
    (preserveLicense shortenVars : bool) : option Effects :=
  match ReadFile w inputPath with
  | inr err =>
      Some {| world := w;
              logged := [str "Error reading " ++ inputPath ++ str ": "
                           ++ err ++ [nl]];
              sent := [] |}
  | inl content =>
      match minified ordVars ordLits content preserveLicense shortenVars with
      | None => None
      | Some minified =>
          let outputPath :=
            match outputPath with
            | [] => defaultOutputPath inputPath
            | _ :: _ => outputPath
            end in
          match WriteFile w outputPath minified with
          | (w', Some err) =>
              Some {| world := w';
                      logged := [str "Error writing " ++ outputPath
                                   ++ str ": " ++ err ++ [nl]];
                      sent := [] |}
          | (w', None) =>
              Some {| world := w';
                      logged := [];
                      sent :=
                        [ {| InputFile := inputPath;
                             OutputFile := outputPath;
                             OriginalSize := Z.of_nat (length content);
                             MinifiedSize := Z.of_nat (length minified);
                             Reduction :=
                               PrimFloat.mul
                                 (PrimFloat.div
                                    (float64 (Z.of_nat (length content)
                                              - Z.of_nat (length minified)))
                                    (float64 (Z.of_nat (length content))))
                                 (float64 100);
                             ProcessTime :=
                               PrimFloat.div (float64 elapsed) (float64 1000)
                          |} ] |}
          end
      end
  end.
End ProcessFile.

(** ** Replacement templates *)

(** A replacement template of [ReplaceAllString] after Go's [Expand] has
    read it: text to copy and references [$i] to the groups of the match
    ([$0] is the match). *)
Inductive part : Type :=
| Text (t : buf)
| Ref (i : nat).

Definition expand (template : list part) (m : buf) (caps : list buf) : buf :=
  concat (map (fun p =>
                 match p with
                 | Text t => t
                 | Ref O => m
                 | Ref (S i) => nth i caps []
                 end) template).

Definition substExpand (template : list part) (p : piece) : buf :=
  match p with Keep c => [c] | Hit m caps => expand template m caps end.

Definition ReplaceAllStringExpand (r : regex) (template : list part)
    (s : buf) : buf :=
  concat (map (substExpand template) (matches r s)).

(** ** The second version of the engine in main.go *)

(** The second copy of the program in main.go differs from the first in
    [Minify]: the operators are quoted with [regexp.QuoteMeta] and written
    back as they are, [function] keeps one space after it, a step takes the
    whitespace between a name and an opening parenthesis out, and the
    stages are traced with [debugLog]. *)
Module Revised.

(** [debugLog] writes a line to the debug file when [init] could open it.
    The result is what is written. *)
Definition debugLog (debugFile : bool) (text : buf) : list buf :=
  if debugFile then [text ++ [nl]] else [].

Definition operators : list buf :=
  [str "+"; str "-"; str "*"; str "/"; str "="; str "<"; str ">";
   str "!"; str "?"; str ":"; str "&"; str "|"; str ";"; str ","].

(** [\s* + regexp.QuoteMeta(op) + \s*]: the quoted operator matches its own
    text. *)
Definition operatorRe (op : buf) : regex :=
  Seq (Star true isSpace) (Seq (Lit op) (Star true isSpace)).

Definition operatorSteps : list step :=
  map (fun op => (operatorRe op, op)) operators.

(** [([a-zA-Z0-9_$])\s*\(] and the template [$1(] *)
Definition callRe : regex :=
  Seq (Group 1 (Cls isIdentChar)) (Seq (Star true isSpace) (Chr "(")).

Definition callTemplate : list part := [Ref 1; Text (str "(")].

Definition bracketSteps : list step :=
  [ (bracketRe "{", str "{");
    (bracketRe "}", str "}");
    (bracketRe "[", str "[");
    (bracketRe "]", str "]");
    (bracketRe "(", str "(");
    (bracketRe ")", str ")") ].

Section Pipeline.
Variables ordVars ordLits : RangeOrder.

(** [Minify] performs the minification process.  The result is the text,
    the minifier and the lines written to the debug file, or [None] when
    the renamer panics. *)
Definition Minify (debugFile : bool) (m : Minifier)
    : option (buf * Minifier * list buf) :=
  let log := debugLog debugFile (str "DEBUG: Minify function called") in
  let result := input m in
  let log := log ++ debugLog debugFile (str "Initial input: " ++ result) in
  (* Preserve license comments if requested *)
  let '(licenseComment, result) :=
    extractLicense (preserveLicense m) result in
  let log :=
    log ++ debugLog debugFile (str "After license preservation: " ++ result) in
  (* Remove single-line comments *)
  let result := ReplaceAllString lineCommentRe [] result in
  let log :=
    log ++ debugLog debugFile
             (str "After removing single-line comments: " ++ result) in
  (* Remove multi-line comments (except license) *)
  let result := ReplaceAllString blockCommentRe [] result in
  let log :=
    log ++ debugLog debugFile
             (str "After removing multi-line comments: " ++ result) in
  (* Remove whitespace at the beginning and end of lines *)
  let result := ReplaceAllString trimRe [] result in
  let log :=
    log ++ debugLog debugFile (str "After trimming whitespace: " ++ result) in
  (* Replace multiple spaces with a single space *)
  let result := ReplaceAllString spacesRe (str " ") result in
  let log :=
    log ++ debugLog debugFile
             (str "After replacing multiple spaces: " ++ result) in
  (* Remove spaces around operators *)
  let result := rewrite operatorSteps result in
  let log :=
    log ++ debugLog debugFile (str "After fixing operators: " ++ result) in
  (* Remove unnecessary semicolons *)
  let result := ReplaceAllString semicolonsRe (str ";") result in
  let log :=
    log ++ debugLog debugFile (str "After removing semicolons: " ++ result) in
  (* Remove spaces after function keywords and parentheses *)
  let result := ReplaceAllString functionRe (str "function ") result in
  (* Fix spaces between function name and parentheses *)
  let result := ReplaceAllStringExpand callRe callTemplate result in
  let log :=
    log ++ debugLog debugFile
             (str "After fixing function spacing: " ++ result) in
  (* Remove newlines *)
  let result := ReplaceAllString newlinesRe [] result in
  let log :=
    log ++ debugLog debugFile (str "After removing newlines: " ++ result) in
  (* Remove spaces after commas *)
  let result := ReplaceAllString commaRe (str ",") result in
  (* Remove spaces around brackets *)
  let result := rewrite bracketSteps result in
  let log :=
    log ++ debugLog debugFile
             (str "After removing bracket spaces: " ++ result) in
  let shortened :=
    if shortenVars m then
      match shortenVariableNames ordVars ordLits m result with
      | Some (result, m') =>
          Some (result, m',
                log ++ debugLog debugFile
                         (str "After shortening variables: " ++ result))
      | None => None
      end
    else Some (result, m, log) in
  match shortened with
  | Some (result, m', log) =>
      let result :=
        match preserveLicense m, licenseComment with
        | true, _ :: _ => licenseComment ++ result
        | _, _ => result
        end in
      Some (result, m',
            log ++ debugLog debugFile (str "Final result: " ++ result))
  | None => None
  end.

(** The text returned for a fresh minifier. *)
Definition minified (debugFile : bool) (input : buf)
    (preserveLicense shortenVars : bool) : option buf :=
  (fun r => r.1.1)
    <$> Minify debugFile (NewMinifier input preserveLicense shortenVars).
End Pipeline.

(** The steps before and after the one with a template, and the text
    handed to the renamer for a text without license and comments. *)
Definition beforeCall : list step :=
  [ (trimRe, []); (spacesRe, str " ") ]
  ++ operatorSteps
  ++ [ (semicolonsRe, str ";"); (functionRe, str "function ") ].

Definition afterCall : list step :=
  [ (newlinesRe, []); (commaRe, str ",") ] ++ bracketSteps.

Definition compacted (s : buf) : buf :=
  rewrite afterCall
    (ReplaceAllStringExpand callRe callTemplate (rewrite beforeCall s)).
End Revised.

(** ** Declarative semantics of the patterns *)

(** The character before the position reached after the text [m]. *)
Definition after (prev : option ascii) (m : buf) : option ascii :=
  match last m with
  | Some c => Some c
  | None => prev
  end.

(** [Matches r prev m rest caps caps']: after the character [prev], the
    pattern [r] matches the text [m] followed by [rest], and updates the
    capture groups from [caps] to [caps']. *)
Inductive Matches
  : regex -> option ascii -> buf -> buf -> list buf -> list buf -> Prop :=
| M_Eps prev rest caps :
    Matches Eps prev [] rest caps caps
| M_Chr c prev rest caps :
    Matches (Chr c) prev [c] rest caps caps
| M_Cls p d prev rest caps :
    p d = true ->
    Matches (Cls p) prev [d] rest caps caps
| M_Star g p prev m rest caps :
    forallb p m = true ->
    Matches (Star g p) prev m rest caps caps
| M_Seq r1 r2 prev m1 m2 rest caps caps1 caps2 :
    Matches r1 prev m1 (m2 ++ rest) caps caps1 ->
    Matches r2 (after prev m1) m2 rest caps1 caps2 ->
    Matches (Seq r1 r2) prev (m1 ++ m2) rest caps caps2
| M_AltL r1 r2 prev m rest caps caps1 :
    Matches r1 prev m rest caps caps1 ->
    Matches (Alt r1 r2) prev m rest caps caps1
| M_AltR r1 r2 prev m rest caps caps1 :
    Matches r2 prev m rest caps caps1 ->
    Matches (Alt r1 r2) prev m rest caps caps1
| M_Group i r prev m rest caps caps1 :
    Matches r prev m rest caps caps1 ->
    Matches (Group i r) prev m rest caps (<[pred i := m]> caps1)
| M_Begin rest caps :
    Matches BeginText None [] rest caps caps
| M_End prev caps :
    Matches EndText prev [] [] caps caps
| M_Word prev rest caps :
    xorb (wordBefore prev) (wordAfter rest) = true ->
    Matches WordBoundary prev [] rest caps caps.

(** A match found by [scan] is a match of the pattern. *)
Definition hitOK (r : regex) (p : piece) : Prop :=
  match p with
  | Keep _ => True
  | Hit m caps =>
      exists prev rest,
        Matches r prev m rest (replicate (ngroups r) []) caps
  end.

Definition isHit (p : piece) : bool :=
  match p with Hit _ _ => true | Keep _ => false end.

(** ** Static bounds on the matches of a pattern *)

(** All 256 characters, and the inclusion of one class in another. *)
Definition allChars : list ascii := map ascii_of_nat (seq 0 256).

Definition subclass (p q : ascii -> bool) : bool :=
  forallb (fun d => implb (p d) (q d)) allChars.

(** A lower bound on the number of characters of the class [q] in a match;
    with the class of all characters, on its length. *)
Fixpoint minCountIf (q : ascii -> bool) (r : regex) : nat :=
  match r with
  | Chr d => if q d then 1 else 0
  | Cls p => if subclass p q then 1 else 0
  | Seq r1 r2 => minCountIf q r1 + minCountIf q r2
  | Alt r1 r2 => Nat.min (minCountIf q r1) (minCountIf q r2)
  | Group _ r1 => minCountIf q r1
  | _ => 0
  end.

Definition minLen (r : regex) : nat := minCountIf anyChar r.

(** An upper bound on the occurrences of [c] in a match, when there is
    one. *)
Fixpoint maxCount (c : ascii) (r : regex) : option nat :=
  match r with
  | Chr d => Some (if Ascii.eqb d c then 1 else 0)
  | Cls p => Some (if p c then 1 else 0)
  | Star _ p => if p c then None else Some 0
  | Seq r1 r2 =>
      match maxCount c r1, maxCount c r2 with
      | Some a, Some b => Some (a + b)
      | _, _ => None
      end
  | Alt r1 r2 =>
      match maxCount c r1, maxCount c r2 with
      | Some a, Some b => Some (Nat.max a b)
      | _, _ => None
      end
  | Group _ r1 => maxCount c r1
  | _ => Some 0
  end.

(** A step leaves the number of [c] unchanged whatever it matches. *)
Definition keepsCount (c : ascii) (st : step) : bool :=
  let '(re, repl) := st in
  (count c repl <=? minCountIf (fun d => Ascii.eqb d c) re)
  && match maxCount c re with
     | Some k => k <=? count c repl
     | None => false
     end.

(** A step never adds a character of the class [q]; in particular an
    occurrence of [c], or a character at all. *)
Definition noMoreIf (q : ascii -> bool) (st : step) : bool :=
  let '(re, repl) := st in countIf q repl <=? minCountIf q re.

Definition noMoreOf (c : ascii) : step -> bool :=
  noMoreIf (fun d => Ascii.eqb d c).

Definition noLonger : step -> bool := noMoreIf anyChar.

(** ** Definitions used to state the properties *)

(** The [N]th short name as the specification describes it: the letter at
    position [N mod 26], followed by the decimal numeral of [N div 26] when
    that quotient is not zero. *)
Definition specName (N : Z) : buf :=
  nth (Z.to_nat (N mod 26)) alphabet "a"%char
    :: (if (N / 26 =? 0)%Z then [] else itoa (N / 26)).

(** [n] successive calls of [generateVarName]: the names, first to last,
    and the minifier they leave. *)
Fixpoint generateMany (n : nat) (m : Minifier) : option (list buf * Minifier) :=
  match n with
  | O => Some ([], m)
  | S n' =>
      match generateVarName m with
      | Some (name, m') =>
          match generateMany n' m' with
          | Some (names, m'') => Some (name :: names, m'')
          | None => None
          end
      | None => None
      end
  end.

(** [normalizeWhitespace] of the test suite deletes newlines, tabs and
    spaces before two outputs are compared. *)
Definition normalizeWhitespace (s : buf) : buf :=
  let s := stringsReplace s [nl] [] in
  let s := stringsReplace s ["009"%char] [] in
  stringsReplace s [" "%char] [].

(** The characters whose balance the specification speaks of. *)
Definition brackets : list ascii :=
  ["{"; "}"; "["; "]"; "("; ")"]%char.

(** The operator characters whose pattern text carries a backslash. *)
Definition quotedOperators : list ascii := ["+"; "*"; "?"; "|"]%char.

(** The text left once the license is set aside and the comments are
    removed. *)
Definition uncommented (preserve : bool) (input : buf) : buf :=
  rewrite commentSteps (extractLicense preserve input).2.

(** The input of the end-to-end example of the specification. *)
Definition basicInput : buf :=
  str "function test(a, b) {" ++ nl :: str "  // comment" ++ nl
    :: str "  return a + b;" ++ nl :: str "}".

Definition basicExpected : buf := str "function test(a,b){return a+b;}".

(** ** Invariants of the renamer *)

(** The number of matches among the pieces of a scan. *)
Fixpoint hits (ps : list piece) : nat :=
  match ps with
  | [] => 0
  | Keep _ :: ps' => hits ps'
  | Hit _ _ :: ps' => S (hits ps')
  end.

(** The length of a Go string is an [int]. *)
Definition validString (s : buf) : Prop :=
  (Z.of_nat (length s) <= int_max)%Z.

(** Lower-case letters and whitespace: every declaration site has at least
    four of them, and a placeholder has none. *)
Definition isLowerOrSpace (c : ascii) : bool := isLower c || isSpace c.

(** The characters of a generated name. *)
Definition isNameChar (c : ascii) : bool := isLower c || isDigit c.

Definition keywords : list buf := [str "var"; str "let"; str "const"].

(** The state of the minifier while [k] declaration sites remain to be
    rewritten: the counter is not negative and cannot overflow, the recorded
    identifiers are over the identifier characters, and the names they are
    mapped to are made of lower-case letters and digits. *)
Definition declInv (k : nat) (m : Minifier) : Prop :=
  (0 <= varCounter m)%Z
  /\ (varCounter m + Z.of_nat k <= int_max)%Z
  /\ map_Forall (fun original short =>
                   Forall (fun c => isIdentChar c = true) original
                   /\ Forall (fun c => isNameChar c = true) short)
                (varMap m).

(** A step that cannot lengthen a text free of the quoted operator
    characters: either it never adds a character nor one of these
    operators, or its pattern needs one of them and matches nowhere. *)
Definition harmless (st : step) : bool :=
  (noLonger st && forallb (fun c => noMoreOf c st) quotedOperators)
  || existsb (fun c => 1 <=? minCountIf (fun d => Ascii.eqb d c) st.1)
             quotedOperators.

(** 26 declarations of the names [a] to [z], then a 27th name used four
    times, after two spaces: the input of an example where renaming
    lengthens the text. *)
Definition manyDeclarations : buf :=
  str "  "
  ++ concat (map (fun c => str "var " ++ [c] ++ str ";") alphabet)
  ++ str "var A;A;A;A;A;".

(** The line break written after a preserved license: one character when a
    license is set aside, none otherwise. *)
Definition licenseBreak (preserve : bool) (input : buf) : nat :=
  match (extractLicense preserve input).1 with
  | [] => 0
  | _ :: _ => 1
  end.

(** ** Words *)

(** A text seen as its words, the maximal runs of word characters, and the
    characters between them. *)
Inductive token : Type :=
| W (w : buf)
| C (c : ascii).

Definition flattenToken (t : token) : buf :=
  match t with W w => w | C c => [c] end.

Definition flatten (ts : list token) : buf := concat (map flattenToken ts).

Fixpoint tokenize (s : buf) : list token :=
  match s with
  | [] => []
  | c :: s' =>
      if isWord c then
        match tokenize s' with
        | W w :: ts => W (c :: w) :: ts
        | ts => W [c] :: ts
        end
      else C c :: tokenize s'
  end.

Definition startsWithWord (ts : list token) : bool :=
  match ts with W _ :: _ => true | _ => false end.

(** The words are not empty and not adjacent. *)
Fixpoint canonical (ts : list token) : bool :=
  match ts with
  | [] => true
  | C c :: ts' => negb (isWord c) && canonical ts'
  | W w :: ts' =>
      negb (bool_decide (w = [])) && forallb isWord w
      && negb (startsWithWord ts') && canonical ts'
  end.

(** The effect of one entry of the rename table on a word. *)
Definition renameWord (e : buf * buf) (w : buf) : buf :=
  if bool_decide (w = e.1) then e.2 else w.

Definition renameToken (e : buf * buf) (t : token) : token :=
  match t with W w => W (renameWord e w) | C c => C c end.

(** A rename table as the declaration scan makes it: an identifier is a
    run of identifier characters that ends with a word character, a short
    name a non-empty run of word characters. *)
Definition scanTable (vm : gmap buf buf) : Prop :=
  map_Forall (fun original short =>
                forallb isIdentChar original = true
                /\ wordBefore (last original) = true
                /\ short <> [] /\ forallb isWord short = true) vm.

(** No short name of the table is the original identifier of another
    entry. *)
Definition noCapture (vm : gmap buf buf) : Prop :=
  forall o1 s1 o2 s2,
    vm !! o1 = Some s1 -> vm !! o2 = Some s2 -> o1 <> o2 -> s1 <> o2.

(** An input on which the order of the usage pass shows. *)
Definition swappedNames : buf := str "var b=1;var a=2;b+a".

(** ** Shielded texts *)

(** A shielded text seen as the characters of the text and the
    placeholders, by their index. *)
Inductive tok : Type :=
| T (c : ascii)
| P (i : nat).

Definition renderTok (t : tok) : buf :=
  match t with T c => [c] | P i => placeholder i end.

Definition render (ts : list tok) : buf := concat (map renderTok ts).

(** The text with each placeholder replaced by the literal of its index. *)
Definition fillTok (texts : list buf) (t : tok) : buf :=
  match t with T c => [c] | P i => nth i texts [] end.

Definition fillTokens (texts : list buf) (ts : list tok) : buf :=
  concat (map (fillTok texts) ts).

(** The indices of the placeholders, in order. *)
Fixpoint pholders (ts : list tok) : list nat :=
  match ts with
  | [] => []
  | T _ :: ts' => pholders ts'
  | P i :: ts' => i :: pholders ts'
  end.

(** The characters of the placeholders. *)
Definition isPlaceholderChar (c : ascii) : bool :=
  isDigit c || Ascii.eqb c "_" || Ascii.eqb c "S" || Ascii.eqb c "T"
  || Ascii.eqb c "R".

(** A text that holds no placeholder. *)
Definition placeholderFree (s : buf) : Prop :=
  forall j, contains s (placeholder j) = false.

(** The characters of a shielded text, where of each placeholder only the
    two underscores at its ends are kept, around a blank; a shielded text
    is clean when no placeholder can be read in it but its own. *)
Definition skeletonTok (t : tok) : buf :=
  match t with T c => [c] | P _ => str "__ __" end.

Definition skeleton (ts : list tok) : buf := concat (map skeletonTok ts).

Definition cleanToks (ts : list tok) : Prop := placeholderFree (skeleton ts).

(** [new] can stand where [m] stands: writing it in place of [m] makes no
    placeholder. *)
Definition tame (m new : buf) : Prop :=
  forall x y j,
    contains (x ++ new ++ y) (placeholder j) = true ->
    contains (x ++ m ++ y) (placeholder j) = true.

(** A string literal as the shield finds it: it starts and ends with a
    quote. *)
Definition isQuote (c : ascii) : bool :=
  Ascii.eqb c dquote || Ascii.eqb c squote.

Definition quoted (s : buf) : Prop :=
  exists q mid q', s = q :: mid ++ [q'] /\ isQuote q = true /\ isQuote q' = true.

(** Neither an underscore nor a dollar. *)
Definition plainChar (c : ascii) : bool :=
  negb (Ascii.eqb c "_") && negb (Ascii.eqb c "$").

Definition plainText (s : buf) : Prop := forallb plainChar s = true.

Fixpoint plainToks (ts : list tok) : bool :=
  match ts with
  | [] => true
  | T c :: ts' => plainChar c && plainToks ts'
  | P _ :: ts' => plainToks ts'
  end.

(** The tokens written by shielding when the next index is [k], and the
    texts of the matches of a scan. *)
Fixpoint shieldTokens (k : nat) (ps : list piece) : list tok :=
  match ps with
  | [] => []
  | Keep c :: ps' => T c :: shieldTokens k ps'
  | Hit _ _ :: ps' => P k :: shieldTokens (S k) ps'
  end.

Fixpoint hitTexts (ps : list piece) : list buf :=
  match ps with
  | [] => []
  | Keep _ :: ps' => hitTexts ps'
  | Hit m _ :: ps' => m :: hitTexts ps'
  end.

(** The string literals of a text, the shielded text, and the declaration
    sites found in it. *)
Definition literals (code : buf) : list buf :=
  hitTexts (matches stringRe code).

Definition shielded (code : buf) : buf :=
  render (shieldTokens 0 (matches stringRe code)).

(** The text with two underscores written on both sides of each string
    literal: the placeholder that takes the place of a literal starts and
    ends with two underscores, which the text around it may complete to a
    placeholder. *)
Definition padPiece (p : piece) : buf :=
  match p with
  | Keep c => [c]
  | Hit m _ => str "__" ++ m ++ str "__"
  end.

Definition padded (code : buf) : buf :=
  concat (map padPiece (matches stringRe code)).

Definition declarationSites (code : buf) : list buf :=
  hitTexts (matches declRe (shielded code)).

(** The identifier that the closure of the declaration scan reads in a
    declaration site, the identifiers of the sites of a text, and the texts
    all of whose declared identifiers give a pattern that the regexp
    package compiles. *)
Definition declaredName (site : buf) : buf :=
  nth 2 (FindStringSubmatch declRe site) [].

Definition declaredNames (code : buf) : list buf :=
  map declaredName (declarationSites code).

Definition compilable (code : buf) : Prop :=
  Forall (fun name => tooLarge name = false) (declaredNames code).

(** The identifiers of a rename table all compile. *)
Definition compiles (vm : gmap buf buf) : Prop :=
  map_Forall (fun original _ => tooLarge original = false) vm.

(** The text handed to the renamer. *)
Definition compacted (preserve : bool) (input : buf) : buf :=
  rewrite compactSteps (uncommented preserve input).

(** The string literals of a text as JavaScript reads them: a literal opens
    at a quote and closes at the next quote of the same kind that no
    backslash escapes; a backslash takes the character after it along.
    [closing q s] is the number of characters of [s] up to and including
    the closing quote.  A quote that is never closed opens no literal. *)
Definition backslash : ascii := "092"%char.

Fixpoint closing (q : ascii) (s : buf) : option nat :=
  match s with
  | [] => None
  | c :: s' =>
      if Ascii.eqb c q then Some 1
      else if Ascii.eqb c backslash then
        match s' with
        | [] => None
        | _ :: s'' => option_map (fun n => S (S n)) (closing q s'')
        end
      else option_map S (closing q s')
  end.

Fixpoint jsLiteralsFrom (skip : nat) (s : buf) : list buf :=
  match s with
  | [] => []
  | c :: s' =>
      match skip with
      | S k => jsLiteralsFrom k s'
      | O =>
          if isQuote c then
            match closing c s' with
            | Some n => take (S n) s :: jsLiteralsFrom n s'
            | None => jsLiteralsFrom 0 s'
            end
          else jsLiteralsFrom 0 s'
      end
  end.

Definition jsLiterals (s : buf) : list buf := jsLiteralsFrom 0 s.

(** The number of positions of [s] at which [sub] occurs. *)
Fixpoint occurrences (sub s : buf) : nat :=
  (if prefixb sub s then 1 else 0)
  + match s with
    | [] => 0
    | _ :: s' => occurrences sub s'
    end.

(** A pattern whose matches are never empty, start where a word starts
    and end where no word character follows. *)
Definition guarded (r : regex) : Prop :=
  forall prev s n caps,
    exec r prev s = Some (n, caps) ->
    n <> 0 /\ wordBefore prev = false /\ wordAfter (drop n s) = false.

(** The matches of a scan all have a property. *)
Definition goodHits (HitP : buf -> Prop) (ps : list piece) : Prop :=
  Forall (fun p => HitP (source p) \/ isHit p = false) ps.

(** One step of the restoration on the tokens: the placeholder [ph] becomes
    the characters of [lit]. *)
Definition restoreTok (ph lit : buf) (t : tok) : list tok :=
  match t with
  | T c => [T c]
  | P i => if bool_decide (placeholder i = ph) then map T lit else [P i]
  end.

Definition restoreToks (ts : list tok) (e : buf * buf) : list tok :=
  flat_map (restoreTok e.1 e.2) ts.

(** A generated name as the renamer needs it: a lower-case letter, then
    lower-case letters and digits. *)
Definition shortName (short : buf) : Prop :=
  exists c ds,
    short = c :: ds /\ isLower c = true
    /\ Forall (fun d => isNameChar d = true) ds.

(** The invariant of the declaration scan on a shielded text: on top of
    [declInv], the recorded identifiers end with a word character, hold no
    placeholder and give a pattern that compiles, and the names they are
    mapped to are generated names. *)
Definition renamerInv (k : nat) (m : Minifier) : Prop :=
  declInv k m
  /\ map_Forall (fun original short =>
                   forallb isIdentChar original = true
                   /\ wordBefore (last original) = true
                   /\ tooLarge original = false
                   /\ placeholderFree original
                   /\ shortName short)
                (varMap m).

(** A declaration site that the renamer can take: it holds no placeholder
    and its identifier gives a pattern that compiles. *)
Definition fairSite (site : buf) : Prop :=
  placeholderFree site /\ tooLarge (declaredName site) = false.

(** The number of tokens of the placeholder [j]. *)
Fixpoint countP (j : nat) (ts : list tok) : nat :=
  match ts with
  | [] => 0
  | T _ :: ts' => countP j ts'
  | P i :: ts' => (if bool_decide (i = j) then 1 else 0) + countP j ts'
  end.

(** The characters the renamer reads and writes outside the literals, and
    the texts that agree on the number of occurrences of every other
    character. *)
Definition isIdentOrSpace (c : ascii) : bool := isIdentChar c || isSpace c.

Definition sameMarks (a b : buf) : Prop :=
  forall c, isIdentOrSpace c = false -> count c a = count c b.

(** ** Whitespace *)

(** The text without its whitespace characters. *)
Definition stripped (s : buf) : buf :=
  List.filter (fun c => negb (isSpace c)) s.

(** The text that every match of a pattern has once its whitespace is
    taken out, when the pattern fixes it. *)
Fixpoint solid (r : regex) : option buf :=
  match r with
  | Chr c => Some (stripped [c])
  | Cls p | Star _ p => if subclass p isSpace then Some [] else None
  | Seq r1 r2 =>
      match solid r1, solid r2 with
      | Some a, Some b => Some (a ++ b)
      | _, _ => None
      end
  | Alt r1 r2 =>
      match solid r1, solid r2 with
      | Some a, Some b => if bool_decide (a = b) then Some a else None
      | _, _ => None
      end
  | Group _ r1 => solid r1
  | Eps | BeginText | EndText | WordBoundary => Some []
  end.

(** A step that changes whitespace only, whatever it matches. *)
Definition spaceOnly (st : step) : bool :=
  match solid st.1 with
  | Some t => bool_decide (t = stripped st.2)
  | None => false
  end.

(** A step that needs one of the quoted operator characters to match. *)
Definition needsQuoted (st : step) : bool :=
  existsb (fun c => 1 <=? minCountIf (fun d => Ascii.eqb d c) st.1)
          quotedOperators.

(** No two whitespace characters in a row, [prev] telling whether the
    character before the text is one; and whether the text, or the
    character before it when it is empty, ends with whitespace. *)
Fixpoint tight (prev : bool) (s : buf) : bool :=
  match s with
  | [] => true
  | c :: s' => negb (prev && isSpace c) && tight (isSpace c) s'
  end.

Definition endsSpace (prev : bool) (s : buf) : bool :=
  match last s with
  | Some c => isSpace c
  | None => prev
  end.

(** A text that neither starts nor ends with whitespace and has no two
    whitespace characters in a row. *)
Definition compactText (s : buf) : bool :=
  tight true s && negb (endsSpace false s).

Definition headSpace (s : buf) : bool :=
  match s with c :: _ => isSpace c | [] => false end.

(** The text without its leading whitespace, and without its trailing
    whitespace. *)
Fixpoint trimLeft (s : buf) : buf :=
  match s with
  | c :: s' => if isSpace c then trimLeft s' else s
  | [] => []
  end.

Fixpoint trimRight (s : buf) : buf :=
  match s with
  | c :: s' => if forallb isSpace s then [] else c :: trimRight s'
  | [] => []
  end.

(** Every run of two or more whitespace characters becomes one space;
    [inRun] tells that the text starts inside such a run. *)
Fixpoint squeeze (inRun : bool) (s : buf) : buf :=
  match s with
  | [] => []
  | c :: s' =>
      if isSpace c then
        if inRun then squeeze true s'
        else if headSpace s' then " "%char :: squeeze true s'
        else c :: squeeze false s'
      else c :: squeeze false s'
  end.

(** A replacement that neither starts nor ends with whitespace, is not
    empty and has no two whitespace characters in a row. *)
Definition firm (repl : buf) : bool :=
  negb (headSpace repl) && negb (endsSpace true repl) && tight false repl.

(** ** The table of the renamer *)

(** Two minifiers with the same table and the same counter. *)
Definition sameTable (m1 m2 : Minifier) : Prop :=
  varMap m1 = varMap m2 /\ varCounter m1 = varCounter m2.

(** Two runs that fail together or give the same text and related
    states. *)
Definition sameRun {St : Type} (R : St -> St -> Prop)
    (x y : option (St * buf)) : Prop :=
  match x, y with
  | Some (a, o1), Some (b, o2) => o1 = o2 /\ R a b
  | None, None => True
  | _, _ => False
  end.

(** The table of the renamer holds the first names of the generator, one
    for each identifier: the counter is the number of entries, the short
    names are the names of the counter values below it, each of them is
    used, and no two identifiers share one. *)
Definition tableInv (m : Minifier) : Prop :=
  varCounter m = Z.of_nat (size (varMap m))
  /\ (forall o s,
         varMap m !! o = Some s ->
         exists k, (0 <= k < varCounter m)%Z /\ s = specName k)
  /\ (forall k,
         (0 <= k < varCounter m)%Z ->
         exists o, varMap m !! o = Some (specName k))
  /\ (forall o1 o2 s,
         varMap m !! o1 = Some s -> varMap m !! o2 = Some s -> o1 = o2).

(** A replacement that keeps a tight text tight where it stands for the
    match [m]: it is tight, not empty, does not start with whitespace and
    ends with whitespace only if the match does; or it is empty and the
    match starts with whitespace. *)
Definition fits (m repl : buf) : Prop :=
  (tight false repl = true /\ headSpace repl = false /\ repl <> []
   /\ (endsSpace true repl = true -> endsSpace false m = true))
  \/ (repl = [] /\ headSpace m = true).

(** * Short names *)

Lemma str_inj a b : str a = str b -> a = b.
Proof.
  unfold str. intros H.
  rewrite <- (String.string_of_list_ascii_of_string a).
  rewrite <- (String.string_of_list_ascii_of_string b). congruence.
Qed.

Lemma itoa_inj a b : itoa a = itoa b -> a = b.
Proof.
  unfold itoa. intros H. apply str_inj in H.
  apply DecimalZ.to_int_inj.
  pose proof (NilEmpty.isi (Z.to_int a)) as Ha.
  pose proof (NilEmpty.isi (Z.to_int b)) as Hb.
  congruence.
Qed.

Lemma string_of_uint_digits d :
  Forall (fun c => isDigit c = true) (str (NilEmpty.string_of_uint d)).
Proof.
  induction d; simpl; constructor; auto.
Qed.

Lemma string_of_uint_nonnil d :
  d <> Decimal.Nil -> str (NilEmpty.string_of_uint d) <> [].
Proof. destruct d; simpl; congruence. Qed.

(** The numeral of a natural number is a non-empty run of digits. *)
Lemma itoa_digits z :
  (0 <= z)%Z -> itoa z <> [] /\ Forall (fun c => isDigit c = true) (itoa z).
Proof.
  intros Hz. unfold itoa. destruct z as [|p|p]; simpl.
  - split; [discriminate|]. repeat constructor.
  - split; [|apply string_of_uint_digits].
    apply string_of_uint_nonnil, DecimalPos.Unsigned.to_uint_nonnil.
  - lia.
Qed.

Lemma alphabet_NoDup : NoDup alphabet.
Proof. apply (bool_decide_unpack _). vm_compute. exact I. Qed.

Lemma alphabet_lookup i :
  i < 26 -> alphabet !! i = Some (nth i alphabet "a"%char).
Proof.
  intros Hi. destruct (nth_lookup_or_length alphabet i "a"%char) as [E|E].
  - exact E.
  - vm_compute length in E. lia.
Qed.

Lemma specName_inj N M :
  (0 <= N)%Z -> (0 <= M)%Z -> specName N = specName M -> N = M.
Proof.
  intros HN HM H.
  pose proof (f_equal (hd "a"%char) H) as Hl.
  pose proof (f_equal (@tl ascii) H) as Hs.
  unfold specName in Hl, Hs. cbn [hd tl] in Hl, Hs. clear H.
  assert (HrN : (0 <= N mod 26 < 26)%Z) by (apply Z.mod_pos_bound; lia).
  assert (HrM : (0 <= M mod 26 < 26)%Z) by (apply Z.mod_pos_bound; lia).
  assert (Hr : (N mod 26 = M mod 26)%Z).
  { assert (E : Z.to_nat (N mod 26) = Z.to_nat (M mod 26)).
    { eapply NoDup_lookup; [apply alphabet_NoDup| |].
      - apply alphabet_lookup. lia.
      - rewrite Hl. apply alphabet_lookup. lia. }
    lia. }
  assert (Hq : (N / 26 = M / 26)%Z).
  { assert (HqN : (0 <= N / 26)%Z) by (apply Z.div_pos; lia).
    assert (HqM : (0 <= M / 26)%Z) by (apply Z.div_pos; lia).
    destruct (Z.eqb_spec (N / 26) 0) as [EN|EN];
      destruct (Z.eqb_spec (M / 26) 0) as [EM|EM].
    - congruence.
    - symmetry in Hs. apply (itoa_digits _ HqM) in Hs. contradiction.
    - apply (itoa_digits _ HqN) in Hs. contradiction.
    - apply itoa_inj. exact Hs. }
  rewrite (Z.div_mod N 26), (Z.div_mod M 26) by lia. congruence.
Qed.

Lemma wrap_small z : (- 2 ^ 63 <= z <= int_max)%Z -> wrap z = z.
Proof.
  unfold wrap, int_max. intros H.
  rewrite Z.mod_small by lia. lia.
Qed.

(** One call: the name is the specified one and the counter moves on. *)
Lemma generateVarName_spec m :
  (0 <= varCounter m)%Z ->
  generateVarName m
  = Some (specName (varCounter m),
          setVarCounter (wrap (varCounter m + 1)) m).
Proof.
  intros H. unfold generateVarName, specName, index.
  rewrite Z.rem_mod_nonneg, Z.quot_div_nonneg by lia.
  assert (Hr : (0 <= varCounter m mod 26 < 26)%Z)
    by (apply Z.mod_pos_bound; lia).
  destruct (Z.ltb_spec (varCounter m mod 26) 0) as [?|_]; [lia|].
  rewrite alphabet_lookup by lia.
  destruct (varCounter m / 26 =? 0)%Z; reflexivity.
Qed.

Lemma generateMany_spec n :
  forall m,
    (0 <= varCounter m)%Z ->
    (varCounter m + Z.of_nat n <= int_max + 1)%Z ->
    exists m',
      generateMany n m
      = Some (map (fun i => specName (varCounter m + Z.of_nat i)) (seq 0 n),
              m').
Proof.
  induction n as [|n IH]; intros m H0 Hn.
  - exists m. reflexivity.
  - cbn [generateMany]. rewrite generateVarName_spec by exact H0.
    set (m1 := setVarCounter (wrap (varCounter m + 1)) m).
    destruct n as [|n].
    { exists m1. cbn [generateMany seq map]. rewrite Z.add_0_r. reflexivity. }
    assert (E : varCounter m1 = (varCounter m + 1)%Z).
    { unfold m1. cbn [varCounter setVarCounter]. apply wrap_small.
      unfold int_max in *. lia. }
    destruct (IH m1) as (m' & Hm'); [rewrite E; lia|rewrite E; lia|].
    exists m'. rewrite Hm'.
    replace (seq 0 (S (S n))) with (0 :: map S (seq 0 (S n)))
      by (rewrite seq_shift; reflexivity).
    rewrite map_cons, map_map. change (Z.of_nat 0) with 0%Z.
    rewrite Z.add_0_r. do 3 f_equal.
    apply map_ext. intros i. rewrite E. f_equal. lia.
Qed.

(** C6. The [N]th name (counting from 0) produced by [generateVarName] in
    one invocation is the letter at position [N mod 26] of the alphabet,
    followed by the decimal numeral of [N div 26] exactly when that quotient
    is not zero, for every counter value [N] an [int] can hold; and distinct
    counter values give distinct names. *)
Theorem generateVarName_sequence (n : nat) (input : buf) (pl sv : bool) :
  (Z.of_nat n <= int_max)%Z ->
  (exists m',
      generateMany (S n) (NewMinifier input pl sv)
      = Some (map (fun i => specName (Z.of_nat i)) (seq 0 (S n)), m'))
  /\ (forall i j : nat,
         specName (Z.of_nat i) = specName (Z.of_nat j) -> i = j).
Proof.
  intros Hn. split.
  - destruct (generateMany_spec (S n) (NewMinifier input pl sv))
      as (m' & Hm'); simpl varCounter; [lia|lia|].
    exists m'. exact Hm'.
  - intros i j H. apply specName_inj in H; lia.
Qed.

Lemma generateVarName_sequence_witness :
  exists m',
    generateMany 28 (NewMinifier [] false false)
    = Some (map (fun i => specName (Z.of_nat i)) (seq 0 28), m').
Proof.
  apply (generateVarName_sequence 27 [] false false). vm_compute. discriminate.
Defined.

(** * Properties of the matcher *)

Lemma after_cons prev c m : after prev (c :: m) = after (Some c) m.
Proof.
  unfold after. rewrite last_cons. destruct (last m); reflexivity.
Qed.

Lemma after_app prev m1 m2 : after prev (m1 ++ m2) = after (after prev m1) m2.
Proof.
  revert prev. induction m1 as [|c m1 IH]; intros prev; simpl.
  - reflexivity.
  - rewrite !after_cons. apply IH.
Qed.

Lemma after_nil prev : after prev [] = prev.
Proof. reflexivity. Qed.

Section RunSound.
Context {A : Type}.

Lemma starGreedy_sound p (k : option ascii -> buf -> option A) s :
  forall prev a,
    starGreedy p k prev s = Some a ->
    exists m rest,
      s = m ++ rest /\ forallb p m = true /\ k (after prev m) rest = Some a.
Proof.
  induction s as [|c s IH]; intros prev a H; simpl in H.
  - exists [], []. auto.
  - destruct (p c) eqn:Hp.
    + destruct (starGreedy p k (Some c) s) as [b|] eqn:Hs.
      * inversion H; subst b.
        destruct (IH _ _ Hs) as (m & rest & -> & Hm & Hk).
        exists (c :: m), rest. simpl. rewrite Hp, Hm, after_cons. auto.
      * exists [], (c :: s). auto.
    + exists [], (c :: s). auto.
Qed.

Lemma starLazy_sound p (k : option ascii -> buf -> option A) s :
  forall prev a,
    starLazy p k prev s = Some a ->
    exists m rest,
      s = m ++ rest /\ forallb p m = true /\ k (after prev m) rest = Some a.
Proof.
  induction s as [|c s IH]; intros prev a H; simpl in H.
  - destruct (k prev []) eqn:Hk; [|discriminate].
    exists [], []. inversion H; subst. auto.
  - destruct (k prev (c :: s)) eqn:Hk.
    + inversion H; subst. exists [], (c :: s). auto.
    + destruct (p c) eqn:Hp; [|discriminate].
      destruct (IH _ _ H) as (m & rest & -> & Hm & Hk').
      exists (c :: m), rest. simpl. rewrite Hp, Hm, after_cons. auto.
Qed.

(** Whatever the matcher returns comes from a match of the pattern. *)
Lemma run_sound r :
  forall caps prev s (k : list buf -> option ascii -> buf -> option A) a,
    run r caps prev s k = Some a ->
    exists m rest caps',
      s = m ++ rest /\ Matches r prev m rest caps caps'
      /\ k caps' (after prev m) rest = Some a.
Proof.
  induction r as [|c|p|g p|r1 IH1 r2 IH2|r1 IH1 r2 IH2|i r IH| | |];
    intros caps prev s k a H; simpl in H.
  - exists [], s, caps. split; [reflexivity|]. split; [constructor|exact H].
  - destruct s as [|d s]; [discriminate|].
    destruct (Ascii.eqb c d) eqn:E; [|discriminate].
    apply Ascii.eqb_eq in E. subst d.
    exists [c], s, caps. split; [reflexivity|]. split; [constructor|exact H].
  - destruct s as [|d s]; [discriminate|].
    destruct (p d) eqn:E; [|discriminate].
    exists [d], s, caps. split; [reflexivity|].
    split; [constructor; exact E|exact H].
  - destruct g.
    + destruct (starGreedy_sound _ _ _ _ _ H) as (m & rest & -> & Hm & Hk).
      exists m, rest, caps. split; [reflexivity|].
      split; [constructor; exact Hm|exact Hk].
    + destruct (starLazy_sound _ _ _ _ _ H) as (m & rest & -> & Hm & Hk).
      exists m, rest, caps. split; [reflexivity|].
      split; [constructor; exact Hm|exact Hk].
  - destruct (IH1 _ _ _ _ _ H) as (m1 & rest1 & caps1 & -> & M1 & H1).
    destruct (IH2 _ _ _ _ _ H1) as (m2 & rest & caps2 & -> & M2 & H2).
    exists (m1 ++ m2), rest, caps2. rewrite <- app_assoc.
    split; [reflexivity|]. split; [econstructor; eassumption|].
    rewrite after_app. exact H2.
  - destruct (run r1 caps prev s k) as [b|] eqn:E.
    + inversion H; subst b.
      destruct (IH1 _ _ _ _ _ E) as (m & rest & caps1 & -> & M1 & H1).
      exists m, rest, caps1. split; [reflexivity|].
      split; [apply M_AltL; exact M1|exact H1].
    + destruct (IH2 _ _ _ _ _ H) as (m & rest & caps1 & -> & M1 & H1).
      exists m, rest, caps1. split; [reflexivity|].
      split; [apply M_AltR; exact M1|exact H1].
  - destruct (IH _ _ _ _ _ H) as (m & rest & caps1 & -> & M1 & H1).
    exists m, rest, (<[pred i := m]> caps1). split; [reflexivity|].
    split; [constructor; exact M1|].
    rewrite length_app, Nat.add_sub, take_app_length in H1. exact H1.
  - destruct prev; [discriminate|].
    exists [], s, caps. split; [reflexivity|]. split; [constructor|exact H].
  - destruct s; [|discriminate].
    exists [], [], caps. split; [reflexivity|]. split; [constructor|exact H].
  - destruct (xorb (wordBefore prev) (wordAfter s)) eqn:E; [|discriminate].
    exists [], s, caps. split; [reflexivity|].
    split; [constructor; exact E|exact H].
Qed.
End RunSound.

Lemma exec_sound r prev s n caps :
  exec r prev s = Some (n, caps) ->
  exists m rest,
    s = m ++ rest /\ n = length m
    /\ Matches r prev m rest (replicate (ngroups r) []) caps.
Proof.
  unfold exec. intros H.
  destruct (run_sound _ _ _ _ _ _ H) as (m & rest & caps' & -> & M & Hk).
  inversion Hk; subst. exists m, rest.
  rewrite length_app, Nat.add_sub. auto.
Qed.

(** ** Properties of the scan *)

(** The pieces are a decomposition of the text. *)
Lemma scan_source r s :
  forall prev adj k, concat (map source (scan r prev adj k s)) = drop k s.
Proof.
  induction s as [|c s IH]; intros prev adj k; simpl.
  - destruct k; simpl; [|reflexivity].
    destruct (exec r prev []) as [[n caps]|]; [|reflexivity].
    destruct adj; reflexivity.
  - destruct k as [|k]; [|apply IH].
    destruct (exec r prev (c :: s)) as [[[|n] caps]|]; simpl.
    + rewrite map_app, concat_app. simpl. rewrite IH.
      destruct adj; reflexivity.
    + rewrite IH, take_drop. reflexivity.
    + rewrite IH. reflexivity.
Qed.

Lemma matches_source r s : concat (map source (matches r s)) = s.
Proof. unfold matches. rewrite scan_source. reflexivity. Qed.

(** Every match of the scan is a match of the pattern. *)
Lemma scan_hits r s :
  forall prev adj k, Forall (hitOK r) (scan r prev adj k s).
Proof.
  induction s as [|c s IH]; intros prev adj k; simpl.
  - destruct k; [|constructor].
    destruct (exec r prev []) as [[n caps]|] eqn:E; [|constructor].
    destruct adj; constructor; [|constructor].
    destruct (exec_sound _ _ _ _ _ E) as (m & rest & Hs & -> & M).
    symmetry in Hs. apply app_eq_nil in Hs as [-> ->].
    exists prev, []. exact M.
  - destruct k as [|k]; [|apply IH].
    destruct (exec r prev (c :: s)) as [[[|n] caps]|] eqn:E.
    + apply Forall_app. split; [|constructor; [exact I|apply IH]].
      destruct adj; constructor; [|constructor].
      destruct (exec_sound _ _ _ _ _ E) as (m & rest & Hs & Hn & M).
      destruct m; [|discriminate]. exists prev, rest. exact M.
    + constructor; [|apply IH].
      destruct (exec_sound _ _ _ _ _ E) as (m & rest & Hs & Hn & M).
      change (c :: take n s) with (take (S n) (c :: s)).
      rewrite Hs, Hn, take_app_length. exists prev, rest. exact M.
    + constructor; [exact I|apply IH].
Qed.

Lemma matches_hits r s : Forall (hitOK r) (matches r s).
Proof. apply scan_hits. Qed.

(** ** Counting characters *)

Lemma countIf_app q a b : countIf q (a ++ b) = countIf q a + countIf q b.
Proof. induction a as [|d a IH]; simpl; [reflexivity|]. rewrite IH. lia. Qed.

Lemma count_app c a b : count c (a ++ b) = count c a + count c b.
Proof. apply countIf_app. Qed.

Lemma countIf_le_length q s : countIf q s <= length s.
Proof.
  induction s as [|d s IH]; simpl; [lia|]. destruct (q d); lia.
Qed.

Lemma countIf_anyChar s : countIf anyChar s = length s.
Proof. induction s as [|d s IH]; simpl; [reflexivity|]. rewrite IH. lia. Qed.

Lemma countIf_zero_iff q s : countIf q s = 0 <-> Forall (fun d => q d = false) s.
Proof.
  induction s as [|d s IH]; simpl.
  - split; [constructor|reflexivity].
  - rewrite Forall_cons, <- IH. destruct (q d); split.
    + lia.
    + intros [? _]. discriminate.
    + intros H. split; [reflexivity|lia].
    + intros [_ H]. lia.
Qed.

Lemma count_zero_iff c s : count c s = 0 <-> c ∉ s.
Proof.
  unfold count. rewrite countIf_zero_iff, Forall_forall. split.
  - intros H Hc. specialize (H _ Hc). simpl in H.
    rewrite Ascii.eqb_refl in H. discriminate.
  - intros H d Hd. apply Ascii.eqb_neq. congruence.
Qed.

Lemma count_zero_outside p c m :
  forallb p m = true -> p c = false -> count c m = 0.
Proof.
  intros Hm Hc. apply countIf_zero_iff, Forall_forall. intros d Hd.
  rewrite forallb_forall in Hm. apply list_elem_of_In, Hm in Hd.
  apply Ascii.eqb_neq. congruence.
Qed.

Lemma allChars_complete d : d ∈ allChars.
Proof.
  unfold allChars. apply list_elem_of_fmap. exists (nat_of_ascii d).
  split; [symmetry; apply ascii_nat_embedding|].
  apply list_elem_of_In, in_seq. pose proof (nat_ascii_bounded d). lia.
Qed.

Lemma subclass_sound p q d : subclass p q = true -> p d = true -> q d = true.
Proof.
  unfold subclass. rewrite forallb_forall. intros H Hp.
  specialize (H d (proj1 (list_elem_of_In _ _) (allChars_complete d))).
  rewrite Hp in H. exact H.
Qed.

(** ** Soundness of the static bounds *)

Lemma minCountIf_sound q r prev m rest caps caps' :
  Matches r prev m rest caps caps' -> minCountIf q r <= countIf q m.
Proof.
  induction 1; simpl; try lia.
  - destruct (subclass p q) eqn:E; [|lia].
    rewrite (subclass_sound _ _ _ E) by assumption. lia.
  - rewrite countIf_app. lia.
Qed.

Lemma minLen_sound r prev m rest caps caps' :
  Matches r prev m rest caps caps' -> minLen r <= length m.
Proof.
  intros M. rewrite <- countIf_anyChar. eapply minCountIf_sound, M.
Qed.

Lemma maxCount_sound c r prev m rest caps caps' :
  Matches r prev m rest caps caps' ->
  forall k, maxCount c r = Some k -> count c m <= k.
Proof.
  unfold count.
  induction 1; simpl; intros k Hk.
  - lia.
  - inversion Hk. lia.
  - inversion Hk. destruct (p c) eqn:Hp.
    + destruct (Ascii.eqb d c); lia.
    + destruct (Ascii.eqb d c) eqn:E; [|lia].
      apply Ascii.eqb_eq in E. congruence.
  - destruct (p c) eqn:Hp; [discriminate|]. inversion Hk.
    pose proof (count_zero_outside p c m) as Hz. unfold count in Hz.
    rewrite Hz by assumption. lia.
  - destruct (maxCount c r1) as [a|]; [|discriminate].
    destruct (maxCount c r2) as [b|]; [|discriminate].
    inversion Hk. rewrite countIf_app.
    specialize (IHMatches1 _ eq_refl). specialize (IHMatches2 _ eq_refl). lia.
  - destruct (maxCount c r1) as [a|]; [|discriminate].
    destruct (maxCount c r2) as [b|]; [|discriminate].
    inversion Hk. specialize (IHMatches _ eq_refl). lia.
  - destruct (maxCount c r1) as [a|]; [|discriminate].
    destruct (maxCount c r2) as [b|]; [|discriminate].
    inversion Hk. specialize (IHMatches _ eq_refl). lia.
  - auto.
  - inversion Hk. lia.
  - inversion Hk. lia.
  - inversion Hk. lia.
Qed.

(** ** Replacement and additive measures *)

Section Measure.
(** A measure of texts that adds up over concatenation, such as the
    length or the number of occurrences of a character. *)
Variable mu : buf -> nat.
Hypothesis mu_app : forall a b, mu (a ++ b) = mu a + mu b.

Lemma mu_concat_le (f g : piece -> buf) ps :
  Forall (fun p => mu (f p) <= mu (g p)) ps ->
  mu (concat (map f ps)) <= mu (concat (map g ps)).
Proof.
  induction 1 as [|p ps Hp _ IH]; simpl; [lia|].
  rewrite !mu_app. lia.
Qed.

Lemma mu_concat_eq (f g : piece -> buf) ps :
  Forall (fun p => mu (f p) = mu (g p)) ps ->
  mu (concat (map f ps)) = mu (concat (map g ps)).
Proof.
  induction 1 as [|p ps Hp _ IH]; simpl; [reflexivity|].
  rewrite !mu_app. lia.
Qed.

Lemma ReplaceAllString_le r repl s :
  (forall prev m rest caps caps',
      Matches r prev m rest caps caps' -> mu repl <= mu m) ->
  mu (ReplaceAllString r repl s) <= mu s.
Proof.
  intros H. unfold ReplaceAllString.
  rewrite <- (matches_source r s) at 2. apply mu_concat_le.
  eapply Forall_impl; [apply matches_hits|].
  intros [c|m caps]; simpl; [lia|].
  intros (prev & rest & M). eapply H, M.
Qed.

Lemma ReplaceAllString_eq r repl s :
  (forall prev m rest caps caps',
      Matches r prev m rest caps caps' -> mu repl = mu m) ->
  mu (ReplaceAllString r repl s) = mu s.
Proof.
  intros H. unfold ReplaceAllString.
  rewrite <- (matches_source r s) at 2. apply mu_concat_eq.
  eapply Forall_impl; [apply matches_hits|].
  intros [c|m caps]; simpl; [lia|].
  intros (prev & rest & M). eapply H, M.
Qed.

(** The same for a sequence of steps. *)
Lemma rewrite_le steps :
  Forall (fun st : step =>
            forall s, mu (ReplaceAllString st.1 st.2 s) <= mu s) steps ->
  forall s, mu (rewrite steps s) <= mu s.
Proof.
  unfold rewrite. induction 1 as [|[re repl] steps Hst _ IH]; intros s; simpl.
  - lia.
  - etransitivity; [apply IH|apply Hst].
Qed.

Lemma rewrite_eq steps :
  Forall (fun st : step =>
            forall s, mu (ReplaceAllString st.1 st.2 s) = mu s) steps ->
  forall s, mu (rewrite steps s) = mu s.
Proof.
  unfold rewrite. induction 1 as [|[re repl] steps Hst _ IH]; intros s; simpl.
  - reflexivity.
  - etransitivity; [apply IH|apply Hst].
Qed.
End Measure.

Lemma step_keepsCount c st s :
  keepsCount c st = true ->
  count c (ReplaceAllString st.1 st.2 s) = count c s.
Proof.
  destruct st as [re repl]. unfold keepsCount. simpl. intros H.
  apply andb_true_iff in H as [Hlo Hhi]. apply Nat.leb_le in Hlo.
  destruct (maxCount c re) as [k|] eqn:Hk; [|discriminate].
  apply Nat.leb_le in Hhi.
  apply ReplaceAllString_eq; [apply count_app|].
  intros prev m rest caps caps' M.
  pose proof (minCountIf_sound (fun d => Ascii.eqb d c) _ _ _ _ _ _ M).
  pose proof (maxCount_sound c _ _ _ _ _ _ M _ Hk). unfold count in *. lia.
Qed.

Lemma step_noMoreIf q st s :
  noMoreIf q st = true ->
  countIf q (ReplaceAllString st.1 st.2 s) <= countIf q s.
Proof.
  destruct st as [re repl]. unfold noMoreIf. simpl. intros H.
  apply Nat.leb_le in H.
  apply ReplaceAllString_le; [apply countIf_app|].
  intros prev m rest caps caps' M.
  pose proof (minCountIf_sound q _ _ _ _ _ _ M). lia.
Qed.

Lemma rewrite_keepsCount c steps s :
  forallb (keepsCount c) steps = true ->
  count c (rewrite steps s) = count c s.
Proof.
  intros H. apply rewrite_eq. apply Forall_forall. intros st Hst.
  intros s'. apply step_keepsCount.
  rewrite forallb_forall in H. apply H. apply list_elem_of_In. exact Hst.
Qed.

Lemma rewrite_noMoreIf q steps s :
  forallb (noMoreIf q) steps = true ->
  countIf q (rewrite steps s) <= countIf q s.
Proof.
  intros H. apply rewrite_le. apply Forall_forall. intros st Hst s'. apply step_noMoreIf.
  rewrite forallb_forall in H. apply H. apply list_elem_of_In. exact Hst.
Qed.

Lemma rewrite_noMoreOf c steps s :
  forallb (noMoreOf c) steps = true ->
  count c (rewrite steps s) <= count c s.
Proof. apply rewrite_noMoreIf. Qed.

Lemma rewrite_noLonger steps s :
  forallb noLonger steps = true ->
  length (rewrite steps s) <= length s.
Proof.
  intros H. rewrite <- !countIf_anyChar. apply rewrite_noMoreIf. exact H.
Qed.

Lemma rewrite_app steps1 steps2 s :
  rewrite (steps1 ++ steps2) s = rewrite steps2 (rewrite steps1 s).
Proof. unfold rewrite. apply foldl_app. Qed.

(** ** Where the matches lie *)

Lemma concat_map_elem {A} (f : A -> buf) ps p :
  p ∈ ps -> exists pre post, concat (map f ps) = pre ++ f p ++ post.
Proof.
  induction 1 as [p ps|p q ps _ IH]; simpl.
  - exists [], (concat (map f ps)). reflexivity.
  - destruct IH as (pre & post & ->).
    exists (f q ++ pre), post. rewrite <- app_assoc. reflexivity.
Qed.

(** A match found in [s] is a part of [s] and a match of the pattern. *)
Lemma matches_elem r s m caps :
  Hit m caps ∈ matches r s ->
  (exists pre post, s = pre ++ m ++ post)
  /\ exists prev rest, Matches r prev m rest (replicate (ngroups r) []) caps.
Proof.
  intros H. split.
  - destruct (concat_map_elem source _ _ H) as (pre & post & E).
    rewrite matches_source in E. exists pre, post. exact E.
  - pose proof (matches_hits r s) as Hall.
    rewrite Forall_forall in Hall. apply (Hall _ H).
Qed.

Lemma subst_no_hit f ps :
  Forall (fun p => isHit p = false) ps ->
  concat (map (subst f) ps) = concat (map source ps).
Proof.
  induction 1 as [|[c|m caps] ps Hp _ IH]; simpl; [reflexivity| |discriminate].
  rewrite IH. reflexivity.
Qed.

(** When no part of the text is a match, the text is left as it is. *)
Lemma ReplaceAllString_no_match r repl s :
  (forall pre m post prev rest caps caps',
      s = pre ++ m ++ post -> ~ Matches r prev m rest caps caps') ->
  ReplaceAllString r repl s = s.
Proof.
  intros H. unfold ReplaceAllString.
  rewrite subst_no_hit; [apply matches_source|].
  apply Forall_forall. intros [c|m caps] Hp; [reflexivity|].
  apply matches_elem in Hp as ((pre & post & Hs) & prev & rest & M).
  exfalso. eapply H; eassumption.
Qed.

(** A pattern that needs a character of a class absent from the text
    matches nowhere. *)
Lemma ReplaceAllString_absent q r repl s :
  1 <= minCountIf q r -> countIf q s = 0 -> ReplaceAllString r repl s = s.
Proof.
  intros Hq Hs. apply ReplaceAllString_no_match.
  intros pre m post prev rest caps caps' -> M.
  pose proof (minCountIf_sound q _ _ _ _ _ _ M).
  rewrite !countIf_app in Hs. lia.
Qed.

(** The characters of the result come from the text or from the
    replacement. *)
Lemma ReplaceAllString_Forall (P : ascii -> Prop) r repl s :
  Forall P s -> Forall P repl -> Forall P (ReplaceAllString r repl s).
Proof.
  intros Hs Hr. unfold ReplaceAllString.
  rewrite <- (matches_source r s) in Hs.
  induction (matches r s) as [|[c|m caps] ps IH]; simpl in *.
  - constructor.
  - apply Forall_cons in Hs as [Hc Hs]. constructor; auto.
  - apply Forall_app in Hs as [_ Hs]. apply Forall_app. auto.
Qed.

Lemma rewrite_Forall (P : ascii -> Prop) steps s :
  Forall (fun st : step => Forall P st.2) steps ->
  Forall P s -> Forall P (rewrite steps s).
Proof.
  unfold rewrite. intros H. revert s.
  induction H as [|[re repl] steps Hst _ IH]; intros s Hs; simpl.
  - exact Hs.
  - apply IH. apply ReplaceAllString_Forall; assumption.
Qed.

(** ** Substrings *)

Lemma prefixb_app p s : prefixb p (p ++ s) = true.
Proof.
  induction p as [|a p IH]; simpl; [reflexivity|].
  rewrite Ascii.eqb_refl. exact IH.
Qed.

Lemma prefixb_spec p s : prefixb p s = true <-> exists t, s = p ++ t.
Proof.
  split.
  - revert s. induction p as [|a p IH]; intros s H; simpl in *.
    + exists s. reflexivity.
    + destruct s as [|b s]; [discriminate|].
      apply andb_true_iff in H as [E H]. apply Ascii.eqb_eq in E. subst b.
      destruct (IH _ H) as (t & ->). exists t. reflexivity.
  - intros (t & ->). apply prefixb_app.
Qed.

Lemma contains_prefix s sub : prefixb sub s = true -> contains s sub = true.
Proof. destruct s; simpl; intros ->; reflexivity. Qed.

Lemma contains_spec s sub :
  contains s sub = true <-> exists pre post, s = pre ++ sub ++ post.
Proof.
  split.
  - induction s as [|c s IH]; simpl; intros H.
    + rewrite orb_false_r in H. apply prefixb_spec in H as (t & Ht).
      exists [], t. exact Ht.
    + apply orb_true_iff in H as [H|H].
      * apply prefixb_spec in H as (t & Ht). exists [], t. exact Ht.
      * destruct (IH H) as (pre & post & ->). exists (c :: pre), post.
        reflexivity.
  - intros (pre & post & ->). induction pre as [|c pre IH]; simpl.
    + apply contains_prefix, prefixb_app.
    + rewrite IH. apply orb_true_r.
Qed.

Lemma contains_false_app s1 s2 sub :
  contains (s1 ++ s2) sub = false -> contains s2 sub = false.
Proof.
  intros H. destruct (contains s2 sub) eqn:E; [|reflexivity].
  apply contains_spec in E as (pre & post & ->).
  rewrite <- H. symmetry. apply contains_spec.
  exists (s1 ++ pre), post. rewrite <- app_assoc. reflexivity.
Qed.

(** ** The license pattern matches at the start of the text only *)

Lemma exec_anchored r c s : exec (Seq BeginText r) (Some c) s = None.
Proof. reflexivity. Qed.

Lemma find_anchored r s : forall c, find (Seq BeginText r) (Some c) s = None.
Proof.
  induction s as [|d s IH]; intros c; cbn [find]; rewrite exec_anchored.
  - reflexivity.
  - apply IH.
Qed.

Lemma scan_anchored r f s :
  forall c adj k,
    concat (map (subst f) (scan (Seq BeginText r) (Some c) adj k s))
    = drop k s.
Proof.
  induction s as [|d s IH]; intros c adj k; cbn [scan].
  - destruct k; [rewrite exec_anchored|]; reflexivity.
  - destruct k as [|k]; [|apply IH].
    rewrite exec_anchored. cbn [map concat subst]. rewrite IH. reflexivity.
Qed.

(** The license, when there is one, is a non-empty prefix of the input that
    the matcher finds at its start; the rest of the input goes on. *)
Lemma extractLicense_spec preserve s :
  extractLicense preserve s = ([], s)
  \/ exists license rest caps,
       preserve = true /\ license <> [] /\ s = license ++ rest
       /\ exec licenseRe None s = Some (length license, caps)
       /\ extractLicense preserve s = (license ++ [nl], rest).
Proof.
  unfold extractLicense. destruct preserve; [|left; reflexivity].
  assert (Hfind : FindString licenseRe s
                  = match exec licenseRe None s with
                    | Some (n, _) => take n s
                    | None => []
                    end).
  { unfold FindString. destruct s as [|c s]; cbn [find].
    - destruct (exec licenseRe None []) as [[n caps]|]; reflexivity.
    - destruct (exec licenseRe None (c :: s)) as [[n caps]|]; [reflexivity|].
      unfold licenseRe. rewrite find_anchored. reflexivity. }
  rewrite Hfind.
  destruct (exec licenseRe None s) as [[n caps]|] eqn:E; [|left; reflexivity].
  destruct (exec_sound _ _ _ _ _ E) as (m & rest & Hs & Hn & M).
  subst s n. rewrite take_app_length.
  destruct m as [|c m]; [left; reflexivity|].
  right. exists (c :: m), rest, caps.
  split; [reflexivity|]. split; [discriminate|]. split; [reflexivity|].
  split; [reflexivity|]. f_equal.
  unfold ReplaceAllString, matches.
  change ((c :: m) ++ rest) with (c :: (m ++ rest)) in *.
  cbn [scan]. rewrite E. cbn [length map concat subst app].
  unfold licenseRe. rewrite scan_anchored, drop_app_length. reflexivity.
Qed.

Lemma extractLicense_parts preserve s :
  exists license rest,
    s = license ++ rest
    /\ (extractLicense preserve s).2 = rest
    /\ ((extractLicense preserve s).1 = [] /\ license = []
        \/ (extractLicense preserve s).1 = license ++ [nl] /\ preserve = true).
Proof.
  destruct (extractLicense_spec preserve s)
    as [E|(license & rest & caps & Hp & Hne & Hs & _ & E)]; rewrite E.
  - exists [], s. auto.
  - exists license, rest. auto.
Qed.

(** ** The shape of [Minify] *)

Lemma Minify_unfold ordVars ordLits m :
  Minify ordVars ordLits m
  = let '(licenseComment, rest) :=
      extractLicense (preserveLicense m) (input m) in
    let result := rewrite compactSteps (rewrite commentSteps rest) in
    match (if shortenVars m
           then shortenVariableNames ordVars ordLits m result
           else Some (result, m)) with
    | Some (result, m') => Some (licenseComment ++ result, m')
    | None => None
    end.
Proof.
  unfold Minify.
  destruct (extractLicense_spec (preserveLicense m) (input m))
    as [E|(license & rest & caps & Hp & Hne & Hs & _ & E)]; rewrite E.
  - destruct (if shortenVars m then _ else _) as [[result m']|]; [|reflexivity].
    destruct (preserveLicense m); reflexivity.
  - destruct (if shortenVars m then _ else _) as [[result m']|]; [|reflexivity].
    rewrite Hp. destruct license; [congruence|]. reflexivity.
Qed.

Lemma minified_plain ordVars ordLits input pl :
  minified ordVars ordLits input pl false
  = Some ((extractLicense pl input).1
            ++ rewrite compactSteps (uncommented pl input)).
Proof.
  unfold minified, uncommented. rewrite Minify_unfold. simpl.
  destruct (extractLicense pl input) as [lic rest]. reflexivity.
Qed.

(** ** Replacement by a closure *)

Section ReplaceFunc.
Context {St : Type}.
Variable f : St -> buf -> option (St * buf).

(** The closure succeeds on every match as long as the state satisfies an
    invariant indexed by the number of matches still to come. *)
Lemma replaceFunc_total (Inv : nat -> St -> Prop) :
  (forall k st m,
      Inv (S k) st -> exists st' new, f st m = Some (st', new) /\ Inv k st') ->
  forall ps st,
    Inv (hits ps) st ->
    exists st' out, replaceFunc f st ps = Some (st', out) /\ Inv 0 st'.
Proof.
  intros Hf. induction ps as [|[c|m caps] ps IH]; intros st Hst; simpl in *.
  - exists st, []. auto.
  - destruct (IH _ Hst) as (st' & out & -> & H'). eauto.
  - destruct (Hf _ _ m Hst) as (st1 & new & -> & H1).
    destruct (IH _ H1) as (st' & out & -> & H'). eauto.
Qed.

(** A relation between a text and what it is rewritten to, kept by
    concatenation, holds between the scanned text and the result when it
    holds for every match. *)
Lemma replaceFunc_rel (Inv : St -> Prop) (HitP : piece -> Prop)
    (R : buf -> buf -> Prop) :
  R [] [] ->
  (forall a b a' b', R a b -> R a' b' -> R (a ++ a') (b ++ b')) ->
  (forall c, R [c] [c]) ->
  (forall st m caps st' new,
      Inv st -> HitP (Hit m caps) -> f st m = Some (st', new) ->
      Inv st' /\ R m new) ->
  forall ps st st' out,
    Forall HitP ps -> Inv st ->
    replaceFunc f st ps = Some (st', out) ->
    Inv st' /\ R (concat (map source ps)) out.
Proof.
  intros Rnil Rapp Rkeep Hf.
  induction ps as [|[c|m caps] ps IH]; intros st st' out Hps Hst H;
    simpl in *.
  - inversion H; subst. auto.
  - apply Forall_cons in Hps as [_ Hps].
    destruct (replaceFunc f st ps) as [[st1 out1]|] eqn:E; [|discriminate].
    inversion H; subst. destruct (IH _ _ _ Hps Hst E) as [H1 H2].
    split; [exact H1|]. apply (Rapp [c] [c]); auto.
  - apply Forall_cons in Hps as [Hm Hps].
    destruct (f st m) as [[st1 new]|] eqn:E1; [|discriminate].
    destruct (replaceFunc f st1 ps) as [[st2 out2]|] eqn:E2; [|discriminate].
    inversion H; subst.
    destruct (Hf _ _ _ _ _ Hst Hm E1) as [H1 Hr].
    destruct (IH _ _ _ Hps H1 E2) as [H2 Hr2].
    split; [exact H2|]. apply Rapp; assumption.
Qed.
End ReplaceFunc.

(** The matches take up at least their least size in the text. *)
Lemma hits_bound q r s : minCountIf q r * hits (matches r s) <= countIf q s.
Proof.
  rewrite <- (matches_source r s) at 2.
  pose proof (matches_hits r s) as H.
  induction H as [|[c|m caps] ps Hp _ IH]; simpl.
  - lia.
  - destruct (q c); lia.
  - destruct Hp as (prev & rest & M).
    pose proof (minCountIf_sound q _ _ _ _ _ _ M).
    rewrite countIf_app. lia.
Qed.

Section ReplaceFuncInv.
Context {St : Type}.
Variable f : St -> buf -> option (St * buf).

(** Totality and a relation between the text and the result at once, for
    an invariant indexed by the number of matches still to come. *)
Lemma replaceFunc_inv (Inv : nat -> St -> Prop) (HitP : piece -> Prop)
    (R : buf -> buf -> Prop) :
  R [] [] ->
  (forall a b a' b', R a b -> R a' b' -> R (a ++ a') (b ++ b')) ->
  (forall c, R [c] [c]) ->
  (forall k st m caps,
      Inv (S k) st -> HitP (Hit m caps) ->
      exists st' new, f st m = Some (st', new) /\ Inv k st' /\ R m new) ->
  forall ps st,
    Forall HitP ps -> Inv (hits ps) st ->
    exists st' out,
      replaceFunc f st ps = Some (st', out)
      /\ Inv 0 st' /\ R (concat (map source ps)) out.
Proof.
  intros Rnil Rapp Rkeep Hf.
  induction ps as [|[c|m caps] ps IH]; intros st Hps Hst; simpl in *.
  - exists st, []. auto.
  - apply Forall_cons in Hps as [_ Hps].
    destruct (IH _ Hps Hst) as (st' & out & -> & H' & Hr).
    exists st', (c :: out). split; [reflexivity|]. split; [exact H'|].
    apply (Rapp [c] [c]); auto.
  - apply Forall_cons in Hps as [Hm Hps].
    destruct (Hf _ _ _ _ Hst Hm) as (st1 & new & -> & H1 & Hr1).
    destruct (IH _ Hps H1) as (st' & out & -> & H' & Hr).
    exists st', (new ++ out). split; [reflexivity|]. split; [exact H'|].
    apply Rapp; assumption.
Qed.
End ReplaceFuncInv.

(** ** [strings.Replace] *)

Lemma replaceFrom_Forall (P : ascii -> Prop) old new s :
  Forall P new -> Forall P s -> forall k, Forall P (replaceFrom old new k s).
Proof.
  intros Hnew Hs. induction Hs as [|c s Hc Hs IH]; intros k; simpl.
  - constructor.
  - destruct k; [|apply IH].
    destruct (prefixb old (c :: s)).
    + apply Forall_app. split; [exact Hnew|apply IH].
    + constructor; [exact Hc|apply IH].
Qed.

Lemma stringsReplace_Forall (P : ascii -> Prop) s old new :
  Forall P new -> Forall P s -> Forall P (stringsReplace s old new).
Proof.
  intros Hnew Hs. unfold stringsReplace. destruct old as [|o old].
  - apply Forall_app. split; [|exact Hnew].
    induction Hs as [|c s Hc Hs IH]; simpl; [constructor|].
    rewrite <- app_assoc. apply Forall_app. split; [exact Hnew|].
    constructor; assumption.
  - apply replaceFrom_Forall; assumption.
Qed.

Lemma restoreStrings_Forall (P : ascii -> Prop) entries :
  Forall (fun e : buf * buf => Forall P e.2) entries ->
  forall code, Forall P code -> Forall P (restoreStrings entries code).
Proof.
  induction 1 as [|[ph lit] entries Hl _ IH]; intros code Hc; simpl.
  - exact Hc.
  - apply IH, stringsReplace_Forall; assumption.
Qed.

Lemma replaceUsages_Forall (P : ascii -> Prop) entries :
  Forall (fun e : buf * buf => Forall P e.2) entries ->
  forall code out,
    Forall P code -> replaceUsages entries code = Some out -> Forall P out.
Proof.
  induction 1 as [|[original short] entries Hs _ IH]; intros code out Hc H;
    simpl in H.
  - inversion H; subst. exact Hc.
  - destruct (usageRe original) as [re|]; [|discriminate].
    eapply IH; [|exact H]. apply ReplaceAllString_Forall; assumption.
Qed.

(** * The renamer *)

(** Inversion of a match of a pattern given by its syntax. *)
Ltac invM :=
  repeat match goal with
  | H : Matches Eps _ _ _ _ _ |- _ => inversion H; subst; clear H
  | H : Matches (Chr _) _ _ _ _ _ |- _ => inversion H; subst; clear H
  | H : Matches (Cls _) _ _ _ _ _ |- _ => inversion H; subst; clear H
  | H : Matches (Star _ _) _ _ _ _ _ |- _ => inversion H; subst; clear H
  | H : Matches (Seq _ _) _ _ _ _ _ |- _ => inversion H; subst; clear H
  | H : Matches (Alt _ _) _ _ _ _ _ |- _ => inversion H; subst; clear H
  | H : Matches (Group _ _) _ _ _ _ _ |- _ => inversion H; subst; clear H
  | H : Matches BeginText _ _ _ _ _ |- _ => inversion H; subst; clear H
  | H : Matches EndText _ _ _ _ _ |- _ => inversion H; subst; clear H
  | H : Matches WordBoundary _ _ _ _ _ |- _ => inversion H; subst; clear H
  end.

Lemma exec_take r prev s n caps :
  exec r prev s = Some (n, caps) ->
  exists rest,
    s = take n s ++ rest
    /\ Matches r prev (take n s) rest (replicate (ngroups r) []) caps.
Proof.
  intros E. destruct (exec_sound _ _ _ _ _ E) as (m & rest & -> & -> & M).
  exists rest. rewrite take_app_length. split; [reflexivity|exact M].
Qed.

Lemma find_sound r s :
  forall prev m caps,
    find r prev s = Some (m, caps) ->
    exists prev' pre rest,
      s = pre ++ m ++ rest
      /\ Matches r prev' m rest (replicate (ngroups r) []) caps.
Proof.
  induction s as [|c s IH]; intros prev m caps H; cbn [find] in H.
  - destruct (exec r prev []) as [[n caps']|] eqn:E; [|discriminate].
    inversion H; subst. destruct (exec_take _ _ _ _ _ E) as (rest & Hs & M).
    exists prev, [], rest. split; [exact Hs|exact M].
  - destruct (exec r prev (c :: s)) as [[n caps']|] eqn:E.
    + inversion H; subst. destruct (exec_take _ _ _ _ _ E) as (rest & Hs & M).
      exists prev, [], rest. split; [exact Hs|exact M].
    + destruct (IH _ _ _ H) as (prev' & pre & rest & -> & M).
      exists prev', (c :: pre), rest. split; [reflexivity|exact M].
Qed.

(** A declaration site: a keyword, whitespace and an identifier, between
    two word boundaries. *)
Lemma declRe_inv prev m rest caps :
  Matches declRe prev m rest [[]; []] caps ->
  exists kw ws c id,
    m = kw ++ ws ++ c :: id /\ caps = [kw; c :: id] /\ kw ∈ keywords
    /\ ws <> [] /\ forallb isSpace ws = true
    /\ isIdentStart c = true /\ forallb isIdentChar id = true
    /\ wordBefore prev = false
    /\ xorb (wordBefore (after (Some c) id)) (wordAfter rest) = true.
Proof.
  unfold declRe, Plus. cbn [Lit str String.list_ascii_of_string].
  intros M. invM.
  all: cbn [app] in *; rewrite ?app_nil_r in *.
  all: match goal with
       | H : xorb (wordBefore ?p) (wordAfter (_ :: _)) = true |- _ =>
           assert (wordBefore p = false)
             by (cbn in H; destruct (wordBefore p); [discriminate|reflexivity])
       end.
  all: match goal with
       | H : xorb (wordBefore (after _ (?c :: ?id))) _ = true |- _ =>
           rewrite after_cons in H
       end.
  all: match goal with
       | H1 : isSpace ?d = true, H2 : forallb isSpace ?ws = true,
         H3 : isIdentStart ?c = true, H4 : forallb isIdentChar ?id = true
         |- _ =>
           first [ exists (str "var"), (d :: ws), c, id; split; [reflexivity|]
                 | exists (str "let"), (d :: ws), c, id; split; [reflexivity|]
                 | exists (str "const"), (d :: ws), c, id;
                   split; [reflexivity|] ];
           split; [reflexivity|]; split; [unfold keywords; set_solver|];
           split; [discriminate|]; cbn [forallb]; rewrite H1, H2; auto
       end.
Qed.

(** The short names are made of lower-case letters and digits. *)
Lemma specName_chars N :
  (0 <= N)%Z -> Forall (fun c => isNameChar c = true) (specName N).
Proof.
  intros HN. unfold specName. constructor.
  - assert (Hr : (0 <= N mod 26 < 26)%Z) by (apply Z.mod_pos_bound; lia).
    assert (Hall : Forall (fun c => isNameChar c = true) alphabet)
      by (unfold alphabet; cbn [str String.list_ascii_of_string];
          repeat constructor).
    rewrite Forall_forall in Hall. apply Hall.
    apply list_elem_of_In, nth_In. vm_compute length. lia.
  - destruct (N / 26 =? 0)%Z; [constructor|].
    assert (Hq : (0 <= N / 26)%Z) by (apply Z.div_pos; lia).
    destruct (itoa_digits _ Hq) as [_ Hd].
    eapply Forall_impl; [exact Hd|]. intros c Hc. unfold isNameChar.
    rewrite Hc. apply orb_true_r.
Qed.

(** What the closure of the declaration scan does on a text [s]: either
    the pattern is not found in [s] and nothing changes, or [s] holds a
    keyword and an identifier; the identifier is looked up, a fresh name is
    recorded for it when it has none, and the site is rewritten. *)
Lemma declare_cases m s :
  declare m s = Some (m, s)
  \/ exists kw original pre post,
       kw ∈ keywords
       /\ s = pre ++ original ++ post
       /\ original <> []
       /\ Forall (fun c => isIdentChar c = true) original
       /\ ((exists short,
              varMap m !! original = Some short
              /\ declare m s = Some (m, kw ++ str " " ++ short))
           \/ (varMap m !! original = None
               /\ ((0 <= varCounter m)%Z ->
                   declare m s
                   = Some (setVarMap
                             (<[original := specName (varCounter m)]> (varMap m))
                             (setVarCounter (wrap (varCounter m + 1)) m),
                           kw ++ str " " ++ specName (varCounter m))))).
Proof.
  unfold declare, FindStringSubmatch.
  destruct (find declRe None s) as [[mt caps]|] eqn:F; [|left; reflexivity].
  right. apply find_sound in F as (prev & pre & rest & Hs & M).
  change (replicate (ngroups declRe) []) with [@nil ascii; []] in M.
  apply declRe_inv in M
    as (kw & ws & c & id & Hm & -> & Hkw & _ & _ & Hc & Hid & _ & _).
  exists kw, (c :: id), (pre ++ kw ++ ws), rest.
  split; [exact Hkw|]. split; [rewrite Hs, Hm, <- !app_assoc; reflexivity|].
  split; [discriminate|].
  split.
  { constructor.
    - unfold isIdentStart in Hc. unfold isIdentChar.
      destruct (isLower c), (isUpper c), (isDigit c), (Ascii.eqb c "_"),
        (Ascii.eqb c "$"); simpl in *; congruence.
    - apply Forall_forall. intros d Hd. rewrite forallb_forall in Hid.
      apply Hid, list_elem_of_In, Hd. }
  cbn [length Nat.eqb nth].
  destruct (varMap m !! (c :: id)) as [short|] eqn:L.
  - left. exists short. split; [reflexivity|].
    cbn [varMap]. rewrite L. reflexivity.
  - right. split; [reflexivity|]. intros H0.
    rewrite generateVarName_spec by exact H0.
    cbn [varMap setVarMap setVarCounter]. rewrite lookup_insert_eq. reflexivity.
Qed.

Lemma isIdentChar_compiles original :
  Forall (fun c => isIdentChar c = true) original ->
  exists r, compileIdent original = Some r.
Proof.
  induction 1 as [|c original Hc _ (r & IH)]; simpl.
  - eauto.
  - rewrite IH. destruct (Ascii.eqb c "$") eqn:E; [eauto|].
    assert (Hw : isWord c = true).
    { unfold isIdentChar in Hc. unfold isWord. rewrite E in Hc.
      destruct (isLower c), (isUpper c), (isDigit c), (Ascii.eqb c "_");
        simpl in *; congruence. }
    rewrite Hw. eauto.
Qed.

Lemma replaceUsages_total entries :
  Forall (fun e : buf * buf =>
            Forall (fun c => isIdentChar c = true) e.1
            /\ tooLarge e.1 = false)
         entries ->
  forall code, exists out, replaceUsages entries code = Some out.
Proof.
  induction 1 as [|[original short] entries [Ho Hl] _ IH]; intros code; simpl.
  - eauto.
  - unfold usageRe. simpl in Ho, Hl.
    destruct (isIdentChar_compiles _ Ho) as (r & ->). rewrite Hl. apply IH.
Qed.

(** ** The size of the patterns *)

Lemma push_numRegexp literal p :
  (numRegexp p <= numRegexp (push literal p) <= numRegexp p + 1)%Z.
Proof.
  unfold push, maybeConcat, newRegexp. cbn [topLiterals numRegexp freeNode].
  destruct (topLiterals p) as [|[|n]], (freeNode p);
    cbn [numRegexp]; lia.
Qed.

Lemma parse_numRegexp original :
  forall p,
    (numRegexp (foldl (fun p c => push (isLiteral c) p) p original)
     <= numRegexp p + Z.of_nat (length original))%Z.
Proof.
  induction original as [|c original IH]; intros p; cbn [foldl length].
  - lia.
  - specialize (IH (push (isLiteral c) p)).
    pose proof (push_numRegexp (isLiteral c) p). lia.
Qed.

(** An identifier of fewer than [maxSize - 3] characters is not too
    large. *)
Lemma tooLarge_small original :
  (Z.of_nat (length original) + 3 < maxSize)%Z -> tooLarge original = false.
Proof.
  intros H. unfold tooLarge. apply orb_false_iff. split.
  - apply Z.ltb_ge. pose proof (countIf_le_length isLiteral original).
    unfold maxRunes, maxSize in *.
    change (2 ^ 27 / 4)%Z with 33554432%Z.
    change (2 ^ 27 / 40)%Z with 3355443%Z in H. lia.
  - apply Z.leb_gt. unfold parseUsage. cbn zeta.
    set (p0 := push false
                 {| numRegexp := 0; freeNode := false; topLiterals := 0 |}).
    pose proof (parse_numRegexp original p0) as H1.
    set (p1 := foldl (fun p c => push (isLiteral c) p) p0 original) in *.
    pose proof (push_numRegexp false p1) as H2.
    set (p2 := push false p1) in *.
    assert (H0 : numRegexp p0 = 1%Z) by reflexivity.
    assert (H3 : (numRegexp (newRegexp (maybeConcat p2))
                  <= numRegexp p2 + 1)%Z).
    { unfold newRegexp, maybeConcat.
      destruct (topLiterals p2) as [|[|n]], (freeNode p2);
        cbn [numRegexp freeNode]; lia. }
    unfold maxSize in *. change (2 ^ 27 / 40)%Z with 3355443%Z in *. lia.
Qed.

(** The closure of the declaration scan records no other identifier than
    the one it reads in the site. *)
Lemma declare_keys m s m' new :
  declare m s = Some (m', new) ->
  forall o,
    is_Some (varMap m' !! o) -> is_Some (varMap m !! o) \/ o = declaredName s.
Proof.
  unfold declare, declaredName.
  destruct (length (FindStringSubmatch declRe s) =? 3).
  - set (original := nth 2 (FindStringSubmatch declRe s) []).
    destruct (varMap m !! original) as [short|] eqn:L.
    + intros H. inversion H; subst. auto.
    + unfold generateVarName.
      destruct (index alphabet (Z.rem (varCounter m) 26)) as [char|];
        [|discriminate].
      destruct (Z.quot (varCounter m) 26 =? 0)%Z;
        intros H; inversion H; subst; intros o;
        cbn [varMap setVarMap setVarCounter];
        (destruct (decide (o = original)) as [->|Hne];
         [auto|rewrite lookup_insert_ne by congruence; auto]).
  - intros H. inversion H; subst. auto.
Qed.

Lemma declare_compiles m s m' new :
  compiles (varMap m) ->
  tooLarge (declaredName s) = false ->
  declare m s = Some (m', new) ->
  compiles (varMap m').
Proof.
  intros Hm Hs E o short Ho.
  destruct (declare_keys m s m' new E o) as [[x Hx]| ->]; [eauto| |exact Hs].
  exact (Hm o x Hx).
Qed.

(** When the identifiers of the matches compile, so do the identifiers of
    the table the declaration scan leaves. *)
Lemma declared_compile ps :
  forall m m' out,
    Forall (fun site => tooLarge (declaredName site) = false) (hitTexts ps) ->
    compiles (varMap m) ->
    replaceFunc declare m ps = Some (m', out) ->
    compiles (varMap m').
Proof.
  induction ps as [|[c|s caps] ps IH]; intros m m' out Hps Hm E;
    cbn [replaceFunc hitTexts] in *.
  - inversion E; subst. exact Hm.
  - destruct (replaceFunc declare m ps) as [[m1 out1]|] eqn:E1; [|discriminate].
    inversion E; subst. eapply IH; eauto.
  - apply Forall_cons in Hps as [Hs Hps].
    destruct (declare m s) as [[m1 new]|] eqn:E1; [|discriminate].
    destruct (replaceFunc declare m1 ps) as [[m2 out2]|] eqn:E2;
      [|discriminate].
    inversion E; subst.
    eapply IH; [exact Hps| |exact E2].
    eapply declare_compiles; eauto.
Qed.

(** A fact about every character, checked on each of the 256. *)
Lemma char_enum (P : ascii -> bool) :
  forallb P allChars = true -> forall c, P c = true.
Proof.
  intros H c. rewrite forallb_forall in H.
  apply H, list_elem_of_In, allChars_complete.
Qed.

Lemma digit_not_lowerOrSpace c : isDigit c = true -> isLowerOrSpace c = false.
Proof.
  intros H.
  pose proof (char_enum
    (fun c => implb (isDigit c) (negb (isLowerOrSpace c))) eq_refl c) as E.
  simpl in E. rewrite H in E. simpl in E. apply negb_true_iff. exact E.
Qed.

Lemma placeholder_no_lowerOrSpace n :
  countIf isLowerOrSpace (placeholder n) = 0.
Proof.
  unfold placeholder. rewrite !countIf_app.
  assert (countIf isLowerOrSpace (itoa (Z.of_nat n)) = 0) as ->.
  { apply countIf_zero_iff.
    destruct (itoa_digits (Z.of_nat n)) as [_ Hd]; [lia|].
    eapply Forall_impl; [exact Hd|]. apply digit_not_lowerOrSpace. }
  reflexivity.
Qed.

Lemma declInv_weaken k m : declInv (S k) m -> declInv k m.
Proof.
  unfold declInv. intros (H0 & H1 & H2).
  split; [lia|]. split; [lia|exact H2].
Qed.

(** The closure of the declaration scan never fails while the counter
    cannot overflow, and keeps the invariant. *)
Lemma declare_step k m s :
  declInv (S k) m ->
  exists m' new, declare m s = Some (m', new) /\ declInv k m'.
Proof.
  intros Hinv.
  destruct (declare_cases m s)
    as [E|(kw & original & pre & post & Hkw & Hs & Hne & Hid
           & [(short & L & E)|(L & E)])].
  - eauto using declInv_weaken.
  - eauto using declInv_weaken.
  - destruct Hinv as (H0 & H1 & H2). rewrite (E H0).
    eexists _, _. split; [reflexivity|].
    unfold declInv. cbn [varCounter varMap setVarMap setVarCounter].
    rewrite wrap_small by (unfold int_max in *; lia).
    split; [lia|]. split; [lia|].
    apply map_Forall_insert_2; [|exact H2].
    split; [exact Hid|apply specName_chars; exact H0].
Qed.

Lemma shield_total ps :
  forall lits, exists lits' out, replaceFunc shield lits ps = Some (lits', out).
Proof.
  intros lits.
  destruct (replaceFunc_total shield (fun _ _ => True)) with (ps := ps) (st := lits)
    as (lits' & out & E & _); [|exact I|eauto].
  intros k st m _. unfold shield. eauto.
Qed.

(** Shielding does not add lower-case letters or whitespace. *)
Lemma shield_lowerOrSpace ps lits lits' out :
  replaceFunc shield lits ps = Some (lits', out) ->
  countIf isLowerOrSpace out
  <= countIf isLowerOrSpace (concat (map source ps)).
Proof.
  intros E.
  refine (proj2 (replaceFunc_rel shield (fun _ => True) (fun _ => True)
            (fun a b => countIf isLowerOrSpace b <= countIf isLowerOrSpace a)
            _ _ _ _ ps lits lits' out _ I E)).
  - reflexivity.
  - intros a b a' b' H1 H2. rewrite !countIf_app. lia.
  - reflexivity.
  - intros st m caps st' new _ _ H. unfold shield in H. inversion H; subst.
    split; [exact I|]. rewrite placeholder_no_lowerOrSpace. lia.
  - apply Forall_forall. auto.
Qed.

Section Totality.
Variables ordVars ordLits : RangeOrder.

(** [shortenVariableNames] returns when the counter cannot overflow and
    the identifiers of the declaration sites compile. *)
Lemma shortenVariableNames_total m code :
  declInv (countIf isLowerOrSpace code) m ->
  compiles (varMap m) ->
  (forall lits code1,
      ReplaceAllStringFunc stringRe shield ∅ code = Some (lits, code1) ->
      Forall (fun site => tooLarge (declaredName site) = false)
             (hitTexts (matches declRe code1))) ->
  exists out m',
    shortenVariableNames ordVars ordLits m code = Some (out, m')
    /\ declInv 0 m'.
Proof.
  intros Hinv Hm Hsites. unfold shortenVariableNames.
  specialize (Hsites) as Hs. unfold ReplaceAllStringFunc in *.
  destruct (shield_total (matches stringRe code) ∅) as (lits & code1 & E1).
  rewrite E1. specialize (Hs lits code1 E1).
  pose proof (shield_lowerOrSpace _ _ _ _ E1) as Hle.
  rewrite matches_source in Hle.
  pose proof (hits_bound isLowerOrSpace declRe code1) as Hh.
  change (minCountIf isLowerOrSpace declRe) with 4 in Hh.
  destruct (replaceFunc_total declare declInv declare_step
              (matches declRe code1) m) as (m' & code2 & E2 & Hinv').
  { destruct Hinv as (H0 & H1 & H2).
    split; [exact H0|]. split; [lia|exact H2]. }
  rewrite E2.
  pose proof (declared_compile _ _ _ _ Hs Hm E2) as Hm'.
  destruct (replaceUsages_total (rangeMap ordVars (varMap m'))) with
    (code := code2) as (code3 & E3).
  { unfold rangeMap. rewrite visit_perm.
    destruct Hinv' as (_ & _ & H2).
    apply map_Forall_to_list in H2, Hm'.
    rewrite Forall_forall in H2, Hm'. apply Forall_forall.
    intros [k v] Hin. cbn [fst]. split.
    - apply (H2 _ Hin).
    - apply (Hm' _ Hin). }
  rewrite E3. eauto.
Qed.
End Totality.

Lemma commentSteps_lowerOrSpace :
  forallb (noMoreIf isLowerOrSpace) commentSteps = true.
Proof. vm_compute. reflexivity. Qed.

Lemma compactSteps_lowerOrSpace :
  forallb (noMoreIf isLowerOrSpace) compactSteps = true.
Proof. vm_compute. reflexivity. Qed.

(** The text handed to the renamer has no more lower-case letters and
    whitespace than the input has characters. *)
Lemma compact_lowerOrSpace pl input :
  countIf isLowerOrSpace (rewrite compactSteps (uncommented pl input))
  <= length input.
Proof.
  unfold uncommented.
  destruct (extractLicense_parts pl input) as (license & rest & Hs & -> & _).
  etransitivity;
    [apply rewrite_noMoreIf, compactSteps_lowerOrSpace|].
  etransitivity;
    [apply rewrite_noMoreIf, commentSteps_lowerOrSpace|].
  etransitivity; [apply countIf_le_length|].
  rewrite Hs, length_app. lia.
Qed.

Lemma declInv_fresh input pl sv k :
  (Z.of_nat k <= int_max)%Z -> declInv k (NewMinifier input pl sv).
Proof.
  intros Hk. unfold declInv. cbn [varCounter varMap NewMinifier].
  split; [lia|]. split; [lia|]. apply map_Forall_empty.
Qed.

(** ** What the renamer writes *)

Lemma nameChar_word c : isNameChar c = true -> isWord c = true.
Proof.
  intros H.
  pose proof (char_enum (fun c => implb (isNameChar c) (isWord c)) eq_refl c)
    as E.
  simpl in E. rewrite H in E. exact E.
Qed.

Lemma digit_word c : isDigit c = true -> isWord c = true.
Proof. intros H. unfold isWord. rewrite H. reflexivity. Qed.

Section WordClosed.
(** A property of characters that holds of the word characters and of
    the space: whatever the renamer writes has it. *)
Variable P : ascii -> Prop.
Hypothesis P_word : forall c, isWord c = true -> P c.
Hypothesis P_space : P " "%char.

Lemma placeholder_P n : Forall P (placeholder n).
Proof.
  unfold placeholder. rewrite !Forall_app. split; [|split].
  - repeat constructor; apply P_word; reflexivity.
  - destruct (itoa_digits (Z.of_nat n)) as [_ Hd]; [lia|].
    eapply Forall_impl; [exact Hd|]. intros c Hc. apply P_word, digit_word, Hc.
  - repeat constructor; apply P_word; reflexivity.
Qed.

Lemma keyword_P kw : kw ∈ keywords -> Forall P kw.
Proof.
  unfold keywords. rewrite !elem_of_cons, elem_of_nil.
  intros [->|[->|[->|[]]]]; repeat constructor; apply P_word; reflexivity.
Qed.

Lemma name_P name : Forall (fun c => isNameChar c = true) name -> Forall P name.
Proof.
  intros H. eapply Forall_impl; [exact H|].
  intros c Hc. apply P_word, nameChar_word, Hc.
Qed.

(** The relation kept by the two scans of the renamer. *)
Let R (a b : buf) : Prop :=
  countIf isLowerOrSpace b <= countIf isLowerOrSpace a
  /\ (Forall P a -> Forall P b).

Lemma R_nil : R [] [].
Proof. split; [reflexivity|auto]. Qed.

Lemma R_app a b a' b' : R a b -> R a' b' -> R (a ++ a') (b ++ b').
Proof.
  intros [H1 H2] [H3 H4]. split.
  - rewrite !countIf_app. lia.
  - rewrite !Forall_app. intros [? ?]. auto.
Qed.

Lemma R_keep c : R [c] [c].
Proof. split; [reflexivity|auto]. Qed.

Lemma source_Forall ps :
  Forall P (concat (map source ps)) -> Forall (fun p => Forall P (source p)) ps.
Proof.
  induction ps as [|p ps IH]; simpl; [constructor|].
  rewrite Forall_app. intros [? ?]. constructor; auto.
Qed.

Lemma shield_inv ps lits :
  Forall P (concat (map source ps)) ->
  map_Forall (fun _ lit => Forall P lit) lits ->
  exists lits' out,
    replaceFunc shield lits ps = Some (lits', out)
    /\ map_Forall (fun _ lit => Forall P lit) lits'
    /\ R (concat (map source ps)) out.
Proof.
  intros Hps Hl.
  apply (replaceFunc_inv shield
           (fun _ lits => map_Forall (fun _ lit => Forall P lit) lits)
           (fun p => Forall P (source p)) R R_nil R_app R_keep);
    [|apply source_Forall, Hps|exact Hl].
  intros k st m caps Hst Hm. unfold shield.
  eexists _, _. split; [reflexivity|]. split.
  - apply map_Forall_insert_2; [exact Hm|exact Hst].
  - split; [rewrite placeholder_no_lowerOrSpace; lia|].
    intros _. apply placeholder_P.
Qed.

Lemma declare_inv ps m :
  Forall P (concat (map source ps)) ->
  declInv (hits ps) m ->
  exists m' out,
    replaceFunc declare m ps = Some (m', out)
    /\ declInv 0 m'
    /\ Forall P out.
Proof.
  intros Hps Hm.
  destruct (replaceFunc_inv declare declInv
              (fun p => Forall P (source p))
              (fun a b => Forall P a -> Forall P b))
    with (ps := ps) (st := m) as (m' & out & E & Hinv & Hout).
  - auto.
  - intros a b a' b' H1 H2. rewrite !Forall_app. intros [? ?]. auto.
  - auto.
  - intros k m0 s caps Hinv Hs.
    destruct (declare_step k m0 s Hinv) as (m' & new & E & Hinv').
    exists m', new. split; [exact E|]. split; [exact Hinv'|]. intros _.
    destruct Hinv as (H0 & _ & Hmap).
    destruct (declare_cases m0 s)
      as [E'|(kw & original & pre & post & Hkw & Hsplit & Hne & Hid
              & [(short & L & E')|(L & E')])].
    + rewrite E' in E. inversion E; subst. exact Hs.
    + rewrite E' in E. inversion E; subst.
      apply Forall_app. split; [apply keyword_P, Hkw|].
      cbn [str String.list_ascii_of_string app].
      constructor; [exact P_space|].
      apply name_P. apply (Hmap _ _ L).
    + rewrite (E' H0) in E. inversion E; subst.
      apply Forall_app. split; [apply keyword_P, Hkw|].
      cbn [str String.list_ascii_of_string app].
      constructor; [exact P_space|].
      apply name_P, specName_chars, H0.
  - apply source_Forall, Hps.
  - exact Hm.
  - exists m', out. auto.
Qed.

Variables ordVars ordLits : RangeOrder.

(** [shortenVariableNames] returns when the counter cannot overflow and
    the identifiers of the declaration sites compile, and what it returns
    has the property when the text has it. *)
Lemma shortenVariableNames_spec m code :
  declInv (countIf isLowerOrSpace code) m ->
  compiles (varMap m) ->
  (forall lits code1,
      ReplaceAllStringFunc stringRe shield ∅ code = Some (lits, code1) ->
      Forall (fun site => tooLarge (declaredName site) = false)
             (hitTexts (matches declRe code1))) ->
  Forall P code ->
  exists out m',
    shortenVariableNames ordVars ordLits m code = Some (out, m')
    /\ declInv 0 m' /\ Forall P out.
Proof.
  intros Hinv Hm Hsites Hcode.
  unfold shortenVariableNames, ReplaceAllStringFunc in *.
  destruct (shield_inv (matches stringRe code) ∅)
    as (lits & code1 & E1 & Hlits & Hle & Hcode1).
  { rewrite matches_source. exact Hcode. }
  { apply map_Forall_empty. }
  rewrite E1. specialize (Hsites lits code1 E1).
  rewrite matches_source in Hle, Hcode1.
  specialize (Hcode1 Hcode).
  pose proof (hits_bound isLowerOrSpace declRe code1) as Hh.
  change (minCountIf isLowerOrSpace declRe) with 4 in Hh.
  destruct (declare_inv (matches declRe code1) m)
    as (m' & code2 & E2 & Hinv' & Hcode2).
  { rewrite matches_source. exact Hcode1. }
  { destruct Hinv as (H0 & H1 & H2).
    split; [exact H0|]. split; [lia|exact H2]. }
  rewrite E2.
  pose proof (declared_compile _ _ _ _ Hsites Hm E2) as Hm'.
  assert (Hentries :
    Forall (fun e : buf * buf =>
              Forall (fun c => isIdentChar c = true) e.1
              /\ Forall (fun c => isNameChar c = true) e.2)
           (rangeMap ordVars (varMap m'))).
  { unfold rangeMap. rewrite visit_perm.
    destruct Hinv' as (_ & _ & H2). apply map_Forall_to_list in H2.
    eapply Forall_impl; [exact H2|]. intros [k v] H. exact H. }
  destruct (replaceUsages_total (rangeMap ordVars (varMap m'))) with
    (code := code2) as (code3 & E3).
  { unfold rangeMap in *. rewrite visit_perm in *.
    apply map_Forall_to_list in Hm'.
    rewrite Forall_forall in Hentries, Hm'. apply Forall_forall.
    intros [k v] Hin. cbn [fst]. split.
    - apply (Hentries _ Hin).
    - apply (Hm' _ Hin). }
  rewrite E3. eexists _, _. split; [reflexivity|]. split; [exact Hinv'|].
  apply restoreStrings_Forall.
  - unfold rangeMap. rewrite visit_perm.
    apply map_Forall_to_list in Hlits.
    eapply Forall_impl; [exact Hlits|]. intros [k v] H. exact H.
  - eapply replaceUsages_Forall; [|exact Hcode2|exact E3].
    eapply Forall_impl; [exact Hentries|]. intros e [_ H].
    apply name_P, H.
Qed.
(** Whatever [shortenVariableNames] returns has the property when the
    text has it. *)
Lemma shortenVariableNames_sound m code out m' :
  declInv (countIf isLowerOrSpace code) m ->
  Forall P code ->
  shortenVariableNames ordVars ordLits m code = Some (out, m') ->
  Forall P out.
Proof.
  intros Hinv Hcode E.
  unfold shortenVariableNames, ReplaceAllStringFunc in *.
  destruct (shield_inv (matches stringRe code) ∅)
    as (lits & code1 & E1 & Hlits & Hle & Hcode1).
  { rewrite matches_source. exact Hcode. }
  { apply map_Forall_empty. }
  rewrite E1 in E.
  rewrite matches_source in Hle, Hcode1.
  specialize (Hcode1 Hcode).
  pose proof (hits_bound isLowerOrSpace declRe code1) as Hh.
  change (minCountIf isLowerOrSpace declRe) with 4 in Hh.
  destruct (declare_inv (matches declRe code1) m)
    as (m1 & code2 & E2 & Hinv' & Hcode2).
  { rewrite matches_source. exact Hcode1. }
  { destruct Hinv as (H0 & H1 & H2).
    split; [exact H0|]. split; [lia|exact H2]. }
  rewrite E2 in E.
  destruct (replaceUsages (rangeMap ordVars (varMap m1)) code2)
    as [code3|] eqn:E3; [|discriminate].
  inversion E; subst out m'.
  apply restoreStrings_Forall.
  - unfold rangeMap. rewrite visit_perm.
    apply map_Forall_to_list in Hlits.
    eapply Forall_impl; [exact Hlits|]. intros [k v] H. exact H.
  - eapply replaceUsages_Forall; [|exact Hcode2|exact E3].
    unfold rangeMap. rewrite visit_perm.
    destruct Hinv' as (_ & _ & H2). apply map_Forall_to_list in H2.
    eapply Forall_impl; [exact H2|]. intros [k v] [_ H]. apply name_P, H.
Qed.
End WordClosed.

(** ** The identifier of a declaration site *)

Lemma starGreedy_word {A} p (g : option ascii -> buf -> A) :
  (forall c, isWord c = true -> p c = true) ->
  forall s prev a,
    starGreedy p
      (fun prev' s' =>
         if xorb (wordBefore prev') (wordAfter s') then Some (g prev' s')
         else None) prev s = Some a ->
    exists m rest,
      s = m ++ rest /\ a = g (after prev m) rest
      /\ wordBefore (after prev m) = true.
Proof.
  intros Hp.
  assert (Hsucc : forall s prev,
             wordBefore prev = true ->
             starGreedy p
               (fun prev' s' =>
                  if xorb (wordBefore prev') (wordAfter s')
                  then Some (g prev' s') else None) prev s <> None).
  { induction s as [|c s IH]; intros prev Hprev; cbn [starGreedy].
    - rewrite Hprev. discriminate.
    - destruct (isWord c) eqn:Hc.
      + rewrite (Hp c Hc).
        specialize (IH (Some c) Hc).
        destruct (starGreedy p _ (Some c) s); [discriminate|congruence].
      + assert (Hk : (if xorb (wordBefore prev) (wordAfter (c :: s))
                      then Some (g prev (c :: s)) else None) <> None).
        { cbn [wordAfter]. rewrite Hprev, Hc. discriminate. }
        destruct (p c); [|exact Hk].
        destruct (starGreedy p _ (Some c) s); [discriminate|exact Hk]. }
  induction s as [|c s IH]; intros prev a H; cbn [starGreedy] in H.
  - exists [], []. cbn [wordAfter] in H.
    destruct (wordBefore prev) eqn:Hprev; [|discriminate].
    inversion H. auto.
  - assert (Hhere :
      (if xorb (wordBefore prev) (wordAfter (c :: s))
       then Some (g prev (c :: s)) else None) = Some a ->
      (p c = true -> isWord c = false) ->
      exists m rest,
        c :: s = m ++ rest /\ a = g (after prev m) rest
        /\ wordBefore (after prev m) = true).
    { intros Hk Hc. exists [], (c :: s). cbn [wordAfter] in Hk.
      destruct (wordBefore prev) eqn:Hprev.
      - destruct (isWord c); [discriminate|]. inversion Hk. auto.
      - destruct (isWord c) eqn:Hw; [|discriminate].
        specialize (Hc (Hp c Hw)). discriminate. }
    destruct (p c) eqn:Hpc.
    + destruct (starGreedy p _ (Some c) s) as [b|] eqn:Hs.
      * inversion H; subst b.
        destruct (IH _ _ Hs) as (m & rest & -> & -> & Hm).
        exists (c :: m), rest. rewrite after_cons. auto.
      * apply Hhere; [exact H|]. intros _.
        destruct (isWord c) eqn:Hw; [|reflexivity].
        exfalso. exact (Hsucc s (Some c) Hw Hs).
    + apply Hhere; [exact H|]. intros Hc. discriminate.
Qed.

Lemma run_Seq_eq {A} r1 r2 caps prev s
    (k : list buf -> option ascii -> buf -> option A) :
  run (Seq r1 r2) caps prev s k
  = run r1 caps prev s (fun caps' prev' s' => run r2 caps' prev' s' k).
Proof. reflexivity. Qed.

Lemma run_Group_eq {A} i r caps prev s
    (k : list buf -> option ascii -> buf -> option A) :
  run (Group i r) caps prev s k
  = run r caps prev s
      (fun caps' prev' s' =>
         k (<[pred i := take (length s - length s') s]> caps') prev' s').
Proof. reflexivity. Qed.

(** The identifier of a declaration site ends with a word character: the
    greedy run of identifier characters is given back up to the last
    position at which a word ends. *)
Lemma declRe_exec prev s n caps :
  exec declRe prev s = Some (n, caps) ->
  exists c id,
    nth 1 caps [] = c :: id /\ wordBefore (after (Some c) id) = true.
Proof.
  unfold exec, declRe. intros H.
  rewrite run_Seq_eq in H.
  apply run_sound in H as (m1 & rest1 & caps1 & -> & M1 & H).
  rewrite run_Seq_eq in H.
  apply run_sound in H as (m2 & rest2 & caps2 & -> & M2 & H).
  rewrite run_Seq_eq in H.
  apply run_sound in H as (m3 & rest3 & caps3 & -> & M3 & H).
  rewrite run_Seq_eq, run_Group_eq, run_Seq_eq in H.
  apply run_sound in H as (m4 & rest4 & caps4 & -> & M4 & H).
  inversion M4; subst. cbn [run] in H.
  apply starGreedy_word in H as (m & rest & -> & E & Hw).
  - inversion E; subst. exists d, m. split.
    + assert (Hlen : length caps4 = 2).
      { change (replicate (ngroups _) []) with [@nil ascii; []] in M1.
        unfold Plus in M3. cbn [Lit str String.list_ascii_of_string] in M2.
        invM; reflexivity. }
      destruct caps4 as [|x [|y [|z caps4]]]; try discriminate.
      cbn [nth]. change (<[1:=?v]> [x; y]) with [x; v].
      cbn [nth length]. rewrite length_app.
      replace (S (length m + length rest) - length rest) with (S (length m))
        by lia.
      cbn [take]. rewrite take_app_length. reflexivity.
    + exact Hw.
  - intros c Hc. unfold isIdentChar, isWord in *.
    destruct (isLower c), (isUpper c), (isDigit c), (Ascii.eqb c "_");
      cbn in *; congruence.
Qed.

Lemma find_exec r s :
  forall prev m caps,
    find r prev s = Some (m, caps) ->
    exists prev' s', exec r prev' s' = Some (length m, caps).
Proof.
  assert (Hhere : forall prev s n caps,
             exec r prev s = Some (n, caps) ->
             exists prev' s', exec r prev' s' = Some (length (take n s), caps)).
  { intros prev s0 n caps E. exists prev, s0.
    destruct (exec_sound _ _ _ _ _ E) as (m0 & rest & -> & -> & _).
    rewrite take_app_length. exact E. }
  induction s as [|c s IH]; intros prev m caps H; cbn [find] in H.
  - destruct (exec r prev []) as [[n caps']|] eqn:E; [|discriminate].
    inversion H; subst. eapply Hhere, E.
  - destruct (exec r prev (c :: s)) as [[n caps']|] eqn:E.
    + inversion H; subst. eapply Hhere, E.
    + eapply IH, H.
Qed.

(** What the closure of the declaration scan does, in terms of the
    identifier it reads in the site: the identifier is a run of identifier
    characters that ends with a word character and stands in the site. *)
Lemma declare_name m s :
  declare m s = Some (m, s)
  \/ exists kw c id pre post,
       kw ∈ keywords
       /\ declaredName s = c :: id
       /\ s = pre ++ (c :: id) ++ post
       /\ forallb isIdentChar (c :: id) = true
       /\ wordBefore (after (Some c) id) = true
       /\ ((exists short,
              varMap m !! (c :: id) = Some short
              /\ declare m s = Some (m, kw ++ str " " ++ short))
           \/ (varMap m !! (c :: id) = None
               /\ ((0 <= varCounter m)%Z ->
                   declare m s
                   = Some (setVarMap
                             (<[c :: id := specName (varCounter m)]> (varMap m))
                             (setVarCounter (wrap (varCounter m + 1)) m),
                           kw ++ str " " ++ specName (varCounter m))))).
Proof.
  unfold declare, declaredName, FindStringSubmatch.
  destruct (find declRe None s) as [[mt caps]|] eqn:F; [|left; reflexivity].
  right. pose proof F as F'.
  apply find_exec in F' as (prev' & s' & Ex).
  apply declRe_exec in Ex as (c0 & id0 & Hcap & Hword).
  apply find_sound in F as (prev & pre & rest & Hs & M).
  change (replicate (ngroups declRe) []) with [@nil ascii; []] in M.
  apply declRe_inv in M
    as (kw & ws & c & id & Hm & -> & Hkw & _ & _ & Hc & Hid & _ & _).
  cbn [nth] in Hcap. inversion Hcap; subst c0 id0.
  exists kw, c, id, (pre ++ kw ++ ws), rest.
  split; [exact Hkw|]. split; [reflexivity|].
  split; [rewrite Hs, Hm, <- !app_assoc; reflexivity|].
  split.
  { cbn [forallb]. rewrite Hid, andb_true_r.
    unfold isIdentStart in Hc. unfold isIdentChar.
    destruct (isLower c), (isUpper c), (isDigit c), (Ascii.eqb c "_"),
      (Ascii.eqb c "$"); simpl in *; congruence. }
  split; [exact Hword|].
  cbn [length Nat.eqb nth].
  destruct (varMap m !! (c :: id)) as [short|] eqn:L.
  - left. exists short. split; [reflexivity|].
    cbn [varMap]. rewrite L. reflexivity.
  - right. split; [reflexivity|]. intros H0.
    rewrite generateVarName_spec by exact H0.
    cbn [varMap setVarMap setVarCounter]. rewrite lookup_insert_eq. reflexivity.
Qed.

(** * Line breaks *)

Lemma starGreedy_some {A} p (g : buf -> A) s :
  forall prev,
    exists s2,
      length s2 <= length s
      /\ starGreedy p (fun _ s' => Some (g s')) prev s = Some (g s2).
Proof.
  induction s as [|c s IH]; intros prev; simpl.
  - exists []. auto.
  - destruct (p c).
    + destruct (IH (Some c)) as (s2 & Hl & ->). exists s2. split; [lia|auto].
    + exists (c :: s). auto.
Qed.

(** The pattern of the newline step matches at every line break. *)
Lemma exec_newlines prev s :
  exists n caps, exec newlinesRe prev (nl :: s) = Some (S n, caps).
Proof.
  unfold exec, newlinesRe, Plus. cbn [run ngroups Nat.add replicate].
  rewrite Ascii.eqb_refl.
  destruct (starGreedy_some (Ascii.eqb nl)
              (fun s' => (length (nl :: s) - length s', @nil buf)) s (Some nl))
    as (s2 & Hl & ->).
  exists (length s - length s2), []. do 2 f_equal. simpl. lia.
Qed.

(** A character at which the pattern always matches is never copied. *)
Lemma scan_no_keep r c :
  (forall prev s, exists n caps, exec r prev (c :: s) = Some (S n, caps)) ->
  forall s prev adj k, Keep c ∉ scan r prev adj k s.
Proof.
  intros Hc. induction s as [|d s IH]; intros prev adj k; cbn [scan].
  - destruct k; [|apply not_elem_of_nil].
    destruct (exec r prev []) as [[n caps]|]; [|apply not_elem_of_nil].
    destruct adj; [apply not_elem_of_nil|].
    rewrite elem_of_cons, elem_of_nil. intros [?|[]]. discriminate.
  - destruct k as [|k]; [|apply IH].
    destruct (exec r prev (d :: s)) as [[[|n] caps]|] eqn:E.
    + assert (d <> c) as Hd.
      { intros ->. destruct (Hc prev s) as (n & caps' & E'). congruence. }
      rewrite elem_of_app, elem_of_cons. intros [H|[H|H]].
      * destruct adj; [apply elem_of_nil in H; exact H|].
        rewrite elem_of_cons, elem_of_nil in H. destruct H as [?|[]].
        discriminate.
      * congruence.
      * exact (IH _ _ _ H).
    + rewrite elem_of_cons. intros [H|H]; [discriminate|exact (IH _ _ _ H)].
    + assert (d <> c) as Hd.
      { intros ->. destruct (Hc prev s) as (n & caps' & E'). congruence. }
      rewrite elem_of_cons. intros [H|H]; [congruence|exact (IH _ _ _ H)].
Qed.

Lemma delete_elem x ps :
  x ∈ concat (map (subst (fun _ => [])) ps) -> Keep x ∈ ps.
Proof.
  induction ps as [|[c|m caps] ps IH]; simpl.
  - intros H. apply elem_of_nil in H. contradiction.
  - rewrite !elem_of_cons. intros [->|H]; [left; reflexivity|right; auto].
  - intros H. apply elem_of_cons. right. auto.
Qed.

Lemma newline_step s : nl ∉ ReplaceAllString newlinesRe [] s.
Proof.
  unfold ReplaceAllString. intros H. apply delete_elem in H.
  revert H. apply scan_no_keep. apply exec_newlines.
Qed.

Lemma compactSteps_split :
  compactSteps
  = take 18 compactSteps ++ [(newlinesRe, [])] ++ drop 19 compactSteps.
Proof. vm_compute. reflexivity. Qed.

Lemma after_newlines_steps :
  forallb (noMoreOf nl) (drop 19 compactSteps) = true.
Proof. vm_compute. reflexivity. Qed.

(** The text handed to the renamer has no line break. *)
Lemma compact_no_newline s : nl ∉ rewrite compactSteps s.
Proof.
  rewrite compactSteps_split, !rewrite_app.
  apply count_zero_iff.
  pose proof (rewrite_noMoreOf nl (drop 19 compactSteps)
                (rewrite [(newlinesRe, [])] (rewrite (take 18 compactSteps) s))
                after_newlines_steps) as H.
  assert (count nl (rewrite [(newlinesRe, [])]
                      (rewrite (take 18 compactSteps) s)) = 0) as E.
  { apply count_zero_iff. apply newline_step. }
  lia.
Qed.

(** * Brackets and lengths, without renaming *)

Lemma lineComment_inv prev m rest caps caps' :
  Matches lineCommentRe prev m rest caps caps' ->
  exists t, m = str "//" ++ t.
Proof.
  unfold lineCommentRe. cbn [Lit str String.list_ascii_of_string].
  intros M. invM. eexists. reflexivity.
Qed.

Lemma blockComment_inv prev m rest caps caps' :
  Matches blockCommentRe prev m rest caps caps' ->
  exists t, m = str "/*" ++ t.
Proof.
  unfold blockCommentRe. cbn [Lit str String.list_ascii_of_string].
  intros M. invM. eexists. reflexivity.
Qed.

(** Without a comment opener the comment steps change nothing. *)
Lemma commentSteps_no_opener s :
  contains s (str "//") = false ->
  contains s (str "/*") = false ->
  rewrite commentSteps s = s.
Proof.
  intros H1 H2. unfold rewrite, commentSteps. cbn [foldl].
  assert (E : ReplaceAllString lineCommentRe [] s = s).
  { apply ReplaceAllString_no_match.
    intros pre m post prev rest caps caps' -> M.
    apply lineComment_inv in M as (t & ->).
    enough (contains (pre ++ (str "//" ++ t) ++ post) (str "//") = true)
      by congruence.
    apply contains_spec. exists pre, (t ++ post).
    rewrite <- !app_assoc. reflexivity. }
  rewrite E. apply ReplaceAllString_no_match.
  intros pre m post prev rest caps caps' -> M.
  apply blockComment_inv in M as (t & ->).
  enough (contains (pre ++ (str "/*" ++ t) ++ post) (str "/*") = true)
    by congruence.
  apply contains_spec. exists pre, (t ++ post).
  rewrite <- !app_assoc. reflexivity.
Qed.

Lemma compactSteps_brackets :
  forallb (fun c => forallb (keepsCount c) compactSteps) brackets = true.
Proof. vm_compute. reflexivity. Qed.

Lemma commentSteps_brackets :
  forallb (fun c => forallb (noMoreOf c) commentSteps) brackets = true.
Proof. vm_compute. reflexivity. Qed.

Lemma bracket_not_nl c : c ∈ brackets -> count c [nl] = 0.
Proof.
  unfold brackets. rewrite !elem_of_cons, elem_of_nil.
  intros [->|[->|[->|[->|[->|[->|[]]]]]]]; reflexivity.
Qed.

(** The brackets of the output are those of the license and of the text
    left by the comment steps. *)
Lemma plain_brackets ordVars ordLits src pl c :
  c ∈ brackets ->
  exists out license rest,
    minified ordVars ordLits src pl false = Some out
    /\ src = license ++ rest
    /\ (extractLicense pl src).2 = rest
    /\ count c out = count c license + count c (rewrite commentSteps rest).
Proof.
  intros Hc. rewrite minified_plain. unfold uncommented.
  destruct (extractLicense_parts pl src)
    as (license & rest & Hs & Hrest & Hlic).
  eexists _, license, rest. split; [reflexivity|].
  split; [exact Hs|]. split; [exact Hrest|].
  rewrite Hrest, count_app.
  rewrite rewrite_keepsCount.
  2:{ pose proof compactSteps_brackets as H. rewrite forallb_forall in H.
      apply H, list_elem_of_In, Hc. }
  f_equal. destruct Hlic as [[-> ->]|[-> _]]; [reflexivity|].
  rewrite count_app, bracket_not_nl by exact Hc. lia.
Qed.

(** ** Lengths *)

Lemma harmless_step st s :
  harmless st = true ->
  Forall (fun c => count c s = 0) quotedOperators ->
  length (ReplaceAllString st.1 st.2 s) <= length s
  /\ Forall (fun c => count c (ReplaceAllString st.1 st.2 s) = 0)
            quotedOperators.
Proof.
  unfold harmless. intros H Hs. apply orb_true_iff in H as [H|H].
  - apply andb_true_iff in H as [Hlen Hops]. split.
    + rewrite <- !countIf_anyChar. apply step_noMoreIf. exact Hlen.
    + rewrite forallb_forall in Hops. rewrite Forall_forall in Hs.
      apply Forall_forall. intros c Hc.
      pose proof (step_noMoreIf _ st s (Hops c (proj1 (list_elem_of_In _ _) Hc))).
      specialize (Hs c Hc). unfold count in *. lia.
  - apply existsb_exists in H as (c & Hc & Hmin). apply Nat.leb_le in Hmin.
    rewrite ReplaceAllString_absent with (q := fun d => Ascii.eqb d c).
    + split; [lia|exact Hs].
    + exact Hmin.
    + rewrite Forall_forall in Hs. apply (Hs c), list_elem_of_In, Hc.
Qed.

Lemma harmless_steps steps :
  forallb harmless steps = true ->
  forall s,
    Forall (fun c => count c s = 0) quotedOperators ->
    length (rewrite steps s) <= length s.
Proof.
  unfold rewrite. induction steps as [|[re repl] steps IH]; intros H s Hs.
  - simpl. lia.
  - simpl in H. apply andb_true_iff in H as [H1 H2].
    destruct (harmless_step (re, repl) s H1 Hs) as [Hlen Hops].
    cbn [foldl]. etransitivity; [apply IH; assumption|exact Hlen].
Qed.

Lemma compactSteps_harmless : forallb harmless compactSteps = true.
Proof. vm_compute. reflexivity. Qed.

Lemma commentSteps_noLonger : forallb noLonger commentSteps = true.
Proof. vm_compute. reflexivity. Qed.

(** C8, as the specification states it, fails: a preserved license is
    followed by a line break that the input does not have, and a 27th
    declared name is renamed to a longer one. *)
Lemma size_reduction_counterexample :
  (contains (str "/*!*/") (str "/*") = true
   /\ exists out,
        minified inOrder inOrder (str "/*!*/") true false = Some out
        /\ length (str "/*!*/") < length out)
  /\ (contains manyDeclarations (str "  ") = true
      /\ exists out,
           minified inOrder inOrder manyDeclarations false true = Some out
           /\ length manyDeclarations < length out).
Proof.
  split; (split; [vm_compute; reflexivity|]).
  - eexists. split; [vm_compute; reflexivity|]. vm_compute. lia.
  - eexists. split; [vm_compute; reflexivity|]. vm_compute. lia.
Qed.

(** C8, amended. With shorten-vars disabled, for every input from which
    the removal of comments leaves none of the characters [+ * ? |], the
    output of [Minify] is at most as long as the input, plus the one line
    break written after the license when one is preserved; with both
    options disabled it is never longer than the input. *)
Theorem size_reduction (ordVars ordLits : RangeOrder) (src : buf) (pl : bool) :
  Forall (fun c => c ∉ uncommented pl src) quotedOperators ->
  exists out,
    minified ordVars ordLits src pl false = Some out
    /\ length out <= length src + licenseBreak pl src
    /\ (pl = false -> length out <= length src).
Proof.
  intros Hops. rewrite minified_plain. eexists. split; [reflexivity|].
  assert (Hlen : length (rewrite compactSteps (uncommented pl src))
                 <= length (extractLicense pl src).2).
  { etransitivity.
    - apply harmless_steps; [apply compactSteps_harmless|].
      eapply Forall_impl; [exact Hops|]. intros c. apply count_zero_iff.
    - unfold uncommented. apply rewrite_noLonger, commentSteps_noLonger. }
  rewrite length_app. unfold licenseBreak.
  destruct (extractLicense_parts pl src)
    as (license & rest & Hs & Hrest & Hlic).
  rewrite Hrest in Hlen.
  pose proof (f_equal length Hs) as Hsrc. rewrite length_app in Hsrc.
  destruct Hlic as [[E ->]|[E Hp]]; rewrite E.
  - cbn [length] in *. split; [lia|]. intros _. lia.
  - rewrite length_app. destruct license; cbn [length app] in *.
    + split; [lia|]. intros ->. discriminate.
    + split; [lia|]. intros ->. discriminate.
Qed.

Lemma size_reduction_witness :
  exists out,
    minified inOrder inOrder
      (str "/*! (c) */ function f ( a ) { return a - 1 ; } // done") true false
    = Some out
    /\ length out
       <= length (str "/*! (c) */ function f ( a ) { return a - 1 ; } // done")
          + licenseBreak true
              (str "/*! (c) */ function f ( a ) { return a - 1 ; } // done")
    /\ (true = false ->
        length out
        <= length (str "/*! (c) */ function f ( a ) { return a - 1 ; } // done")).
Proof.
  apply (size_reduction inOrder inOrder
           (str "/*! (c) */ function f ( a ) { return a - 1 ; } // done") true).
  repeat constructor; apply count_zero_iff; vm_compute; reflexivity.
Defined.

(** * The license comment *)

(** The first occurrence of a closing delimiter. *)
Lemma first_close t :
  contains t (str "*/") = true ->
  exists body rest,
    t = body ++ str "*/" ++ rest /\ contains body (str "*/") = false.
Proof.
  induction t as [|c t IH]; intros H.
  - discriminate.
  - destruct (prefixb (str "*/") (c :: t)) eqn:Hp.
    + apply prefixb_spec in Hp as (rest & ->). exists [], rest. auto.
    + cbn [contains] in H. rewrite Hp in H. cbn [orb] in H.
      destruct (IH H) as (body & rest & -> & Hb).
      exists (c :: body), rest. split; [reflexivity|].
      cbn [contains]. rewrite Hb, orb_false_r.
      destruct body as [|d body]; [|exact Hp].
      cbn [prefixb str String.list_ascii_of_string]. apply andb_false_r.
Qed.

Lemma not_close_here c body rest :
  contains (c :: body) (str "*/") = false ->
  prefixb (str "*/") (c :: body ++ str "*/" ++ rest) = false.
Proof.
  cbn [contains]. intros H. apply orb_false_iff in H as [H _].
  destruct body as [|d body]; [|exact H].
  cbn [prefixb str String.list_ascii_of_string app Ascii.eqb Bool.eqb andb].
  apply andb_false_r.
Qed.

(** The lazy repetition stops at the first closing delimiter. *)
Lemma starLazy_first_close {A} (k : option ascii -> buf -> option A) rest :
  (forall prev s, prefixb (str "*/") s = false -> k prev s = None) ->
  forall body prev a,
    contains body (str "*/") = false ->
    k (after prev body) (str "*/" ++ rest) = Some a ->
    starLazy anyChar k prev (body ++ str "*/" ++ rest) = Some a.
Proof.
  intros Hk. induction body as [|c body IH]; intros prev a Hb Ha.
  - cbn [app]. cbn [app str String.list_ascii_of_string] in *.
    cbn [starLazy]. rewrite after_nil in Ha. rewrite Ha. reflexivity.
  - cbn [app starLazy]. rewrite Hk by (apply not_close_here, Hb).
    cbn [anyChar]. apply IH.
    + cbn [contains] in Hb. apply orb_false_iff in Hb as [_ Hb]. exact Hb.
    + rewrite after_cons in Ha. exact Ha.
Qed.

(** The license pattern matches a marked comment up to its closing
    delimiter. *)
Lemma exec_license body rest :
  contains body (str "*/") = false ->
  exec licenseRe None (str "/*!" ++ body ++ str "*/" ++ rest)
  = Some (length (str "/*!" ++ body ++ str "*/"), []).
Proof.
  intros Hb. unfold exec, licenseRe.
  cbn [Lit str String.list_ascii_of_string app run ngroups Nat.add replicate].
  rewrite !Ascii.eqb_refl.
  erewrite (starLazy_first_close _ rest); [reflexivity| |exact Hb|].
  - intros prev [|d [|e s]] H; cbn [run] in *; try reflexivity.
    + destruct (Ascii.eqb "*" d); reflexivity.
    + cbn [prefixb str String.list_ascii_of_string] in H.
      destruct (Ascii.eqb "*" d); [|reflexivity].
      destruct (Ascii.eqb "/" e); [discriminate|reflexivity].
  - cbn [app str String.list_ascii_of_string run].
    rewrite !Ascii.eqb_refl.
    do 2 f_equal. cbn [length]. rewrite !length_app. cbn [length]. lia.
Qed.

Lemma extractLicense_marked body rest :
  contains body (str "*/") = false ->
  extractLicense true (str "/*!" ++ body ++ str "*/" ++ rest)
  = (str "/*!" ++ body ++ str "*/" ++ [nl], rest).
Proof.
  intros Hb.
  destruct (extractLicense_spec true (str "/*!" ++ body ++ str "*/" ++ rest))
    as [E|(license & rest' & caps & _ & Hne & Hs & Hexec & E)].
  - exfalso. unfold extractLicense, FindString in E.
    cbn [app str String.list_ascii_of_string find] in E.
    pose proof (exec_license body rest Hb) as X.
    cbn [app str String.list_ascii_of_string] in X. rewrite X in E.
    discriminate.
  - rewrite E. rewrite exec_license in Hexec by exact Hb.
    inversion Hexec as [Hlen].
    assert (Hs' : (str "/*!" ++ body ++ str "*/") ++ rest = license ++ rest')
      by (rewrite <- Hs, <- !app_assoc; reflexivity).
    apply app_inj_1 in Hs' as [<- <-]; [|exact Hlen].
    rewrite <- !app_assoc. reflexivity.
Qed.

(** * The usage pass *)

Lemma word_not_dollar c : isWord c = true -> Ascii.eqb c "$" = false.
Proof.
  intros H. destruct (Ascii.eqb c "$") eqn:E; [|reflexivity].
  apply Ascii.eqb_eq in E. subst c. discriminate.
Qed.

Lemma compileIdent_word o :
  forallb isWord o = true -> compileIdent o = Some (Lit o).
Proof.
  induction o as [|c o IH]; simpl; intros H; [reflexivity|].
  apply andb_true_iff in H as [Hc Ho].
  rewrite (IH Ho), (word_not_dollar _ Hc), Hc. reflexivity.
Qed.

Lemma Lit_inv o :
  forall prev m rest caps caps',
    Matches (Lit o) prev m rest caps caps' -> m = o /\ caps' = caps.
Proof.
  induction o as [|c o IH]; simpl; intros prev m rest caps caps' M.
  - invM. auto.
  - inversion M; subst. invM.
    match goal with H : Matches (Lit o) _ _ _ _ _ |- _ =>
      apply IH in H as [-> ->] end.
    auto.
Qed.

Lemma run_Lit {A} o :
  forall caps prev rest (k : list buf -> option ascii -> buf -> option A),
    run (Lit o) caps prev (o ++ rest) k = k caps (after prev o) rest.
Proof.
  induction o as [|c o IH]; intros caps prev rest k; simpl.
  - reflexivity.
  - rewrite Ascii.eqb_refl, IH, after_cons. reflexivity.
Qed.

Lemma ngroups_Lit o : ngroups (Lit o) = 0.
Proof. induction o as [|c o IH]; simpl; [reflexivity|exact IH]. Qed.

Lemma wordAfter_app_word o rest :
  o <> [] -> forallb isWord o = true -> wordAfter (o ++ rest) = true.
Proof.
  destruct o as [|c o]; [congruence|]. simpl. intros _ H.
  apply andb_true_iff in H as [H _]. exact H.
Qed.

Lemma wordBefore_after_word prev o :
  o <> [] -> forallb isWord o = true -> wordBefore (after prev o) = true.
Proof.
  intros Hne Ho. unfold after.
  destruct (last o) as [c|] eqn:E.
  - simpl. rewrite forallb_forall in Ho.
    apply Ho, list_elem_of_In. apply last_Some in E as (l' & ->).
    apply elem_of_app. right. apply list_elem_of_here.
  - apply last_None in E. contradiction.
Qed.

Section Usage.
Variables (o short : buf).
Hypothesis o_nonempty : o <> [].
Hypothesis o_word : forallb isWord o = true.

Let re : regex := Seq WordBoundary (Seq (Lit o) WordBoundary).

Lemma usageRe_word : tooLarge o = false -> usageRe o = Some re.
Proof.
  intros Hl. unfold usageRe.
  rewrite compileIdent_word by exact o_word. rewrite Hl. reflexivity.
Qed.

(** The pattern of an entry matches exactly the whole words equal to its
    identifier. *)
Lemma usage_exec_sound prev s n caps :
  exec re prev s = Some (n, caps) ->
  wordBefore prev = false
  /\ exists rest, s = o ++ rest /\ wordAfter rest = false /\ n = length o.
Proof.
  intros E. destruct (exec_sound _ _ _ _ _ E) as (m & rest & -> & -> & M).
  unfold re in M. inversion M as [| | | |? ? ? ? ? ? ? ? ? M1 M2| | | | | |];
    subst.
  inversion M1; subst.
  inversion M2 as [| | | |? ? ? ? ? ? ? ? ? M3 M4| | | | | |]; subst.
  apply Lit_inv in M3 as [-> ->]. inversion M4; subst.
  rewrite app_nil_r in *. cbn [app] in *.
  match goal with
  | H1 : xorb (wordBefore prev) (wordAfter _) = true,
    H2 : xorb (wordBefore (after _ o)) (wordAfter rest) = true |- _ =>
      rewrite wordAfter_app_word in H1 by assumption;
      rewrite wordBefore_after_word in H2 by assumption;
      destruct (wordBefore prev); [discriminate|];
      destruct (wordAfter rest) eqn:Hr; [discriminate|]
  end.
  split; [reflexivity|]. exists rest. auto.
Qed.

Lemma usage_exec_complete prev rest :
  wordBefore prev = false -> wordAfter rest = false ->
  exec re prev (o ++ rest) = Some (length o, []).
Proof.
  intros Hp Hr. unfold exec, re. cbn [run ngroups].
  rewrite Hp, wordAfter_app_word by assumption. cbn [xorb].
  rewrite run_Lit. cbn [run].
  rewrite wordBefore_after_word, Hr by assumption. cbn [xorb].
  rewrite ngroups_Lit, length_app, Nat.add_sub. reflexivity.
Qed.

Lemma usage_exec_none prev s :
  (wordBefore prev = true
   \/ forall rest, s = o ++ rest -> wordAfter rest = true) ->
  exec re prev s = None.
Proof.
  intros H. destruct (exec re prev s) as [[n caps]|] eqn:E; [|reflexivity].
  apply usage_exec_sound in E as (Hp & rest & -> & Hr & _).
  destruct H as [H|H]; [congruence|].
  specialize (H rest eq_refl). congruence.
Qed.
End Usage.

Lemma scan_skip r w :
  forall s prev adj,
    w <> [] -> scan r prev adj (length w) (w ++ s) = scan r (after prev w) true 0 s.
Proof.
  induction w as [|c w IH]; intros s prev adj Hne; [congruence|].
  cbn [length app scan]. rewrite after_cons.
  destruct w as [|d w]; [reflexivity|].
  apply IH. discriminate.
Qed.

Lemma word_prefix_unique w :
  forall o s rest,
    forallb isWord w = true -> forallb isWord o = true ->
    wordAfter s = false -> wordAfter rest = false ->
    w ++ s = o ++ rest -> w = o.
Proof.
  induction w as [|c w IH]; intros [|d o] s rest Hw Ho Hs Hr E;
    cbn [forallb app] in *.
  - reflexivity.
  - subst s. cbn [wordAfter] in Hs.
    apply andb_true_iff in Ho as [Hd _]. rewrite Hd in Hs. discriminate.
  - subst rest. cbn [wordAfter] in Hr.
    apply andb_true_iff in Hw as [Hc _]. rewrite Hc in Hr. discriminate.
  - inversion E; subst. apply andb_true_iff in Hw as [_ Hw].
    apply andb_true_iff in Ho as [_ Ho]. f_equal.
    apply (IH o s rest); assumption.
Qed.

Lemma wordAfter_flatten ts :
  canonical ts = true -> startsWithWord ts = false ->
  wordAfter (flatten ts) = false.
Proof.
  destruct ts as [|[w|c] ts]; simpl; intros Hc Hs; try reflexivity.
  - discriminate.
  - apply andb_true_iff in Hc as [Hc _]. apply negb_true_iff in Hc. exact Hc.
Qed.

Lemma scan_hit r o :
  forall s prev adj caps,
    o <> [] ->
    exec r prev (o ++ s) = Some (length o, caps) ->
    scan r prev adj 0 (o ++ s) = Hit o caps :: scan r (after prev o) true 0 s.
Proof.
  destruct o as [|c o]; intros s prev adj caps Hne E; [congruence|].
  cbn [app length] in *. cbn [scan]. rewrite E. cbn [take].
  rewrite take_app_length, after_cons. f_equal.
  destruct o as [|d o]; [reflexivity|].
  apply scan_skip. discriminate.
Qed.

Lemma nil_not_app (o rest : buf) : o <> [] -> [] <> o ++ rest.
Proof. destruct o; [congruence|discriminate]. Qed.

Lemma length_nonempty (o : buf) : o <> [] -> 0 <> length o.
Proof. destruct o; [congruence|discriminate]. Qed.

Lemma head_of_word c s o rest :
  o <> [] -> forallb isWord o = true -> c :: s = o ++ rest -> isWord c = true.
Proof.
  destruct o as [|d o]; [congruence|]. cbn [forallb app].
  intros _ H E. inversion E; subst. apply andb_true_iff in H as [H _]. exact H.
Qed.

Section UsageScan.
Variables (o short : buf).
Hypothesis o_nonempty : o <> [].
Hypothesis o_word : forallb isWord o = true.

Let re : regex := Seq WordBoundary (Seq (Lit o) WordBoundary).

(** The text written by the scan. *)
Let out (prev : option ascii) (adj : bool) (k : nat) (s : buf) : buf :=
  concat (map (subst (fun _ => short)) (scan re prev adj k s)).

(** The pattern has no empty match, so it does not matter whether a match
    ended at the current position. *)
Lemma usage_adj prev adj s : out prev adj 0 s = out prev false 0 s.
Proof.
  unfold out. destruct s as [|c s]; cbn [scan].
  - rewrite (usage_exec_none o o_nonempty o_word); [reflexivity|].
    right. intros rest E. destruct (nil_not_app o rest o_nonempty E).
  - destruct (exec re prev (c :: s)) as [[[|n] caps]|] eqn:E; try reflexivity.
    apply (usage_exec_sound o o_nonempty o_word) in E as (_ & rest & _ & _ & Hn).
    destruct (length_nonempty o o_nonempty Hn).
Qed.

(** A word that the pattern does not match is copied. *)
Lemma keep_word w :
  forall prev s,
    forallb isWord w = true -> wordAfter s = false ->
    wordBefore prev = true \/ w <> o ->
    out prev false 0 (w ++ s) = w ++ out (after prev w) false 0 s.
Proof.
  induction w as [|c w IH]; intros prev s Hw Hs H; [reflexivity|].
  cbn [app]. unfold out at 1. cbn [scan].
  rewrite (usage_exec_none o o_nonempty o_word).
  - cbn [map concat subst app]. f_equal. rewrite after_cons.
    apply andb_true_iff in Hw as [Hc Hw].
    apply IH; [exact Hw|exact Hs|left; exact Hc].
  - destruct H as [H|H]; [left; exact H|]. right. intros rest E.
    destruct (wordAfter rest) eqn:Hr; [reflexivity|]. exfalso. apply H.
    apply (word_prefix_unique (c :: w) o s rest);
      [exact Hw|exact o_word|exact Hs|exact Hr|exact E].
Qed.

(** A word that the pattern matches is replaced. *)
Lemma replace_word prev s :
  wordBefore prev = false -> wordAfter s = false ->
  out prev false 0 (o ++ s) = short ++ out (after prev o) false 0 s.
Proof.
  intros Hp Hs. unfold out at 1.
  pose proof (usage_exec_complete o o_nonempty o_word prev s Hp Hs) as E.
  fold re in E. rewrite (scan_hit re o s prev false [] o_nonempty E).
  cbn [map concat subst]. f_equal. apply usage_adj.
Qed.

(** On a text seen as its words, the scan renames the words equal to the
    identifier and copies everything else. *)
Lemma scan_tokens ts :
  forall prev,
    canonical ts = true ->
    (startsWithWord ts = true -> wordBefore prev = false) ->
    out prev false 0 (flatten ts)
    = flatten (map (renameToken (o, short)) ts).
Proof.
  induction ts as [|[w|c] ts IH]; intros prev Hc Hp.
  - unfold out, flatten. cbn [map concat scan].
    rewrite (usage_exec_none o o_nonempty o_word); [reflexivity|].
    right. intros rest E. destruct (nil_not_app o rest o_nonempty E).
  - cbn [canonical] in Hc. apply andb_true_iff in Hc as [Hc Hts].
    apply andb_true_iff in Hc as [Hc Hnw].
    apply andb_true_iff in Hc as [Hne Hw].
    apply negb_true_iff in Hnw.
    apply negb_true_iff, bool_decide_eq_false in Hne.
    pose proof (wordAfter_flatten ts Hts Hnw) as Hafter.
    specialize (Hp eq_refl).
    change (flatten (W w :: ts)) with (w ++ flatten ts).
    change (flatten (map (renameToken (o, short)) (W w :: ts)))
      with (renameWord (o, short) w ++ flatten (map (renameToken (o, short)) ts)).
    unfold renameWord. cbn [fst snd]. case_bool_decide as Hwo.
    + subst w. rewrite replace_word by assumption. f_equal.
      apply IH; [exact Hts|]. rewrite Hnw. discriminate.
    + rewrite keep_word by auto. f_equal.
      apply IH; [exact Hts|]. rewrite Hnw. discriminate.
  - cbn [canonical] in Hc. apply andb_true_iff in Hc as [Hc Hts].
    apply negb_true_iff in Hc.
    change (flatten (C c :: ts)) with (c :: flatten ts).
    change (flatten (map (renameToken (o, short)) (C c :: ts)))
      with (c :: flatten (map (renameToken (o, short)) ts)).
    unfold out at 1. cbn [scan].
    rewrite (usage_exec_none o o_nonempty o_word).
    + cbn [map concat subst app]. f_equal. apply IH; [exact Hts|].
      intros _. simpl. exact Hc.
    + right. intros rest E.
      pose proof (head_of_word c _ o rest o_nonempty o_word E) as Hw.
      rewrite Hw in Hc. discriminate.
Qed.

Lemma usage_flatten ts :
  canonical ts = true ->
  ReplaceAllString re short (flatten ts)
  = flatten (map (renameToken (o, short)) ts).
Proof.
  intros Hc. apply (scan_tokens ts None Hc). reflexivity.
Qed.
End UsageScan.

(** ** A text and its words *)

Lemma tokenize_flatten s : flatten (tokenize s) = s.
Proof.
  induction s as [|c s IH]; [reflexivity|]. cbn [tokenize].
  destruct (isWord c).
  - destruct (tokenize s) as [|[w|d] ts]; unfold flatten in *;
      cbn [map concat flattenToken app] in *; rewrite <- IH; reflexivity.
  - unfold flatten in *. cbn [map concat flattenToken app]. rewrite IH.
    reflexivity.
Qed.

Lemma tokenize_canonical s : canonical (tokenize s) = true.
Proof.
  induction s as [|c s IH]; [reflexivity|]. cbn [tokenize].
  destruct (isWord c) eqn:Hc.
  - destruct (tokenize s) as [|[w|d] ts]; cbn [canonical forallb] in *.
    + rewrite Hc. reflexivity.
    + rewrite Hc. apply andb_true_iff in IH as [IH1 IH2].
      apply andb_true_iff in IH1 as [IH1 IH3].
      apply andb_true_iff in IH1 as [_ IH1].
      rewrite IH1, IH2, IH3. reflexivity.
    + rewrite Hc, IH. reflexivity.
  - cbn [canonical]. rewrite Hc, IH. reflexivity.
Qed.

Lemma rename_startsWithWord e ts :
  startsWithWord (map (renameToken e) ts) = startsWithWord ts.
Proof. destruct ts as [|[w|c] ts]; reflexivity. Qed.

Lemma rename_canonical e ts :
  e.2 <> [] -> forallb isWord e.2 = true ->
  canonical ts = true -> canonical (map (renameToken e) ts) = true.
Proof.
  intros Hne Hw. induction ts as [|[w|c] ts IH]; intros H; [reflexivity| |].
  - cbn [map renameToken canonical] in *.
    apply andb_true_iff in H as [H Hts].
    apply andb_true_iff in H as [H Hnw].
    apply andb_true_iff in H as [Hw0 Hw1].
    rewrite rename_startsWithWord, Hnw, (IH Hts).
    unfold renameWord. destruct (bool_decide (w = e.1)).
    + rewrite Hw. rewrite bool_decide_eq_false_2 by exact Hne. reflexivity.
    + rewrite Hw0, Hw1. reflexivity.
  - cbn [map renameToken canonical] in *.
    apply andb_true_iff in H as [Hc Hts]. rewrite Hc, (IH Hts). reflexivity.
Qed.

(** ** Identifiers with a dollar *)

(** What the pattern of an identifier matches: the characters before its
    first dollar, which are word characters, when only dollars follow
    them; and after a dollar the text is at its end. *)
Lemma compileIdent_inv o :
  forall r prev m rest caps caps',
    compileIdent o = Some r ->
    Matches r prev m rest caps caps' ->
    exists d,
      o = m ++ d /\ forallb isWord m = true
      /\ Forall (fun c => c = "$"%char) d
      /\ (d <> [] -> rest = []).
Proof.
  induction o as [|c o IH]; intros r prev m rest caps caps' Hr M;
    cbn [compileIdent] in Hr.
  - inversion Hr; subst. invM. exists [].
    split; [reflexivity|]. split; [reflexivity|].
    split; [constructor|congruence].
  - destruct (compileIdent o) as [r'|] eqn:Ho; [|discriminate].
    destruct (Ascii.eqb c "$") eqn:Ec.
    + apply Ascii.eqb_eq in Ec. subst c.
      inversion Hr; subst r. invM.
      match goal with H : [] = _ ++ _ |- _ =>
        symmetry in H; apply app_eq_nil in H as [-> ->] end.
      match goal with H : Matches r' _ [] [] _ _ |- _ =>
        destruct (IH _ _ _ _ _ _ eq_refl H) as (d & E & _ & Hd & _) end.
      cbn [app] in *. subst o. exists ("$"%char :: d).
      split; [reflexivity|]. split; [reflexivity|].
      split; [constructor; auto|reflexivity].
    + destruct (isWord c) eqn:Hc; [|discriminate].
      inversion Hr; subst r. invM.
      match goal with H : Matches r' _ _ _ _ _ |- _ =>
        destruct (IH _ _ _ _ _ _ eq_refl H) as (d & E & Hm & Hd & Hrest) end.
      subst o. exists d. cbn [app forallb]. rewrite Hc, Hm. auto.
Qed.

(** The pattern of an identifier that holds a dollar and ends with a word
    character matches nowhere. *)
Lemma usage_inert o re short s :
  "$"%char ∈ o -> wordBefore (last o) = true ->
  usageRe o = Some re ->
  ReplaceAllString re short s = s.
Proof.
  intros Hd Hw Hre. unfold usageRe in Hre.
  destruct (compileIdent o) as [r|] eqn:Hr; [|discriminate].
  destruct (tooLarge o); [discriminate|]. inversion Hre; subst re.
  apply ReplaceAllString_no_match.
  intros pre m post prev rest caps caps' _ M.
  inversion M as [| | | |? ? ? ? ? ? ? ? ? M1 M2| | | | | |]; subst.
  inversion M1; subst.
  inversion M2 as [| | | |? ? ? ? ? ? ? ? ? M3 M4| | | | | |]; subst.
  destruct (compileIdent_inv o _ _ _ _ _ _ Hr M3) as (d & E & Hm & Hall & _).
  destruct d as [|x d _] using rev_ind.
  - rewrite app_nil_r in E. subst o.
    rewrite forallb_forall in Hm.
    apply list_elem_of_In, Hm in Hd. discriminate.
  - rewrite E, app_assoc, last_snoc in Hw.
    apply Forall_app in Hall as [_ Hall].
    apply Forall_cons in Hall as [-> _]. discriminate.
Qed.

(** An identifier without dollar is a word. *)
Lemma ident_word o :
  forallb isIdentChar o = true -> "$"%char ∉ o -> forallb isWord o = true.
Proof.
  intros Ho Hd. apply forallb_forall. intros c Hc.
  rewrite forallb_forall in Ho. specialize (Ho c Hc).
  apply list_elem_of_In in Hc.
  destruct (Ascii.eqb c "$") eqn:E.
  - apply Ascii.eqb_eq in E. subst c. contradiction.
  - unfold isIdentChar in Ho. unfold isWord. rewrite E in Ho.
    destruct (isLower c), (isUpper c), (isDigit c), (Ascii.eqb c "_");
      cbn in *; congruence.
Qed.

Lemma last_nonempty (o : buf) : wordBefore (last o) = true -> o <> [].
Proof. destruct o; [discriminate|discriminate]. Qed.

(** A word is not an identifier with a dollar. *)
Lemma rename_inert e ts :
  "$"%char ∈ e.1 -> canonical ts = true -> map (renameToken e) ts = ts.
Proof.
  intros Hd. induction ts as [|[w|c] ts IH]; intros H; [reflexivity| |].
  - cbn [canonical] in H. apply andb_true_iff in H as [H Hts].
    apply andb_true_iff in H as [H _]. apply andb_true_iff in H as [_ Hw].
    cbn [map renameToken]. rewrite (IH Hts). f_equal. f_equal.
    unfold renameWord. case_bool_decide as E; [|reflexivity].
    subst w. rewrite forallb_forall in Hw.
    apply list_elem_of_In, Hw in Hd. discriminate.
  - cbn [canonical] in H. apply andb_true_iff in H as [_ Hts].
    cbn [map renameToken]. rewrite (IH Hts). reflexivity.
Qed.

(** The usage pass, on the words of the text. *)
Lemma replaceUsages_tokens entries :
  Forall (fun e : buf * buf =>
            forallb isIdentChar e.1 = true
            /\ wordBefore (last e.1) = true
            /\ tooLarge e.1 = false
            /\ e.2 <> [] /\ forallb isWord e.2 = true) entries ->
  forall ts,
    canonical ts = true ->
    replaceUsages entries (flatten ts)
    = Some (flatten (foldl (fun ts e => map (renameToken e) ts) ts entries)).
Proof.
  induction 1 as [|[o short] entries (Ho1 & Ho2 & Ho3 & Hs1 & Hs2) _ IH];
    intros ts Hts; cbn [replaceUsages foldl].
  - reflexivity.
  - cbn [fst snd] in *.
    destruct (decide ("$"%char ∈ o)) as [Hd|Hd].
    + destruct (isIdentChar_compiles o) as (r & Hr).
      { apply Forall_forall. intros c Hc. rewrite forallb_forall in Ho1.
        apply Ho1, list_elem_of_In, Hc. }
      assert (Hre : usageRe o = Some (Seq WordBoundary (Seq r WordBoundary))).
      { unfold usageRe. rewrite Hr, Ho3. reflexivity. }
      rewrite Hre, (usage_inert o _ short _ Hd Ho2 Hre).
      rewrite (rename_inert (o, short) ts Hd Hts). apply IH, Hts.
    + pose proof (ident_word o Ho1 Hd) as Hw.
      pose proof (last_nonempty o Ho2) as Hne.
      rewrite (usageRe_word o Hw Ho3).
      rewrite (usage_flatten o short Hne Hw ts Hts).
      apply IH. apply rename_canonical; assumption.
Qed.

(** Two entries commute when neither short name is the other's
    identifier. *)
Lemma renameWord_comm e1 e2 w :
  e1 = e2 \/ (e1.1 <> e2.1 /\ e1.2 <> e2.1 /\ e2.2 <> e1.1) ->
  renameWord e1 (renameWord e2 w) = renameWord e2 (renameWord e1 w).
Proof.
  intros [->|(H1 & H2 & H3)]; [reflexivity|].
  unfold renameWord. repeat case_bool_decide; congruence.
Qed.

Lemma renameToken_comm e1 e2 ts :
  e1 = e2 \/ (e1.1 <> e2.1 /\ e1.2 <> e2.1 /\ e2.2 <> e1.1) ->
  map (renameToken e1) (map (renameToken e2) ts)
  = map (renameToken e2) (map (renameToken e1) ts).
Proof.
  intros H. rewrite !map_map. apply map_ext. intros [w|c]; [|reflexivity].
  cbn [renameToken]. f_equal. apply renameWord_comm, H.
Qed.

(** A left fold over steps that commute does not depend on their order. *)
Lemma foldl_commute_perm {A B} (f : A -> B -> A) (l1 l2 : list B) :
  l1 ≡ₚ l2 ->
  (forall x y a, x ∈ l1 -> y ∈ l1 -> f (f a x) y = f (f a y) x) ->
  forall a, foldl f a l1 = foldl f a l2.
Proof.
  induction 1 as [|x l l' Hp IH|x y l|l l' l'' Hp1 IH1 Hp2 IH2];
    intros Hc a; cbn [foldl].
  - reflexivity.
  - apply IH. intros x' y' a' Hx Hy. apply Hc; apply elem_of_cons; auto.
  - f_equal. apply Hc; (apply elem_of_cons; auto).
    apply elem_of_cons. right. apply elem_of_cons. auto.
  - rewrite IH1 by exact Hc. apply IH2.
    intros x y a' Hx Hy. apply Hc; rewrite Hp1; assumption.
Qed.

Lemma map_entries_commute (vm : gmap buf buf) e1 e2 :
  noCapture vm ->
  e1 ∈ map_to_list vm -> e2 ∈ map_to_list vm ->
  e1 = e2 \/ (e1.1 <> e2.1 /\ e1.2 <> e2.1 /\ e2.2 <> e1.1).
Proof.
  intros Hnc H1 H2. destruct e1 as [o1 s1], e2 as [o2 s2].
  apply elem_of_map_to_list in H1, H2. cbn [fst snd].
  destruct (decide (o1 = o2)) as [->|Hne].
  - left. congruence.
  - right. split; [exact Hne|]. split.
    + apply (Hnc o1 s1 o2 s2); assumption.
    + apply (Hnc o2 s2 o1 s1); auto.
Qed.


(** The closure of the declaration scan keeps the table of the form
    [scanTable]. *)
Lemma declare_scanTable k m s :
  declInv (S k) m /\ scanTable (varMap m) ->
  exists m' new,
    declare m s = Some (m', new) /\ declInv k m' /\ scanTable (varMap m').
Proof.
  intros [Hinv Htab].
  destruct (declare_step k m s Hinv) as (m' & new & E & Hinv').
  exists m', new. split; [exact E|]. split; [exact Hinv'|].
  destruct (declare_name m s)
    as [E'|(kw & c & id & pre & post & Hkw & Hname & Hsplit & Hid & Hword
            & [(short & L & E')|(L & E')])].
  - rewrite E' in E. inversion E; subst. exact Htab.
  - rewrite E' in E. inversion E; subst. exact Htab.
  - destruct Hinv as (H0 & _ & _). rewrite (E' H0) in E.
    inversion E; subst m' new.
    cbn [varMap setVarMap setVarCounter].
    apply map_Forall_insert_2; [|exact Htab].
    split; [exact Hid|]. split.
    { rewrite <- after_cons with (prev := None) in Hword.
      unfold after in Hword.
      destruct (last (c :: id)) as [x|]; [exact Hword|discriminate]. }
    split; [unfold specName; discriminate|].
    apply forallb_forall. intros x Hx.
    pose proof (specName_chars _ H0) as Hn. rewrite Forall_forall in Hn.
    apply nameChar_word, Hn, list_elem_of_In, Hx.
Qed.


Lemma scanTable_entries (vm : gmap buf buf) :
  Forall (fun e : buf * buf =>
            forallb isIdentChar e.1 = true
            /\ wordBefore (last e.1) = true
            /\ e.2 <> [] /\ forallb isWord e.2 = true) (map_to_list vm) ->
  scanTable vm.
Proof.
  intros H. apply map_Forall_to_list.
  eapply Forall_impl; [exact H|]. intros [o s] Hos. exact Hos.
Qed.

Lemma compiles_entries (vm : gmap buf buf) :
  forallb (fun e : buf * buf => negb (tooLarge e.1)) (map_to_list vm) = true ->
  compiles vm.
Proof.
  intros H. apply map_Forall_to_list. apply Forall_forall.
  intros [o s] Hos. rewrite forallb_forall in H.
  apply list_elem_of_In, H in Hos. apply negb_true_iff in Hos. exact Hos.
Qed.

Lemma noCapture_entries (vm : gmap buf buf) :
  Forall (fun e1 : buf * buf =>
            Forall (fun e2 : buf * buf => e1.1 <> e2.1 -> e1.2 <> e2.1)
                   (map_to_list vm)) (map_to_list vm) ->
  noCapture vm.
Proof.
  intros H o1 s1 o2 s2 H1 H2 Hne.
  apply elem_of_map_to_list in H1, H2.
  rewrite Forall_forall in H. specialize (H _ H1).
  rewrite Forall_forall in H. apply (H _ H2 Hne).
Qed.


(** * Placeholders *)

Lemma placeholder_unfold j :
  placeholder j
  = ["_"; "_"; "S"; "T"; "R"; "_"]%char
      ++ itoa (Z.of_nat j) ++ ["_"; "_"]%char.
Proof. reflexivity. Qed.

Lemma placeholder_inj i j : placeholder i = placeholder j -> i = j.
Proof.
  rewrite !placeholder_unfold. intros H.
  apply app_inv_head, app_inv_tail, itoa_inj in H. lia.
Qed.

Lemma itoa_nat_digits j :
  exists c d,
    itoa (Z.of_nat j) = c :: d /\ isDigit c = true
    /\ Forall (fun c => isDigit c = true) d.
Proof.
  destruct (itoa_digits (Z.of_nat j)) as [Hne Hd]; [lia|].
  destruct (itoa (Z.of_nat j)) as [|c d]; [congruence|].
  apply Forall_cons in Hd as [Hc Hd]. eauto.
Qed.

Lemma digit_not_underscore c : isDigit c = true -> Ascii.eqb "_" c = false.
Proof.
  intros H.
  pose proof (char_enum
    (fun c => implb (isDigit c) (negb (Ascii.eqb "_" c))) eq_refl c) as E.
  simpl in E. rewrite H in E. apply negb_true_iff. exact E.
Qed.

Lemma digit_not_underscore' c : isDigit c = true -> Ascii.eqb c "_" = false.
Proof. intros H. rewrite Ascii.eqb_sym. apply digit_not_underscore, H. Qed.

Lemma plain_not_underscore c : plainChar c = true -> Ascii.eqb "_" c = false.
Proof.
  unfold plainChar. intros H. apply andb_true_iff in H as [H _].
  apply negb_true_iff in H. rewrite Ascii.eqb_sym. exact H.
Qed.

Lemma placeholder_word j : forallb isWord (placeholder j) = true.
Proof.
  rewrite placeholder_unfold, !forallb_app.
  destruct (itoa_digits (Z.of_nat j)) as [_ Hd]; [lia|].
  assert (forallb isWord (itoa (Z.of_nat j)) = true) as ->.
  { apply forallb_forall. intros c Hc. rewrite Forall_forall in Hd.
    apply digit_word, Hd, list_elem_of_In, Hc. }
  reflexivity.
Qed.

(** A placeholder does not start at a character other than the
    underscore. *)
Lemma no_placeholder_at c j s :
  Ascii.eqb "_" c = false -> prefixb (placeholder j) (c :: s) = false.
Proof.
  intros H. rewrite placeholder_unfold. cbn [app prefixb]. rewrite H.
  reflexivity.
Qed.

(** Two runs of digits that end at an underscore and start at the same
    place are the same. *)
Lemma digits_prefix d1 :
  forall d2 x y,
    Forall (fun c => isDigit c = true) d1 ->
    Forall (fun c => isDigit c = true) d2 ->
    prefixb (d1 ++ "_"%char :: x) (d2 ++ "_"%char :: y) = true -> d1 = d2.
Proof.
  induction d1 as [|c1 d1 IH]; intros [|c2 d2] x y H1 H2 H;
    cbn [app prefixb] in H.
  - reflexivity.
  - apply Forall_cons in H2 as [H2 _].
    rewrite (digit_not_underscore _ H2) in H. discriminate.
  - apply Forall_cons in H1 as [H1 _].
    rewrite Ascii.eqb_sym, (digit_not_underscore _ H1) in H. discriminate.
  - apply andb_true_iff in H as [E H]. apply Ascii.eqb_eq in E. subst c2.
    apply Forall_cons in H1 as [_ H1]. apply Forall_cons in H2 as [_ H2].
    f_equal. eapply IH; eassumption.
Qed.

Lemma placeholder_prefix i j s :
  prefixb (placeholder j) (placeholder i ++ s) = true -> i = j.
Proof.
  rewrite !placeholder_unfold, <- !app_assoc. cbn [app prefixb].
  rewrite !Ascii.eqb_refl. cbn [andb]. intros H.
  destruct (itoa_digits (Z.of_nat i)) as [_ Hi]; [lia|].
  destruct (itoa_digits (Z.of_nat j)) as [_ Hj]; [lia|].
  apply digits_prefix in H; [|assumption..].
  apply itoa_inj in H. lia.
Qed.

(** ** Texts without placeholder *)

Lemma placeholder_chars j : forallb isPlaceholderChar (placeholder j) = true.
Proof.
  rewrite placeholder_unfold, !forallb_app.
  destruct (itoa_digits (Z.of_nat j)) as [_ Hd]; [lia|].
  assert (forallb isPlaceholderChar (itoa (Z.of_nat j)) = true) as ->.
  { apply forallb_forall. intros c Hc. rewrite Forall_forall in Hd.
    unfold isPlaceholderChar. rewrite (Hd c) by apply list_elem_of_In, Hc.
    reflexivity. }
  reflexivity.
Qed.

Lemma not_placeholder_char c j :
  isPlaceholderChar c = false -> c ∉ placeholder j.
Proof.
  intros Hc Hin. pose proof (placeholder_chars j) as H.
  rewrite forallb_forall in H. apply list_elem_of_In, H in Hin. congruence.
Qed.

Lemma contains_left a b p : contains a p = true -> contains (a ++ b) p = true.
Proof.
  intros H. apply contains_spec in H as (pre & post & ->).
  apply contains_spec. exists pre, (post ++ b).
  rewrite <- !app_assoc. reflexivity.
Qed.

Lemma contains_right a b p : contains b p = true -> contains (a ++ b) p = true.
Proof.
  intros H. apply contains_spec in H as (pre & post & ->).
  apply contains_spec. exists (a ++ pre), post.
  rewrite <- !app_assoc. reflexivity.
Qed.

Lemma contains_app_l a b p : contains (a ++ b) p = false -> contains a p = false.
Proof.
  intros H. destruct (contains a p) eqn:E; [|reflexivity].
  apply (contains_left a b) in E. congruence.
Qed.

Lemma contains_cons_false c s p : contains (c :: s) p = false -> contains s p = false.
Proof. apply (contains_false_app [c]). Qed.

(** An occurrence of a text does not span a character that the text does
    not have. *)
Lemma contains_barrier x c y p :
  c ∉ p -> contains (x ++ c :: y) p = true ->
  contains x p = true \/ contains y p = true.
Proof.
  intros Hc H. apply contains_spec in H as (pre & post & E).
  apply app_eq_app in E as (l & [[E1 E2]|[E1 E2]]).
  - apply app_eq_app in E2 as (l2 & [[E3 E4]|[E3 E4]]).
    + destruct l2 as [|d l2].
      * left. apply contains_spec. exists pre, [].
        rewrite E1, E3, !app_nil_r. reflexivity.
      * inversion E4; subst. exfalso. apply Hc.
        apply elem_of_app. right. left.
    + left. apply contains_spec. exists pre, l2.
      rewrite E1, E3. reflexivity.
  - destruct l as [|d l].
    + cbn [app] in E2. destruct p as [|d p].
      * left. apply contains_spec. exists x, []. rewrite app_nil_r.
        reflexivity.
      * inversion E2; subst. exfalso. apply Hc. left.
    + inversion E2; subst. right. apply contains_spec. eauto.
Qed.

(** An occurrence does not start at a character other than its first. *)
Lemma contains_drop_front d y h t :
  Forall (fun c => c <> h) d ->
  contains (d ++ y) (h :: t) = true -> contains y (h :: t) = true.
Proof.
  induction 1 as [|c d Hc _ IH]; intros H; [exact H|].
  cbn [app contains prefixb] in H.
  assert (E : Ascii.eqb h c = false).
  { apply Ascii.eqb_neq. congruence. }
  rewrite E in H. cbn [andb orb] in H. apply IH, H.
Qed.

Lemma tame_refl m : tame m m.
Proof. intros x y j H. exact H. Qed.

(** A text that starts with a character foreign to the placeholders and
    has no underscore can stand anywhere. *)
Lemma tame_fresh m c ds :
  isPlaceholderChar c = false -> Forall (fun d => d <> "_"%char) ds ->
  tame m (c :: ds).
Proof.
  intros Hc Hds x y j H.
  change (x ++ (c :: ds) ++ y) with (x ++ c :: (ds ++ y)) in H.
  apply contains_barrier in H as [H|H];
    [|
     |apply not_placeholder_char, Hc].
  - apply contains_left, H.
  - apply contains_right, contains_right.
    rewrite placeholder_unfold in H |- *. cbn [app] in H |- *.
    eapply contains_drop_front; eassumption.
Qed.

Lemma skeleton_cons t ts : skeleton (t :: ts) = skeletonTok t ++ skeleton ts.
Proof. reflexivity. Qed.

Lemma skeleton_app ts1 ts2 : skeleton (ts1 ++ ts2) = skeleton ts1 ++ skeleton ts2.
Proof. unfold skeleton. rewrite map_app, concat_app. reflexivity. Qed.

Lemma skeleton_chars l : skeleton (map T l) = l.
Proof.
  induction l as [|c l IH]; [reflexivity|].
  cbn [map]. rewrite skeleton_cons, IH. reflexivity.
Qed.

Lemma cleanToks_tail t ts : cleanToks (t :: ts) -> cleanToks ts.
Proof.
  unfold cleanToks. rewrite skeleton_cons. intros H j.
  eapply contains_false_app, H.
Qed.

Lemma cleanToks_app ts1 ts2 : cleanToks (ts1 ++ ts2) -> cleanToks ts2.
Proof.
  induction ts1 as [|t ts1 IH]; [auto|].
  intros H. apply IH. eapply cleanToks_tail, H.
Qed.

(** ** Reading a placeholder in a shielded text *)

(** The end of a placeholder, read where a character of the text or a
    placeholder of the text stands, is read in the skeleton as well. *)
Lemma digits_walk ds :
  forall ts,
    Forall (fun c => isDigit c = true) ds ->
    prefixb (ds ++ ["_"; "_"]%char) (render ts) = true ->
    prefixb (ds ++ ["_"; "_"]%char) (skeleton ts) = true.
Proof.
  induction ds as [|d ds IH]; intros ts Hd H.
  - cbn [app] in *.
    destruct ts as [|[c1|i1] ts]; [discriminate| |reflexivity].
    change (render (T c1 :: ts)) with (c1 :: render ts) in H.
    change (skeleton (T c1 :: ts)) with (c1 :: skeleton ts).
    cbn [prefixb] in *. apply andb_true_iff in H as [-> H]. cbn [andb].
    destruct ts as [|[c2|i2] ts]; [discriminate|exact H|reflexivity].
  - apply Forall_cons in Hd as [Hd Hds].
    destruct ts as [|[c1|i1] ts]; [discriminate| |].
    + change (render (T c1 :: ts)) with (c1 :: render ts) in H.
      change (skeleton (T c1 :: ts)) with (c1 :: skeleton ts).
      cbn [app prefixb] in *. apply andb_true_iff in H as [-> H].
      cbn [andb]. apply IH; assumption.
    + change (render (P i1 :: ts)) with (placeholder i1 ++ render ts) in H.
      rewrite placeholder_unfold in H. cbn [app prefixb] in H.
      rewrite Ascii.eqb_sym, (digit_not_underscore _ Hd) in H. discriminate.
Qed.

Lemma core_walk j ts :
  prefixb (["S"; "T"; "R"; "_"]%char ++ itoa (Z.of_nat j) ++ ["_"; "_"]%char)
    (render ts) = true ->
  prefixb (["S"; "T"; "R"; "_"]%char ++ itoa (Z.of_nat j) ++ ["_"; "_"]%char)
    (skeleton ts) = true.
Proof.
  destruct (itoa_nat_digits j) as (c & d & -> & Hc & Hd).
  intros H. cbn [app] in *.
  destruct ts as [|[c1|k1] ts]; [discriminate| |discriminate].
  change (render (T c1 :: ts)) with (c1 :: render ts) in H.
  change (skeleton (T c1 :: ts)) with (c1 :: skeleton ts).
  cbn [prefixb] in *. apply andb_true_iff in H as [-> H]. cbn [andb].
  destruct ts as [|[c2|k2] ts]; [discriminate| |discriminate].
  change (render (T c2 :: ts)) with (c2 :: render ts) in H.
  change (skeleton (T c2 :: ts)) with (c2 :: skeleton ts).
  cbn [prefixb] in *. apply andb_true_iff in H as [-> H]. cbn [andb].
  destruct ts as [|[c3|k3] ts]; [discriminate| |discriminate].
  change (render (T c3 :: ts)) with (c3 :: render ts) in H.
  change (skeleton (T c3 :: ts)) with (c3 :: skeleton ts).
  cbn [prefixb] in *. apply andb_true_iff in H as [-> H]. cbn [andb].
  destruct ts as [|[c4|k4] ts]; [discriminate| |].
  - change (render (T c4 :: ts)) with (c4 :: render ts) in H.
    change (skeleton (T c4 :: ts)) with (c4 :: skeleton ts).
    cbn [prefixb] in *. apply andb_true_iff in H as [-> H]. cbn [andb].
    apply (digits_walk (c :: d)); [constructor; assumption|exact H].
  - change (render (P k4 :: ts)) with (placeholder k4 ++ render ts) in H.
    rewrite placeholder_unfold in H. cbn [app prefixb] in H.
    rewrite Ascii.eqb_refl, (digit_not_underscore' _ Hc) in H. discriminate.
Qed.

Lemma under_walk j ts :
  prefixb ("_"%char :: ["S"; "T"; "R"; "_"]%char
             ++ itoa (Z.of_nat j) ++ ["_"; "_"]%char) (render ts) = true ->
  prefixb (placeholder j) ("_"%char :: skeleton ts) = true.
Proof.
  intros H. rewrite placeholder_unfold. cbn [app prefixb].
  rewrite Ascii.eqb_refl. cbn [andb].
  destruct ts as [|[c1|k1] ts]; [discriminate| |discriminate].
  change (render (T c1 :: ts)) with (c1 :: render ts) in H.
  change (skeleton (T c1 :: ts)) with (c1 :: skeleton ts).
  cbn [app prefixb] in *. apply andb_true_iff in H as [-> H]. cbn [andb].
  apply core_walk in H. exact H.
Qed.

(** After the two underscores that end a placeholder of a clean text, no
    placeholder starts. *)
Lemma no_placeholder_at_tail2 j i ts :
  cleanToks (P i :: ts) ->
  prefixb (placeholder j) ("_"%char :: "_"%char :: render ts) = false.
Proof.
  intros Hts.
  destruct (prefixb (placeholder j) ("_"%char :: "_"%char :: render ts)) eqn:E;
    [|reflexivity].
  rewrite placeholder_unfold in E. cbn [app prefixb] in E.
  rewrite !Ascii.eqb_refl in E. cbn [andb] in E. apply core_walk in E.
  rewrite <- (Hts j). symmetry.
  change (skeleton (P i :: ts))
    with (["_"; "_"; " "]%char ++ "_"%char :: "_"%char :: skeleton ts).
  apply contains_right, contains_prefix.
  rewrite placeholder_unfold. cbn [app prefixb].
  rewrite !Ascii.eqb_refl. exact E.
Qed.

Lemma no_placeholder_at_tail1 j i ts :
  cleanToks (P i :: ts) ->
  prefixb (placeholder j) ("_"%char :: render ts) = false.
Proof.
  intros Hts.
  destruct (prefixb (placeholder j) ("_"%char :: render ts)) eqn:E;
    [|reflexivity].
  rewrite placeholder_unfold in E. cbn [app prefixb] in E.
  rewrite !Ascii.eqb_refl in E. cbn [andb] in E. apply under_walk in E.
  rewrite <- (Hts j). symmetry.
  change (skeleton (P i :: ts))
    with (["_"; "_"; " "; "_"]%char ++ "_"%char :: skeleton ts).
  apply contains_right, contains_prefix, E.
Qed.

(** No placeholder starts at a character of a clean text. *)
Lemma no_placeholder_at_char j c ts :
  cleanToks (T c :: ts) ->
  prefixb (placeholder j) (c :: render ts) = false.
Proof.
  intros Hts.
  destruct (prefixb (placeholder j) (c :: render ts)) eqn:E; [|reflexivity].
  rewrite placeholder_unfold in E. cbn [app prefixb] in E.
  apply andb_true_iff in E as [Ec E]. apply Ascii.eqb_eq in Ec. subst c.
  apply under_walk in E.
  rewrite <- (Hts j). symmetry. apply contains_prefix, E.
Qed.

(** No placeholder starts inside a placeholder of the shielded text, and
    only the placeholder itself starts where it starts. *)
Lemma no_placeholder_inside i j v u ts :
  placeholder i = v ++ u -> u <> [] -> v <> [] \/ i <> j ->
  cleanToks (P i :: ts) ->
  prefixb (placeholder j) (u ++ render ts) = false.
Proof.
  intros Hsplit Hu Hv Hts.
  destruct v as [|v0 v].
  { cbn [app] in Hsplit. subst u. destruct Hv as [Hv|Hv]; [congruence|].
    destruct (prefixb (placeholder j) (placeholder i ++ render ts)) eqn:E;
      [|reflexivity].
    apply placeholder_prefix in E. contradiction. }
  clear Hv. rewrite placeholder_unfold in Hsplit.
  destruct (itoa_nat_digits i) as (c & d & Ei & Hc & Hd). rewrite Ei in Hsplit.
  cbn [app] in Hsplit.
  (* the split point is after the first character *)
  destruct v as [|v1 v].
  { inversion Hsplit; subst. cbn [app]. rewrite placeholder_unfold.
    cbn [app prefixb]. reflexivity. }
  destruct v as [|v2 v].
  { inversion Hsplit; subst. apply no_placeholder_at. reflexivity. }
  destruct v as [|v3 v].
  { inversion Hsplit; subst. apply no_placeholder_at. reflexivity. }
  destruct v as [|v4 v].
  { inversion Hsplit; subst. apply no_placeholder_at. reflexivity. }
  destruct v as [|v5 v].
  { inversion Hsplit; subst. cbn [app]. rewrite placeholder_unfold.
    cbn [app prefixb]. rewrite (digit_not_underscore _ Hc). reflexivity. }
  injection Hsplit as _ _ _ _ _ _ Hsplit.
  change (c :: d ++ ["_"%char; "_"%char])
    with ((c :: d) ++ ["_"%char; "_"%char]) in Hsplit.
  apply app_eq_app in Hsplit as (l & [[E1 E2]|[E1 E2]]).
  - (* the split point is inside the digits *)
    subst u. destruct l as [|l0 l].
    + cbn [app]. eapply no_placeholder_at_tail2, Hts.
    + cbn [app]. apply no_placeholder_at, digit_not_underscore.
      assert (Hall : Forall (fun c => isDigit c = true) (c :: d))
        by (constructor; assumption).
      rewrite E1 in Hall. apply Forall_app in Hall as [_ Hall].
      apply Forall_cons in Hall as [Hl _]. exact Hl.
  - (* the split point is inside the closing underscores *)
    destruct l as [|l0 [|l1 [|l2 l]]].
    + cbn [app] in E2. subst u. cbn [app].
      eapply no_placeholder_at_tail2, Hts.
    + cbn [app] in E2. inversion E2; subst. cbn [app].
      eapply no_placeholder_at_tail1, Hts.
    + cbn [app] in E2. inversion E2; subst. congruence.
    + cbn [app] in E2. inversion E2.
Qed.

(** * Restoring the literals *)

Lemma replaceFrom_skip old new w :
  forall s, replaceFrom old new (length w) (w ++ s) = replaceFrom old new 0 s.
Proof.
  induction w as [|c w IH]; intros s; cbn [length app replaceFrom].
  - reflexivity.
  - apply IH.
Qed.

Lemma replaceFrom_hit old new s :
  old <> [] ->
  replaceFrom old new 0 (old ++ s) = new ++ replaceFrom old new 0 s.
Proof.
  destruct old as [|c old]; [congruence|]. intros _.
  cbn [app replaceFrom].
  change (c :: old ++ s) with ((c :: old) ++ s). rewrite prefixb_app.
  cbn [length pred]. rewrite replaceFrom_skip. reflexivity.
Qed.

Lemma replaceFrom_copy old new w :
  forall s,
    (forall v u, w = v ++ u -> u <> [] -> prefixb old (u ++ s) = false) ->
    replaceFrom old new 0 (w ++ s) = w ++ replaceFrom old new 0 s.
Proof.
  induction w as [|c w IH]; intros s H; [reflexivity|].
  cbn [app replaceFrom].
  change (c :: w ++ s) with ((c :: w) ++ s).
  rewrite (H [] (c :: w) eq_refl) by discriminate.
  f_equal. apply IH. intros v u -> Hu. apply (H (c :: v) u); auto.
Qed.

Lemma render_cons t ts : render (t :: ts) = renderTok t ++ render ts.
Proof. reflexivity. Qed.

Lemma render_app ts1 ts2 : render (ts1 ++ ts2) = render ts1 ++ render ts2.
Proof. unfold render. rewrite map_app, concat_app. reflexivity. Qed.

Lemma render_chars l : render (map T l) = l.
Proof.
  induction l as [|c l IH]; [reflexivity|].
  cbn [map]. rewrite render_cons, IH. reflexivity.
Qed.

Lemma placeholder_nonempty j : placeholder j <> [].
Proof. rewrite placeholder_unfold. discriminate. Qed.

(** One step of the restoration replaces the tokens of the placeholder and
    nothing else. *)
Lemma stringsReplace_render j lit ts :
  cleanToks ts ->
  stringsReplace (render ts) (placeholder j) lit
  = render (restoreToks ts (placeholder j, lit)).
Proof.
  intros Hts. unfold stringsReplace.
  destruct (placeholder j) as [|p0 p] eqn:Ep;
    [destruct (placeholder_nonempty j Ep)|].
  rewrite <- Ep. clear p0 p Ep.
  induction ts as [|[c|i] ts IH]; [reflexivity| |].
  - unfold restoreToks. cbn [flat_map restoreTok fst snd app].
    rewrite !render_cons. cbn [renderTok app replaceFrom].
    rewrite no_placeholder_at_char by exact Hts.
    f_equal. eapply IH, cleanToks_tail, Hts.
  - unfold restoreToks. cbn [flat_map restoreTok fst snd].
    rewrite render_cons, render_app. cbn [renderTok].
    case_bool_decide as Hij.
    + apply placeholder_inj in Hij. subst i.
      rewrite replaceFrom_hit by apply placeholder_nonempty.
      rewrite render_chars. f_equal. eapply IH, cleanToks_tail, Hts.
    + rewrite replaceFrom_copy.
      * change (render [P i]) with (placeholder i ++ []).
        rewrite app_nil_r. f_equal. eapply IH, cleanToks_tail, Hts.
      * intros v u Hsplit Hu.
        apply (no_placeholder_inside i j v u ts Hsplit Hu); [|exact Hts].
        right. intros ->. apply Hij. reflexivity.
Qed.

Lemma quote_not_placeholder_char q :
  isQuote q = true -> isPlaceholderChar q = false.
Proof.
  unfold isQuote. intros H. apply orb_true_iff in H as [H|H];
    apply Ascii.eqb_eq in H; subst q; reflexivity.
Qed.

(** Writing a literal without placeholder in place of a placeholder makes
    no placeholder: the quotes of the literal keep it apart. *)
Lemma restore_skeleton j lit :
  quoted lit -> placeholderFree lit ->
  forall ts x k,
    contains (x ++ skeleton (restoreToks ts (placeholder j, lit)))
      (placeholder k) = true ->
    contains (x ++ skeleton ts) (placeholder k) = true.
Proof.
  intros (q & mid & q' & -> & Hq & Hq') Hfree.
  unfold restoreToks. cbn [fst snd].
  induction ts as [|[c|i] ts IH]; intros x k H; cbn [flat_map restoreTok] in H.
  - exact H.
  - cbn [app] in H. rewrite skeleton_cons in H |- *. cbn [skeletonTok] in *.
    rewrite app_assoc in H |- *. apply IH, H.
  - rewrite skeleton_app in H. rewrite skeleton_cons.
    case_bool_decide as Hij.
    + rewrite skeleton_chars in H.
      change (x ++ (q :: mid ++ [q']) ++ ?r) with (x ++ q :: (mid ++ [q']) ++ r)
        in H.
      apply contains_barrier in H as [H|H];
        [apply contains_left, H| |apply not_placeholder_char,
                                    quote_not_placeholder_char, Hq].
      rewrite <- app_assoc in H. cbn [app] in H.
      apply contains_barrier in H as [H|H];
        [|
         |apply not_placeholder_char, quote_not_placeholder_char, Hq'].
      * exfalso. specialize (Hfree k).
        assert (E : contains (q :: mid ++ [q']) (placeholder k) = true).
        { apply (contains_right [q]), contains_left, H. }
        congruence.
      * apply contains_right, contains_right. apply (IH [] k), H.
    + change (skeleton [P i]) with (skeletonTok (P i) ++ []) in H.
      rewrite app_nil_r in H. rewrite app_assoc in H |- *. apply IH, H.
Qed.

Lemma restoreToks_clean ts j lit :
  quoted lit -> placeholderFree lit ->
  cleanToks ts -> cleanToks (restoreToks ts (placeholder j, lit)).
Proof.
  intros Hq Hfree Hts k.
  destruct (contains (skeleton (restoreToks ts (placeholder j, lit)))
              (placeholder k)) eqn:E; [|reflexivity].
  apply (restore_skeleton j lit Hq Hfree ts [] k) in E.
  rewrite <- (Hts k). symmetry. exact E.
Qed.

(** The restoration loop, on the tokens. *)
Lemma restoreStrings_render entries :
  Forall (fun e : buf * buf =>
            (exists j, e.1 = placeholder j)
            /\ quoted e.2 /\ placeholderFree e.2) entries ->
  forall ts,
    cleanToks ts ->
    restoreStrings entries (render ts)
    = render (foldl restoreToks ts entries).
Proof.
  induction 1 as [|[ph lit] entries [(j & Hj) [Hq Hlit]] _ IH]; intros ts Hts;
    cbn [restoreStrings foldl].
  - reflexivity.
  - cbn [fst snd] in *. subst ph. rewrite stringsReplace_render by exact Hts.
    apply IH. apply restoreToks_clean; assumption.
Qed.

Lemma fillTokens_cons texts t ts :
  fillTokens texts (t :: ts) = fillTok texts t ++ fillTokens texts ts.
Proof. reflexivity. Qed.

Lemma fillTokens_app texts ts1 ts2 :
  fillTokens texts (ts1 ++ ts2) = fillTokens texts ts1 ++ fillTokens texts ts2.
Proof. unfold fillTokens. rewrite map_app, concat_app. reflexivity. Qed.

Lemma fillTokens_chars texts l : fillTokens texts (map T l) = l.
Proof.
  induction l as [|c l IH]; [reflexivity|].
  cbn [map]. rewrite fillTokens_cons, IH. reflexivity.
Qed.

(** Replacing a placeholder by its literal does not change the text with
    all literals filled in, and removes the placeholder. *)
Lemma fill_restore texts j ts :
  fillTokens texts (restoreToks ts (placeholder j, nth j texts []))
  = fillTokens texts ts.
Proof.
  unfold restoreToks. cbn [fst snd].
  induction ts as [|[c|i] ts IH]; cbn [flat_map restoreTok]; [reflexivity| |].
  - cbn [app]. rewrite !fillTokens_cons, IH. reflexivity.
  - rewrite fillTokens_app, fillTokens_cons, IH. f_equal.
    case_bool_decide as Hij.
    + apply placeholder_inj in Hij. subst i. apply fillTokens_chars.
    + unfold fillTokens. cbn [map concat fillTok]. apply app_nil_r.
Qed.

Lemma pholders_app ts1 ts2 : pholders (ts1 ++ ts2) = pholders ts1 ++ pholders ts2.
Proof.
  induction ts1 as [|[c|i] ts1 IH]; cbn [app pholders]; [reflexivity|exact IH|].
  rewrite IH. reflexivity.
Qed.

Lemma pholders_chars l : pholders (map T l) = [].
Proof. induction l as [|c l IH]; [reflexivity|exact IH]. Qed.

Lemma pholders_restore i j lit ts :
  i ∈ pholders (restoreToks ts (placeholder j, lit)) ->
  i ∈ pholders ts /\ i <> j.
Proof.
  unfold restoreToks. cbn [fst snd].
  induction ts as [|[c|k] ts IH]; cbn [flat_map restoreTok].
  - intros H. apply elem_of_nil in H. contradiction.
  - cbn [app pholders]. exact IH.
  - rewrite pholders_app. cbn [pholders]. rewrite elem_of_app, elem_of_cons.
    case_bool_decide as Hkj.
    + rewrite pholders_chars. intros [H|H]; [apply elem_of_nil in H; contradiction|].
      destruct (IH H). auto.
    + cbn [pholders]. rewrite elem_of_cons, elem_of_nil.
      intros [[->|[]]|H].
      * split; [auto|]. intros ->. apply Hkj. reflexivity.
      * destruct (IH H). auto.
Qed.

Lemma render_fill texts ts : pholders ts = [] -> render ts = fillTokens texts ts.
Proof.
  induction ts as [|[c|i] ts IH]; cbn [pholders]; intros H;
    [reflexivity| |discriminate].
  rewrite render_cons, fillTokens_cons, IH by exact H. reflexivity.
Qed.

(** When every placeholder of the text has an entry, the restoration gives
    the text with all literals filled in, in whatever order the entries
    come. *)
Lemma restore_fills texts entries :
  Forall (fun e : buf * buf =>
            exists j, e = (placeholder j, nth j texts [])) entries ->
  forall ts,
    (forall i, i ∈ pholders ts ->
               exists e, e ∈ entries /\ e.1 = placeholder i) ->
    render (foldl restoreToks ts entries) = fillTokens texts ts.
Proof.
  induction 1 as [|e entries (j & ->) _ IH]; intros ts Hts; cbn [foldl].
  - apply render_fill. destruct (pholders ts) as [|i l]; [reflexivity|].
    destruct (Hts i) as (e & He & _); [apply list_elem_of_here|].
    apply elem_of_nil in He. contradiction.
  - rewrite IH; [apply fill_restore|].
    intros i Hi. apply pholders_restore in Hi as [Hi Hij].
    destruct (Hts i Hi) as (e & He & Hkey).
    apply elem_of_cons in He as [->|He]; [|eauto].
    cbn [fst] in Hkey. apply placeholder_inj in Hkey. congruence.
Qed.

(** * Shielding *)

Lemma hits_hitTexts ps : length (hitTexts ps) = hits ps.
Proof.
  induction ps as [|[c|m caps] ps IH]; cbn [hitTexts hits length]; auto.
Qed.

Lemma pholders_shieldTokens ps :
  forall k, pholders (shieldTokens k ps) = seq k (hits ps).
Proof.
  induction ps as [|[c|m caps] ps IH]; intros k;
    cbn [shieldTokens pholders hits seq]; [reflexivity|apply IH|].
  rewrite IH. reflexivity.
Qed.

Lemma fill_shieldTokens ps :
  forall pre,
    fillTokens (pre ++ hitTexts ps) (shieldTokens (length pre) ps)
    = concat (map source ps).
Proof.
  induction ps as [|[c|m caps] ps IH]; intros pre;
    cbn [shieldTokens hitTexts map concat source]; [reflexivity| |].
  - rewrite fillTokens_cons, IH. reflexivity.
  - rewrite fillTokens_cons. cbn [fillTok]. rewrite nth_middle. f_equal.
    replace (pre ++ m :: hitTexts ps) with ((pre ++ [m]) ++ hitTexts ps)
      by (rewrite <- app_assoc; reflexivity).
    replace (S (length pre)) with (length (pre ++ [m]))
      by (rewrite length_app; cbn [length]; lia).
    apply IH.
Qed.

(** The shielded form of a text is clean when the text, with two
    underscores on both sides of each literal, holds no placeholder. *)
Lemma shield_skeleton ps :
  forall k x j,
    contains (x ++ skeleton (shieldTokens k ps)) (placeholder j) = true ->
    contains (x ++ concat (map padPiece ps)) (placeholder j) = true.
Proof.
  induction ps as [|[c|m caps] ps IH]; intros k x j H;
    cbn [shieldTokens map concat padPiece] in *.
  - exact H.
  - rewrite skeleton_cons in H. cbn [skeletonTok] in H.
    rewrite app_assoc in H |- *. eapply IH, H.
  - rewrite skeleton_cons in H. cbn [skeletonTok] in H.
    change (x ++ str "__ __" ++ ?r)
      with (x ++ ["_"; "_"]%char ++ " "%char :: (["_"; "_"]%char ++ r)) in H.
    rewrite app_assoc in H.
    apply contains_barrier in H as [H|H];
      [|
       |apply not_placeholder_char; reflexivity].
    + change ((str "__" ++ m ++ str "__") ++ ?r)
        with (["_"; "_"]%char ++ (m ++ str "__") ++ r).
      rewrite app_assoc. apply contains_left, H.
    + apply contains_right. rewrite <- !app_assoc.
      apply contains_right, contains_right. eapply IH, H.
Qed.

Lemma shield_clean ps :
  placeholderFree (concat (map padPiece ps)) ->
  forall k, cleanToks (shieldTokens k ps).
Proof.
  intros Hfree k j.
  destruct (contains (skeleton (shieldTokens k ps)) (placeholder j)) eqn:E;
    [|reflexivity].
  apply (shield_skeleton ps k [] j) in E. rewrite <- (Hfree j). symmetry.
  exact E.
Qed.

Lemma hitTexts_free ps :
  placeholderFree (concat (map padPiece ps)) ->
  Forall placeholderFree (hitTexts ps).
Proof.
  induction ps as [|[c|m caps] ps IH]; cbn [map concat padPiece hitTexts];
    intros H.
  - constructor.
  - apply IH. intros j. eapply contains_false_app, H.
  - constructor.
    + intros j. specialize (H j). rewrite <- app_assoc in H.
      apply contains_false_app in H. rewrite <- app_assoc in H.
      eapply contains_app_l, H.
    + apply IH. intros j. eapply contains_false_app, H.
Qed.

(** A match of the string pattern starts and ends with a quote. *)
Lemma stringRe_quoted prev m rest caps caps' :
  Matches stringRe prev m rest caps caps' -> quoted m.
Proof.
  unfold stringRe. intros M. invM.
  - eexists _, _, _. split; [reflexivity|]. split; reflexivity.
  - eexists _, _, _. split; [reflexivity|]. split; reflexivity.
Qed.

Lemma hitTexts_quoted ps :
  Forall (hitOK stringRe) ps -> Forall quoted (hitTexts ps).
Proof.
  induction 1 as [|[c|m caps] ps Hp _ IH]; cbn [hitTexts]; [constructor|exact IH|].
  constructor; [|exact IH].
  destruct Hp as (prev & rest & M). eapply stringRe_quoted, M.
Qed.

(** ** Texts without underscore *)

Lemma plain_free s : plainText s -> placeholderFree s.
Proof.
  unfold plainText. intros H j.
  destruct (contains s (placeholder j)) eqn:E; [|reflexivity].
  apply contains_spec in E as (pre & post & ->).
  rewrite placeholder_unfold, !forallb_app in H. cbn [forallb app] in H.
  apply andb_true_iff in H as [_ H]. apply andb_true_iff in H as [H _].
  discriminate.
Qed.

Lemma plain_skeleton_tail2 j ts :
  plainToks ts = true ->
  prefixb (placeholder j) ("_"%char :: "_"%char :: skeleton ts) = false.
Proof.
  intros Hts. rewrite placeholder_unfold. cbn [app prefixb].
  rewrite !Ascii.eqb_refl. cbn [andb].
  destruct (itoa_nat_digits j) as (c & d & -> & Hc & _).
  destruct ts as [|[c1|k1] ts]; [reflexivity| |reflexivity].
  cbn [plainToks] in Hts. apply andb_true_iff in Hts as [_ Hts].
  change (skeleton (T c1 :: ts)) with (c1 :: skeleton ts). cbn [prefixb].
  destruct (Ascii.eqb "S" c1); [|reflexivity]. cbn [andb].
  destruct ts as [|[c2|k2] ts]; [reflexivity| |reflexivity].
  cbn [plainToks] in Hts. apply andb_true_iff in Hts as [_ Hts].
  change (skeleton (T c2 :: ts)) with (c2 :: skeleton ts). cbn [prefixb].
  destruct (Ascii.eqb "T" c2); [|reflexivity]. cbn [andb].
  destruct ts as [|[c3|k3] ts]; [reflexivity| |reflexivity].
  cbn [plainToks] in Hts. apply andb_true_iff in Hts as [_ Hts].
  change (skeleton (T c3 :: ts)) with (c3 :: skeleton ts). cbn [prefixb].
  destruct (Ascii.eqb "R" c3); [|reflexivity]. cbn [andb].
  destruct ts as [|[c4|k4] ts]; [reflexivity| |].
  - cbn [plainToks] in Hts. apply andb_true_iff in Hts as [H4 _].
    change (skeleton (T c4 :: ts)) with (c4 :: skeleton ts). cbn [prefixb].
    rewrite (plain_not_underscore _ H4). reflexivity.
  - change (skeleton (P k4 :: ts))
      with ("_"%char :: "_"%char :: " "%char :: "_"%char :: "_"%char
              :: skeleton ts).
    cbn [app prefixb].
    rewrite Ascii.eqb_refl, (digit_not_underscore' _ Hc).
    reflexivity.
Qed.

Lemma plain_skeleton_tail1 j ts :
  plainToks ts = true ->
  prefixb (placeholder j) ("_"%char :: skeleton ts) = false.
Proof.
  intros Hts. rewrite placeholder_unfold. cbn [app prefixb].
  rewrite !Ascii.eqb_refl. cbn [andb].
  destruct ts as [|[c1|k1] ts]; [reflexivity| |].
  - cbn [plainToks] in Hts. apply andb_true_iff in Hts as [H1 _].
    change (skeleton (T c1 :: ts)) with (c1 :: skeleton ts). cbn [prefixb].
    rewrite (plain_not_underscore _ H1). reflexivity.
  - reflexivity.
Qed.

(** A shielded text without underscore outside its placeholders is
    clean. *)
Lemma plain_clean ts : plainToks ts = true -> cleanToks ts.
Proof.
  intros Hts j. induction ts as [|[c|i] ts IH].
  - rewrite placeholder_unfold. reflexivity.
  - cbn [plainToks] in Hts. apply andb_true_iff in Hts as [Hc Hts].
    change (skeleton (T c :: ts)) with (c :: skeleton ts).
    cbn [contains]. rewrite (IH Hts), orb_false_r.
    apply no_placeholder_at, plain_not_underscore, Hc.
  - cbn [plainToks] in Hts.
    change (skeleton (P i :: ts))
      with ("_"%char :: "_"%char :: " "%char :: "_"%char :: "_"%char
              :: skeleton ts).
    cbn [contains]. rewrite (IH Hts), orb_false_r.
    rewrite (plain_skeleton_tail1 j ts Hts), (plain_skeleton_tail2 j ts Hts).
    rewrite placeholder_unfold. reflexivity.
Qed.

Lemma plain_shieldTokens ps :
  plainText (concat (map source ps)) ->
  forall k, plainToks (shieldTokens k ps) = true.
Proof.
  unfold plainText.
  induction ps as [|[c|m caps] ps IH]; cbn [map concat source app forallb];
    intros H k; cbn [shieldTokens plainToks].
  - reflexivity.
  - apply andb_true_iff in H as [Hc H]. rewrite Hc, IH; auto.
  - rewrite forallb_app in H. apply andb_true_iff in H as [_ H]. auto.
Qed.

Lemma hitTexts_plain ps :
  plainText (concat (map source ps)) -> Forall plainText (hitTexts ps).
Proof.
  unfold plainText.
  induction ps as [|[c|m caps] ps IH]; cbn [map concat source app forallb hitTexts];
    intros H.
  - constructor.
  - apply andb_true_iff in H as [_ H]. auto.
  - rewrite forallb_app in H. apply andb_true_iff in H as [Hm H].
    constructor; auto.
Qed.

(** The table of literals when the keys so far are the placeholders below
    [k]. *)
Lemma shield_tokens ps :
  forall (lits0 : gmap buf buf) k,
    size lits0 = k ->
    (forall ph, is_Some (lits0 !! ph) -> exists i, i < k /\ ph = placeholder i) ->
    exists lits',
      replaceFunc shield lits0 ps
      = Some (lits', render (shieldTokens k ps))
      /\ (forall ph l, lits0 !! ph = Some l -> lits' !! ph = Some l)
      /\ (forall ph l,
             lits' !! ph = Some l ->
             lits0 !! ph = Some l
             \/ exists j, j < hits ps /\ ph = placeholder (k + j)
                          /\ l = nth j (hitTexts ps) [])
      /\ (forall j, j < hits ps ->
                    lits' !! placeholder (k + j) = Some (nth j (hitTexts ps) [])).
Proof.
  induction ps as [|[c|m caps] ps IH]; intros lits0 k Hsize Hkeys;
    cbn [replaceFunc shieldTokens hits hitTexts].
  - exists lits0. split; [reflexivity|]. split; [auto|]. split; [auto|].
    intros j Hj. lia.
  - destruct (IH lits0 k Hsize Hkeys) as (lits' & -> & H1 & H2 & H3).
    exists lits'. split; [reflexivity|]. auto.
  - unfold shield at 1. rewrite Hsize.
    assert (Hfresh : lits0 !! placeholder k = None).
    { destruct (lits0 !! placeholder k) eqn:E; [|reflexivity].
      destruct (Hkeys (placeholder k)) as (i & Hi & Hph); [eauto|].
      apply placeholder_inj in Hph. lia. }
    destruct (IH (<[placeholder k := m]> lits0) (S k)) as (lits' & -> & H1 & H2 & H3).
    { rewrite map_size_insert_None by exact Hfresh. lia. }
    { intros ph Hph. destruct (decide (ph = placeholder k)) as [->|Hne].
      - exists k. split; [lia|reflexivity].
      - rewrite lookup_insert_ne in Hph by congruence.
        destruct (Hkeys ph Hph) as (i & Hi & ->). exists i. split; [lia|auto]. }
    exists lits'. split; [reflexivity|]. split; [|split].
    + intros ph l Hl. apply H1.
      destruct (decide (ph = placeholder k)) as [->|Hne]; [congruence|].
      rewrite lookup_insert_ne by congruence. exact Hl.
    + intros ph l Hl. destruct (H2 ph l Hl) as [Hl0|(j & Hj & -> & ->)].
      * destruct (decide (ph = placeholder k)) as [->|Hne].
        -- rewrite lookup_insert_eq in Hl0. inversion Hl0; subst.
           right. exists 0. split; [lia|]. rewrite Nat.add_0_r. auto.
        -- rewrite lookup_insert_ne in Hl0 by congruence. auto.
      * right. exists (S j). split; [lia|].
        replace (k + S j) with (S k + j) by lia. auto.
    + intros [|j] Hj.
      * rewrite Nat.add_0_r. cbn [nth]. apply H1, lookup_insert_eq.
      * replace (k + S j) with (S k + j) by lia. cbn [nth]. apply H3. lia.
Qed.

(** Shielding a text: the result is the shielded text, the table maps the
    placeholders to the literals in the order they were met, and filling
    the literals back in gives the text. *)
Lemma shield_spec code :
  exists lits,
    ReplaceAllStringFunc stringRe shield ∅ code = Some (lits, shielded code)
    /\ (forall ph l,
           lits !! ph = Some l <->
           exists j, j < length (literals code) /\ ph = placeholder j
                     /\ l = nth j (literals code) []).
Proof.
  unfold ReplaceAllStringFunc, shielded, literals.
  destruct (shield_tokens (matches stringRe code) ∅ 0)
    as (lits & E & _ & H2 & H3).
  - apply map_size_empty.
  - intros ph [l Hl]. rewrite lookup_empty in Hl. discriminate.
  - exists lits. split; [exact E|]. intros ph l. rewrite hits_hitTexts. split.
    + intros Hl. destruct (H2 ph l Hl) as [H0|H]; [|exact H].
      rewrite lookup_empty in H0. discriminate.
    + intros (j & Hj & -> & ->). apply (H3 j Hj).
Qed.

Lemma shielded_fill code :
  fillTokens (literals code) (shieldTokens 0 (matches stringRe code)) = code.
Proof.
  unfold literals.
  pose proof (fill_shieldTokens (matches stringRe code) []) as H.
  cbn [app length] in H. rewrite H. apply matches_source.
Qed.

(** * Declared identifiers that compile *)

(** The declaration sites that the renamer scans are those of the shielded
    text. *)
Lemma compilable_sites code :
  compilable code ->
  forall lits code1,
    ReplaceAllStringFunc stringRe shield ∅ code = Some (lits, code1) ->
    Forall (fun site => tooLarge (declaredName site) = false)
           (hitTexts (matches declRe code1)).
Proof.
  intros H lits code1 E.
  destruct (shield_spec code) as (lits' & E' & _).
  rewrite E' in E. inversion E; subst.
  unfold compilable, declaredNames, declarationSites in H.
  apply Forall_map in H. exact H.
Qed.

Lemma compilable_check code :
  forallb (fun name => negb (tooLarge name)) (declaredNames code) = true ->
  compilable code.
Proof.
  intros H. apply Forall_forall. intros name Hin.
  rewrite forallb_forall in H. apply list_elem_of_In, H in Hin.
  apply negb_true_iff in Hin. exact Hin.
Qed.

(** ** Deciding that a text holds no placeholder *)

(** A text without the prefix of the placeholders holds no placeholder. *)
Lemma placeholderFree_check s :
  contains s (str "__STR_") = false -> placeholderFree s.
Proof.
  intros H j. destruct (contains s (placeholder j)) eqn:E; [|reflexivity].
  apply contains_spec in E as (pre & post & ->).
  rewrite <- H. symmetry. apply contains_spec.
  exists pre, (itoa (Z.of_nat j) ++ str "__" ++ post).
  unfold placeholder. rewrite <- !app_assoc. reflexivity.
Qed.

Lemma sites_check sites :
  forallb (fun site => negb (contains site (str "__STR_"))) sites = true ->
  Forall placeholderFree sites.
Proof.
  intros H. apply Forall_forall. intros site Hin.
  rewrite forallb_forall in H. apply list_elem_of_In, H in Hin.
  apply placeholderFree_check, negb_true_iff, Hin.
Qed.

Section Returns.
Variables ordVars ordLits : RangeOrder.

(** [Minify] returns for an input whose length is an [int] when the
    identifiers declared in the text handed to the renamer compile; with
    shorten-vars disabled it returns for every input. *)
Lemma Minify_returns src pl sv :
  (sv = true -> validString src /\ compilable (compacted pl src)) ->
  exists out m',
    Minify ordVars ordLits (NewMinifier src pl sv) = Some (out, m').
Proof.
  intros Hsv. rewrite Minify_unfold.
  cbn [preserveLicense shortenVars input NewMinifier].
  unfold compacted, uncommented in Hsv.
  destruct (extractLicense pl src) as [lic rest] eqn:E.
  destruct sv; [|eauto].
  destruct (Hsv eq_refl) as [Hvalid Hc]. cbn [snd] in Hc.
  pose proof (compact_lowerOrSpace pl src) as Hle.
  unfold uncommented in Hle. rewrite E in Hle. cbn [snd] in Hle.
  destruct (shortenVariableNames_total ordVars ordLits
              (NewMinifier src pl true)
              (rewrite compactSteps (rewrite commentSteps rest)))
    as (out & m' & -> & _); [| | |eauto].
  - apply declInv_fresh. unfold validString in Hvalid. lia.
  - apply map_Forall_empty.
  - apply compilable_sites, Hc.
Qed.

Lemma minified_returns src pl sv :
  (sv = true -> validString src /\ compilable (compacted pl src)) ->
  exists out, minified ordVars ordLits src pl sv = Some out.
Proof.
  intros Hsv. destruct (Minify_returns src pl sv Hsv) as (out & m' & E).
  unfold minified. rewrite E. eauto.
Qed.
End Returns.

(** * Scans that leave the placeholders alone *)

Lemma replaceFunc_keeps {St} (f : St -> buf -> option (St * buf)) w :
  forall st ps,
    replaceFunc f st (map Keep w ++ ps)
    = match replaceFunc f st ps with
      | Some (st', out) => Some (st', w ++ out)
      | None => None
      end.
Proof.
  induction w as [|c w IH]; intros st ps; cbn [map app replaceFunc].
  - destruct (replaceFunc f st ps) as [[st' out]|]; reflexivity.
  - rewrite IH. destruct (replaceFunc f st ps) as [[st' out]|]; reflexivity.
Qed.

Lemma hits_keeps w ps : hits (map Keep w ++ ps) = hits ps.
Proof. induction w as [|c w IH]; [reflexivity|exact IH]. Qed.

Lemma goodHits_keeps HitP w ps :
  goodHits HitP (map Keep w ++ ps) -> goodHits HitP ps.
Proof.
  unfold goodHits. intros H. apply Forall_app in H as [_ H]. exact H.
Qed.

Lemma after_placeholder prev i : after prev (placeholder i) = Some "_"%char.
Proof.
  unfold after. rewrite placeholder_unfold, !last_app. reflexivity.
Qed.

(** A prefix of a shielded text that holds no placeholder and after which
    no word character follows is made of characters of the text. *)
Lemma free_take_tokens :
  forall ts k,
    k <= length (render ts) ->
    placeholderFree (take k (render ts)) ->
    wordAfter (drop k (render ts)) = false ->
    exists ts2,
      ts = map T (take k (render ts)) ++ ts2 /\ drop k (render ts) = render ts2.
Proof.
  induction ts as [|[c|i] ts IH]; intros k Hk Hfree Hend.
  - exists []. change (render []) with (@nil ascii) in *.
    cbn [length] in Hk. destruct k; [|lia]. split; reflexivity.
  - destruct k as [|k]; [exists (T c :: ts); split; reflexivity|].
    rewrite render_cons in *. cbn [renderTok app length take drop] in *.
    destruct (IH k) as (ts2 & E1 & E2);
      [lia|intros j; eapply contains_cons_false, Hfree|exact Hend|].
    exists ts2. split; [|exact E2]. cbn [map app]. f_equal. exact E1.
  - destruct k as [|k]; [exists (P i :: ts); split; reflexivity|].
    exfalso. rewrite render_cons in *. cbn [renderTok] in *.
    destruct (Nat.lt_ge_cases (S k) (length (placeholder i))) as [Hlt|Hge].
    + rewrite drop_app_le in Hend by lia.
      pose proof (placeholder_word i) as Hw.
      rewrite <- (take_drop (S k) (placeholder i)), forallb_app in Hw.
      apply andb_true_iff in Hw as [_ Hw].
      destruct (drop (S k) (placeholder i)) as [|d rest] eqn:Ed.
      * apply (f_equal (@length ascii)) in Ed. rewrite length_drop in Ed.
        cbn [length] in Ed. lia.
      * cbn [app wordAfter] in Hend. cbn [forallb] in Hw.
        apply andb_true_iff in Hw as [Hw _]. congruence.
    + rewrite take_app_ge in Hfree by lia.
      specialize (Hfree i).
      rewrite contains_left in Hfree; [discriminate|].
      apply contains_prefix. rewrite <- (app_nil_r (placeholder i)) at 2.
      apply prefixb_app.
Qed.

Section Guarded.
Variable r : regex.
Hypothesis r_guarded : guarded r.

Lemma guarded_end prev : exec r prev [] = None.
Proof.
  destruct (exec r prev []) as [[n caps]|] eqn:E; [|reflexivity].
  destruct (r_guarded _ _ _ _ E) as (Hn & _ & _).
  destruct (exec_sound _ _ _ _ _ E) as (m & rest & Hs & -> & _).
  symmetry in Hs. apply app_eq_nil in Hs as [-> _]. contradiction.
Qed.

Lemma guarded_adj prev adj s : scan r prev adj 0 s = scan r prev false 0 s.
Proof.
  destruct s as [|c s]; cbn [scan].
  - rewrite guarded_end. reflexivity.
  - destruct (exec r prev (c :: s)) as [[[|n] caps]|] eqn:E; try reflexivity.
    destruct (r_guarded _ _ _ _ E) as (Hn & _ & _). contradiction.
Qed.

Lemma guarded_skip w :
  forall prev adj s,
    scan r prev adj (length w) (w ++ s) = scan r (after prev w) false 0 s.
Proof.
  intros prev adj s. destruct w as [|c w].
  - apply guarded_adj.
  - rewrite scan_skip by discriminate. apply guarded_adj.
Qed.

(** Inside a word there is no match. *)
Lemma guarded_keep_words w :
  forall prev s,
    forallb isWord w = true -> wordBefore prev = true ->
    scan r prev false 0 (w ++ s)
    = map Keep w ++ scan r (after prev w) false 0 s.
Proof.
  induction w as [|c w IH]; intros prev s Hw Hp; [reflexivity|].
  cbn [forallb] in Hw. apply andb_true_iff in Hw as [Hc Hw].
  cbn [app scan map].
  destruct (exec r prev (c :: w ++ s)) as [[n caps]|] eqn:E.
  - destruct (r_guarded _ _ _ _ E) as (_ & Hp' & _). congruence.
  - f_equal. rewrite after_cons. apply IH; [exact Hw|exact Hc].
Qed.

Lemma guarded_keep_placeholder i prev s :
  exec r prev (placeholder i ++ s) = None ->
  scan r prev false 0 (placeholder i ++ s)
  = map Keep (placeholder i) ++ scan r (Some "_"%char) false 0 s.
Proof.
  intros E. rewrite <- (after_placeholder prev i).
  pose proof (placeholder_word i) as Hw.
  destruct (placeholder i) as [|c w] eqn:Ep;
    [destruct (placeholder_nonempty i Ep)|].
  cbn [forallb] in Hw. apply andb_true_iff in Hw as [Hc Hw].
  cbn [app scan map] in *. rewrite E. f_equal. rewrite after_cons.
  apply guarded_keep_words; [exact Hw|exact Hc].
Qed.

Section Protect.
Context {St : Type}.
Variable f : St -> buf -> option (St * buf).
Variable Inv : nat -> St -> Prop.
Variable R : buf -> buf -> Prop.
Variable HitP : buf -> Prop.
Hypothesis R_refl : forall s, R s s.
Hypothesis R_app : forall a b a' b', R a b -> R a' b' -> R (a ++ a') (b ++ b').
Hypothesis HitP_free : forall m, HitP m -> placeholderFree m.
Hypothesis f_tame :
  forall k st prev s n caps,
    Inv (S k) st ->
    exec r prev s = Some (n, caps) -> HitP (take n s) ->
    exists st1 new,
      f st (take n s) = Some (st1, new)
      /\ Inv k st1 /\ tame (take n s) new /\ R (take n s) new.

(** When no match of the scan holds a placeholder, the scan rewrites the
    text between the placeholders and keeps every placeholder: a match
    ends where a word ends, and so does not end inside a placeholder. What
    the closure writes makes no placeholder, and a relation that the
    closure keeps between a match and what it writes holds between the
    text and the result. *)
Lemma protect n :
  forall ts prev st,
    length ts <= n ->
    goodHits HitP (scan r prev false 0 (render ts)) ->
    Inv (hits (scan r prev false 0 (render ts))) st ->
    exists st' ts',
      replaceFunc f st (scan r prev false 0 (render ts))
      = Some (st', render ts')
      /\ Inv 0 st'
      /\ (forall x j,
             contains (x ++ skeleton ts') (placeholder j) = true ->
             contains (x ++ skeleton ts) (placeholder j) = true)
      /\ pholders ts' = pholders ts
      /\ R (render ts) (render ts').
Proof.
  induction n as [|n IH]; intros ts prev st Hlen Hhits Hinv.
  { destruct ts; [|cbn in Hlen; lia].
    change (render []) with (@nil ascii) in *. cbn [scan] in *.
    rewrite guarded_end in *. exists st, []. auto 6. }
  destruct ts as [|[c|i] ts].
  - change (render []) with (@nil ascii) in *. cbn [scan] in *.
    rewrite guarded_end in *. exists st, []. auto 6.
  - (* a character of the text *)
    rewrite render_cons in *. cbn [renderTok app] in *.
    cbn [scan] in *.
    destruct (exec r prev (c :: render ts)) as [[[|n0] caps]|] eqn:E.
    + destruct (r_guarded _ _ _ _ E) as (Hn & _ & _). contradiction.
    + (* a match starts here *)
      assert (Hk : S n0 <= length (c :: render ts)).
      { destruct (exec_sound _ _ _ _ _ E) as (m0 & rest & Hs & Hn & _).
        rewrite Hs, Hn, length_app. lia. }
      apply Forall_cons in Hhits as [[Hm|Hm] Hhits]; [|discriminate].
      cbn [source] in Hm.
      destruct (free_take_tokens (T c :: ts) (S n0)) as (ts2 & E1 & E2).
      { rewrite render_cons. exact Hk. }
      { rewrite render_cons. apply HitP_free, Hm. }
      { rewrite render_cons. apply (r_guarded _ _ _ _ E). }
      rewrite render_cons in E1, E2. cbn [renderTok app take drop] in E1, E2.
      assert (Hrest : scan r (Some c) true n0 (render ts)
                      = scan r (after (Some c) (take n0 (render ts))) false 0
                          (render ts2)).
      { rewrite <- (take_drop n0 (render ts)) at 1. rewrite E2.
        rewrite <- (guarded_skip (take n0 (render ts)) (Some c) true).
        rewrite length_take. cbn [length] in Hk.
        replace (n0 `min` length (render ts)) with n0 by lia. reflexivity. }
      rewrite Hrest in *. cbn [hits replaceFunc] in *.
      destruct (f_tame _ _ _ _ _ _ Hinv E Hm)
        as (st1 & new & Ef & Hinv1 & Hnew & HR).
      rewrite Ef.
      assert (Hlen2 : length ts2 <= n).
      { apply (f_equal (@length tok)) in E1.
        rewrite length_app in E1. cbn [length map] in E1, Hlen. lia. }
      destruct (IH ts2 _ st1 Hlen2 Hhits Hinv1)
        as (st' & ts' & -> & Hinv' & Hts' & Hph & HR').
      exists st', (map T new ++ ts'). rewrite render_app, render_chars.
      split; [reflexivity|]. split; [exact Hinv'|]. split; [|split].
      * intros x j H. rewrite skeleton_app, skeleton_chars in H.
        rewrite app_assoc in H. apply Hts' in H. rewrite <- app_assoc in H.
        apply Hnew in H. rewrite E1.
        change (T c :: map T (take n0 (render ts)) ++ ts2)
          with (map T (c :: take n0 (render ts)) ++ ts2).
        rewrite skeleton_app, skeleton_chars. exact H.
      * rewrite pholders_app, pholders_chars, Hph. cbn [app].
        change (pholders (T c :: ts)) with (pholders ts).
        assert (H : pholders (T c :: ts) = pholders ts2).
        { rewrite E1.
          change (T c :: map T (take n0 (render ts)) ++ ts2)
            with (map T (c :: take n0 (render ts)) ++ ts2).
          rewrite pholders_app, pholders_chars. reflexivity. }
        symmetry. exact H.
      * rewrite <- (take_drop (S n0) (c :: render ts)). cbn [take drop].
        rewrite E2.
        apply (R_app (c :: take n0 (render ts)) new); [exact HR|exact HR'].
    + (* no match here *)
      apply Forall_cons in Hhits as [_ Hhits]. cbn [hits replaceFunc] in *.
      assert (Hlen0 : length ts <= n) by (cbn [length] in Hlen; lia).
      destruct (IH ts _ st Hlen0 Hhits Hinv)
        as (st' & ts' & -> & Hinv' & Hts' & Hph & HR').
      exists st', (T c :: ts'). rewrite render_cons.
      split; [reflexivity|]. split; [exact Hinv'|]. split; [|split].
      * intros x j H. rewrite skeleton_cons in H |- *.
        rewrite app_assoc in H |- *. apply Hts', H.
      * exact Hph.
      * apply (R_app [c] [c]); [apply R_refl|exact HR'].
  - (* a placeholder *)
    rewrite render_cons in *. cbn [renderTok] in *.
    assert (E : exec r prev (placeholder i ++ render ts) = None).
    { destruct (exec r prev (placeholder i ++ render ts)) as [[n0 caps]|] eqn:E;
        [|reflexivity].
      exfalso. destruct (r_guarded _ _ _ _ E) as (Hn & _ & Hend).
      destruct n0 as [|n0]; [contradiction|].
      assert (Hk : S n0 <= length (placeholder i ++ render ts)).
      { destruct (exec_sound _ _ _ _ _ E) as (m0 & rest & Hs & Hn0 & _).
        rewrite Hs, Hn0, length_app. lia. }
      destruct (free_take_tokens (P i :: ts) (S n0)) as (ts2 & E1 & _).
      { rewrite render_cons. exact Hk. }
      { rewrite render_cons. cbn [renderTok]. apply HitP_free.
        rewrite placeholder_unfold in E, Hhits |- *.
        cbn [app scan] in E, Hhits |- *. rewrite E in Hhits.
        apply Forall_cons in Hhits as [[Hm|Hm] _]; [|discriminate].
        exact Hm. }
      { rewrite render_cons. exact Hend. }
      rewrite render_cons in E1. cbn [renderTok] in E1.
      rewrite placeholder_unfold in E1. cbn [app take map] in E1.
      discriminate. }
    rewrite (guarded_keep_placeholder i prev (render ts) E) in *.
    rewrite hits_keeps in Hinv. apply goodHits_keeps in Hhits.
    rewrite replaceFunc_keeps.
    assert (Hlen0 : length ts <= n) by (cbn [length] in Hlen; lia).
    destruct (IH ts _ st Hlen0 Hhits Hinv)
      as (st' & ts' & -> & Hinv' & Hts' & Hph & HR').
    exists st', (P i :: ts'). rewrite render_cons.
    split; [reflexivity|]. split; [exact Hinv'|]. split; [|split].
    + intros x j H. rewrite skeleton_cons in H |- *.
      rewrite app_assoc in H |- *. apply Hts', H.
    + cbn [pholders]. rewrite Hph. reflexivity.
    + apply (R_app (placeholder i) (placeholder i)); [apply R_refl|exact HR'].
Qed.
End Protect.
End Guarded.
(** * The renamer on a shielded text *)

Lemma declRe_guarded : guarded declRe.
Proof.
  intros prev s n caps E.
  destruct (declRe_exec _ _ _ _ E) as (c0 & id0 & Hcap & Hword).
  destruct (exec_sound _ _ _ _ _ E) as (m & rest & -> & -> & M).
  change (replicate (ngroups declRe) []) with [@nil ascii; []] in M.
  apply declRe_inv in M
    as (kw & ws & c & id & -> & -> & _ & _ & _ & _ & _ & Hp & Hx).
  cbn [nth] in Hcap. inversion Hcap; subst c0 id0.
  split; [rewrite !length_app; cbn [length]; lia|].
  split; [exact Hp|].
  rewrite drop_app_length. rewrite Hword in Hx.
  destruct (wordAfter rest); [discriminate|reflexivity].
Qed.

Lemma usage_guarded o :
  o <> [] -> forallb isWord o = true ->
  guarded (Seq WordBoundary (Seq (Lit o) WordBoundary)).
Proof.
  intros Hne Hw prev s n caps E.
  apply (usage_exec_sound o Hne Hw) in E as (Hp & rest & -> & Hr & ->).
  split; [|split; [exact Hp|rewrite drop_app_length; exact Hr]].
  intros H. symmetry in H. exact (length_nonempty o Hne H).
Qed.

Lemma hitTexts_goodHits HitP ps : Forall HitP (hitTexts ps) -> goodHits HitP ps.
Proof.
  unfold goodHits.
  induction ps as [|[c|m caps] ps IH]; cbn [hitTexts]; intros H.
  - constructor.
  - constructor; [right; reflexivity|auto].
  - apply Forall_cons in H as [Hm H]. constructor; [left; exact Hm|auto].
Qed.

(** When every match of a pattern has a property, so have the matches of
    a scan. *)
Lemma scan_goodHits HitP r :
  (forall prev s n caps,
      exec r prev s = Some (n, caps) -> HitP (take n s)) ->
  forall s prev adj k, goodHits HitP (scan r prev adj k s).
Proof.
  intros Hr. unfold goodHits.
  induction s as [|c s IH]; intros prev adj k; cbn [scan].
  - destruct k; [|constructor].
    destruct (exec r prev []) as [[n caps]|] eqn:E; [|constructor].
    destruct adj; [constructor|]. constructor; [|constructor].
    left. cbn [source]. rewrite <- (take_nil n). exact (Hr _ _ _ _ E).
  - destruct k as [|k]; [|apply IH].
    destruct (exec r prev (c :: s)) as [[[|n] caps]|] eqn:E.
    + apply Forall_app. split.
      * destruct adj; [constructor|]. constructor; [|constructor].
        left. exact (Hr _ _ _ _ E).
      * constructor; [right; reflexivity|apply IH].
    + constructor; [|apply IH]. left. exact (Hr _ _ _ _ E).
    + constructor; [right; reflexivity|apply IH].
Qed.

Lemma replaceFunc_const {St} (repl : buf) (st : St) ps :
  replaceFunc (fun st _ => Some (st, repl)) st ps
  = Some (st, concat (map (subst (fun _ => repl)) ps)).
Proof.
  induction ps as [|[c|m caps] ps IH]; cbn [replaceFunc map concat subst].
  - reflexivity.
  - rewrite IH. reflexivity.
  - rewrite IH. reflexivity.
Qed.

(** ** Generated names *)

Lemma lower_not_placeholder_char c :
  isLower c = true -> isPlaceholderChar c = false.
Proof.
  intros H.
  pose proof (char_enum
                (fun c => implb (isLower c) (negb (isPlaceholderChar c)))
                eq_refl c) as E.
  cbn beta in E. rewrite H in E. apply negb_true_iff. exact E.
Qed.

Lemma nameChar_not_underscore c : isNameChar c = true -> c <> "_"%char.
Proof. intros H ->. discriminate. Qed.

Lemma lower_nameChar c : isLower c = true -> isNameChar c = true.
Proof. unfold isNameChar. intros ->. reflexivity. Qed.

Lemma shortName_chars short :
  shortName short -> Forall (fun c => isNameChar c = true) short.
Proof.
  intros (c & ds & -> & Hc & Hds). constructor; [|exact Hds].
  apply lower_nameChar, Hc.
Qed.

Lemma specName_short N : (0 <= N)%Z -> shortName (specName N).
Proof.
  intros HN. pose proof (specName_chars N HN) as H. unfold specName in *.
  apply Forall_cons in H as [_ H]. eexists _, _.
  split; [reflexivity|]. split; [|exact H].
  assert (Hall : Forall (fun c => isLower c = true) ("a"%char :: alphabet))
    by (unfold alphabet; cbn [str String.list_ascii_of_string];
        repeat constructor).
  rewrite Forall_forall in Hall. apply Hall.
  destruct (nth_in_or_default (Z.to_nat (N mod 26)) alphabet "a"%char)
    as [Hin| ->]; [right; apply list_elem_of_In, Hin|left].
Qed.

(** A generated name can stand anywhere, and so can a keyword followed by
    a blank and a generated name. *)
Lemma shortName_tame m short : shortName short -> tame m short.
Proof.
  intros (c & ds & -> & Hc & Hds). apply tame_fresh.
  - apply lower_not_placeholder_char, Hc.
  - eapply Forall_impl; [exact Hds|]. apply nameChar_not_underscore.
Qed.

Lemma keyword_name_tame m kw short :
  kw ∈ keywords -> shortName short -> tame m (kw ++ str " " ++ short).
Proof.
  intros Hkw Hshort.
  assert (Hrest : Forall (fun d => d <> "_"%char) short).
  { eapply Forall_impl; [exact (shortName_chars _ Hshort)|].
    apply nameChar_not_underscore. }
  unfold keywords in Hkw. rewrite !elem_of_cons, elem_of_nil in Hkw.
  destruct Hkw as [->|[->|[->|[]]]]; cbn [str String.list_ascii_of_string app];
    (apply tame_fresh; [reflexivity|]);
    repeat (constructor; [discriminate|]); exact Hrest.
Qed.

(** ** The characters the renamer rewrites *)

Lemma keyword_identOrSpace kw :
  kw ∈ keywords -> forallb isIdentOrSpace kw = true.
Proof.
  unfold keywords. rewrite !elem_of_cons, elem_of_nil.
  intros [->|[->|[->|[]]]]; reflexivity.
Qed.

Lemma ident_identOrSpace l :
  forallb isIdentChar l = true -> forallb isIdentOrSpace l = true.
Proof.
  rewrite !forallb_forall. intros H c Hc. unfold isIdentOrSpace.
  rewrite (H c Hc). reflexivity.
Qed.

Lemma word_identOrSpace l :
  forallb isWord l = true -> forallb isIdentOrSpace l = true.
Proof.
  rewrite !forallb_forall. intros H c Hc. specialize (H c Hc).
  unfold isIdentOrSpace, isIdentChar. unfold isWord in H.
  destruct (isLower c), (isUpper c), (isDigit c), (Ascii.eqb c "_");
    cbn in *; congruence.
Qed.

Lemma space_identOrSpace l :
  forallb isSpace l = true -> forallb isIdentOrSpace l = true.
Proof.
  rewrite !forallb_forall. intros H c Hc. unfold isIdentOrSpace.
  rewrite (H c Hc). apply orb_true_r.
Qed.

Lemma nameChar_identChar c : isNameChar c = true -> isIdentChar c = true.
Proof.
  unfold isNameChar, isIdentChar. intros H.
  destruct (isLower c), (isDigit c), (isUpper c); cbn in *; congruence.
Qed.

Lemma shortName_identOrSpace short :
  shortName short -> forallb isIdentOrSpace short = true.
Proof.
  intros H. apply ident_identOrSpace, forallb_forall. intros c Hc.
  pose proof (shortName_chars _ H) as Hall. rewrite Forall_forall in Hall.
  apply nameChar_identChar, Hall, list_elem_of_In, Hc.
Qed.

Lemma written_identOrSpace kw short :
  kw ∈ keywords -> shortName short ->
  forallb isIdentOrSpace (kw ++ str " " ++ short) = true.
Proof.
  intros Hkw Hshort. rewrite forallb_app.
  change (str " " ++ short) with (" "%char :: short). cbn [forallb].
  rewrite (keyword_identOrSpace kw Hkw), (shortName_identOrSpace _ Hshort).
  reflexivity.
Qed.

Lemma identStart_identChar c : isIdentStart c = true -> isIdentChar c = true.
Proof.
  unfold isIdentStart, isIdentChar. intros H.
  destruct (isLower c), (isUpper c), (isDigit c), (Ascii.eqb c "_"),
    (Ascii.eqb c "$"); cbn in *; congruence.
Qed.

Lemma sameMarks_refl s : sameMarks s s.
Proof. intros c _. reflexivity. Qed.

Lemma sameMarks_app a b a' b' :
  sameMarks a b -> sameMarks a' b' -> sameMarks (a ++ a') (b ++ b').
Proof.
  intros H1 H2 c Hc. rewrite !count_app, (H1 c Hc), (H2 c Hc). reflexivity.
Qed.

Lemma sameMarks_trans a b c : sameMarks a b -> sameMarks b c -> sameMarks a c.
Proof. intros H1 H2 d Hd. rewrite (H1 d Hd). apply H2, Hd. Qed.

(** Two texts of identifier characters and whitespace have no other
    character. *)
Lemma sameMarks_quiet a b :
  forallb isIdentOrSpace a = true -> forallb isIdentOrSpace b = true ->
  sameMarks a b.
Proof.
  intros Ha Hb c Hc.
  rewrite (count_zero_outside isIdentOrSpace c a Ha Hc).
  rewrite (count_zero_outside isIdentOrSpace c b Hb Hc). reflexivity.
Qed.

(** A declaration site is made of identifier characters and whitespace. *)
Lemma site_identOrSpace prev s n caps :
  exec declRe prev s = Some (n, caps) ->
  forallb isIdentOrSpace (take n s) = true.
Proof.
  intros E. destruct (exec_take _ _ _ _ _ E) as (rest & _ & M).
  change (replicate (ngroups declRe) []) with [@nil ascii; []] in M.
  apply declRe_inv in M
    as (kw & ws & c & id & Hm & _ & Hkw & _ & Hws & Hc & Hid & _).
  rewrite Hm, !forallb_app. cbn [forallb].
  rewrite (keyword_identOrSpace kw Hkw), (space_identOrSpace ws Hws).
  rewrite (ident_identOrSpace id Hid). unfold isIdentOrSpace at 1.
  rewrite (identStart_identChar c Hc). reflexivity.
Qed.

Lemma free_part pre s post :
  placeholderFree (pre ++ s ++ post) -> placeholderFree s.
Proof.
  intros H j. specialize (H j). apply contains_false_app in H.
  eapply contains_app_l, H.
Qed.

(** The closure of the declaration scan on a declaration site that holds
    no placeholder and whose identifier compiles: what it writes makes no
    placeholder, and what it records is an identifier of that kind. *)
Lemma declare_site k m prev s n caps :
  renamerInv (S k) m ->
  exec declRe prev s = Some (n, caps) -> fairSite (take n s) ->
  exists m' new,
    declare m (take n s) = Some (m', new)
    /\ renamerInv k m' /\ tame (take n s) new /\ sameMarks (take n s) new.
Proof.
  intros [Hinv Hkeys] E [Hfree Hlarge].
  destruct (declare_step k m (take n s) Hinv) as (m' & new & Ed & Hinv').
  exists m', new. split; [exact Ed|].
  pose proof (site_identOrSpace prev s n caps E) as Hsite.
  destruct (declare_name m (take n s))
    as [E'|(kw & c & id & pre & post & Hkw & Hname & Hsplit & Hid & Hword
            & [(short & L & E')|(L & E')])].
  - rewrite E' in Ed. inversion Ed; subst m' new.
    split; [split; assumption|]. split; [apply tame_refl|apply sameMarks_refl].
  - rewrite E' in Ed. inversion Ed; subst m' new.
    split; [split; assumption|].
    destruct (Hkeys _ _ L) as (_ & _ & _ & _ & Hshort).
    split; [apply keyword_name_tame; assumption|].
    apply sameMarks_quiet; [exact Hsite|].
    apply written_identOrSpace; assumption.
  - destruct Hinv as (H0 & H1 & H2). rewrite (E' H0) in Ed.
    inversion Ed; subst m' new. clear Ed.
    pose proof (specName_short _ H0) as Hshort.
    split; [split; [exact Hinv'|]|split].
    + cbn [varMap setVarMap setVarCounter].
      apply map_Forall_insert_2; [|exact Hkeys].
      split; [exact Hid|]. split.
      { rewrite <- after_cons with (prev := None) in Hword.
        unfold after in Hword.
        destruct (last (c :: id)) as [x|]; [exact Hword|discriminate]. }
      split; [rewrite <- Hname; exact Hlarge|].
      split; [|exact Hshort].
      rewrite Hsplit in Hfree. eapply free_part, Hfree.
    + apply keyword_name_tame; assumption.
    + apply sameMarks_quiet; [exact Hsite|].
      apply written_identOrSpace; assumption.
Qed.

(** The usage pass rewrites the text between the placeholders: the
    pattern of an identifier with a dollar matches nowhere, and the
    pattern of any other matches whole words equal to the identifier,
    which holds no placeholder. *)
Lemma usages_protect entries :
  Forall (fun e : buf * buf =>
            forallb isIdentChar e.1 = true
            /\ wordBefore (last e.1) = true
            /\ tooLarge e.1 = false
            /\ placeholderFree e.1
            /\ shortName e.2)
         entries ->
  forall ts,
    exists ts',
      replaceUsages entries (render ts) = Some (render ts')
      /\ (forall x j,
             contains (x ++ skeleton ts') (placeholder j) = true ->
             contains (x ++ skeleton ts) (placeholder j) = true)
      /\ pholders ts' = pholders ts
      /\ sameMarks (render ts) (render ts').
Proof.
  induction 1
    as [|[o short] entries (Ho1 & Ho2 & Ho3 & Ho4 & Hshort) _ IH];
    intros ts; cbn [replaceUsages].
  - exists ts. auto using sameMarks_refl.
  - cbn [fst snd] in *.
    destruct (decide ("$"%char ∈ o)) as [Hd|Hd].
    + destruct (isIdentChar_compiles o) as (r & Hr).
      { apply Forall_forall. intros c Hc. rewrite forallb_forall in Ho1.
        apply Ho1, list_elem_of_In, Hc. }
      assert (Hre : usageRe o = Some (Seq WordBoundary (Seq r WordBoundary))).
      { unfold usageRe. rewrite Hr, Ho3. reflexivity. }
      rewrite Hre, (usage_inert o _ short _ Hd Ho2 Hre). apply IH.
    + pose proof (ident_word o Ho1 Hd) as Hw.
      pose proof (last_nonempty o Ho2) as Hne.
      rewrite (usageRe_word o Hw Ho3).
      assert (Hf : forall (k : nat) (st : unit) prev s n caps,
                True ->
                exec (Seq WordBoundary (Seq (Lit o) WordBoundary)) prev s
                = Some (n, caps) ->
                take n s = o ->
                exists st1 new,
                  Some (st, short) = Some (st1, new)
                  /\ True /\ tame (take n s) new /\ sameMarks (take n s) new).
      { intros k st prev s n caps _ Ex Hm. exists st, short.
        split; [reflexivity|]. split; [exact I|].
        split; [apply shortName_tame, Hshort|].
        rewrite Hm. apply sameMarks_quiet;
          [apply ident_identOrSpace, Ho1
          |apply shortName_identOrSpace, Hshort]. }
      assert (Hhits : goodHits (fun m => m = o)
                        (scan (Seq WordBoundary (Seq (Lit o) WordBoundary))
                           None false 0 (render ts))).
      { apply scan_goodHits. intros prev s n caps Ex.
        apply (usage_exec_sound o Hne Hw) in Ex as (_ & rest & -> & _ & ->).
        apply take_app_length. }
      pose proof (protect _ (usage_guarded o Hne Hw)
                    (fun (st : unit) (_ : buf) => Some (st, short))
                    (fun _ _ => True) sameMarks (fun m => m = o)
                    sameMarks_refl sameMarks_app
                    (fun m (Hm : m = o) => eq_ind_r placeholderFree Ho4 Hm)
                    Hf (length ts) ts None tt
                    (Nat.le_refl _) Hhits I)
        as (st' & ts1 & E & _ & Hts1 & Hph & HR).
      rewrite replaceFunc_const in E.
      assert (Eout := f_equal (fun x : option (unit * buf) =>
                                 match x with Some (_, b) => b | None => [] end)
                        E).
      cbn beta iota in Eout. unfold ReplaceAllString, matches. rewrite Eout.
      destruct (IH ts1) as (ts' & E' & Hts' & Hph' & HR').
      exists ts'. split; [exact E'|]. split; [auto|].
      split; [rewrite Hph'; exact Hph|].
      exact (sameMarks_trans _ _ _ HR HR').
Qed.

Lemma rangeMap_elem (o : RangeOrder) (m : gmap buf buf) (e : buf * buf) :
  e ∈ rangeMap o m <-> m !! e.1 = Some e.2.
Proof.
  unfold rangeMap. rewrite (visit_perm o). destruct e as [k v].
  apply elem_of_map_to_list.
Qed.

Lemma renamerInv_le k k' m : k' <= k -> renamerInv k m -> renamerInv k' m.
Proof.
  unfold renamerInv, declInv. intros Hk ((H0 & H1 & H2) & H3).
  split; [|exact H3]. split; [exact H0|]. split; [lia|exact H2].
Qed.

Lemma clean_skeleton ts ts' :
  (forall x j,
      contains (x ++ skeleton ts') (placeholder j) = true ->
      contains (x ++ skeleton ts) (placeholder j) = true) ->
  cleanToks ts -> cleanToks ts'.
Proof.
  intros H Hts j.
  destruct (contains (skeleton ts') (placeholder j)) eqn:E; [|reflexivity].
  apply (H [] j) in E. rewrite <- (Hts j). symmetry. exact E.
Qed.

Section Shielding.
Variables ordVars ordLits : RangeOrder.

(** The renamer on a text that, with two underscores on both sides of
    each literal, holds no placeholder, and whose declaration sites hold
    no placeholder and declare identifiers that compile: the placeholders
    stand in the text once each, through the declaration scan and the
    usage pass, and the restoration puts the literal of each in its
    place. *)
Lemma shorten_structure m B :
  placeholderFree (padded B) ->
  Forall fairSite (declarationSites B) ->
  renamerInv (countIf isLowerOrSpace B) m ->
  exists lits m' code2 ts',
    ReplaceAllStringFunc stringRe shield ∅ B = Some (lits, shielded B)
    /\ ReplaceAllStringFunc declRe declare m (shielded B) = Some (m', code2)
    /\ replaceUsages (rangeMap ordVars (varMap m')) code2 = Some (render ts')
    /\ cleanToks ts'
    /\ pholders ts' = seq 0 (length (literals B))
    /\ sameMarks (shielded B) (render ts')
    /\ restoreStrings (rangeMap ordLits lits) (render ts')
       = fillTokens (literals B) ts'
    /\ shortenVariableNames ordVars ordLits m B
       = Some (fillTokens (literals B) ts', m').
Proof.
  intros HB Hsites Hinv.
  destruct (shield_spec B) as (lits & E1 & Hlits).
  pose proof (shield_clean _ HB 0) as Hts1.
  pose proof (pholders_shieldTokens (matches stringRe B) 0) as Hph1.
  rewrite <- hits_hitTexts in Hph1. fold (literals B) in Hph1.
  pose proof (hitTexts_free _ HB) as Hfree. fold (literals B) in Hfree.
  pose proof (hitTexts_quoted _ (matches_hits stringRe B)) as Hquoted.
  fold (literals B) in Hquoted.
  (* the declaration scan *)
  assert (Hcount : hits (matches declRe (shielded B))
                   <= countIf isLowerOrSpace B).
  { pose proof (shield_lowerOrSpace _ _ _ _ E1) as Hle.
    rewrite matches_source in Hle.
    pose proof (hits_bound isLowerOrSpace declRe (shielded B)) as Hh.
    change (minCountIf isLowerOrSpace declRe) with 4 in Hh. lia. }
  pose proof (protect _ declRe_guarded declare renamerInv sameMarks fairSite
                sameMarks_refl sameMarks_app (fun m H => proj1 H) declare_site
                (length (shieldTokens 0 (matches stringRe B)))
                (shieldTokens 0 (matches stringRe B)) None m
                (Nat.le_refl _) (hitTexts_goodHits _ _ Hsites)
                (renamerInv_le _ _ _ Hcount Hinv))
    as (m' & ts2 & E2 & [_ Hkeys] & Hts2 & Hph2 & HR2).
  change (replaceFunc declare m
            (scan declRe None false 0
               (render (shieldTokens 0 (matches stringRe B)))))
    with (ReplaceAllStringFunc declRe declare m (shielded B)) in E2.
  (* the usage pass *)
  destruct (usages_protect (rangeMap ordVars (varMap m'))) with (ts := ts2)
    as (ts3 & E3 & Hts3 & Hph3 & HR3).
  { apply Forall_forall. intros e He. apply rangeMap_elem in He.
    exact (Hkeys _ _ He). }
  assert (Hclean : cleanToks ts3).
  { eapply clean_skeleton; [exact Hts3|].
    eapply clean_skeleton; [exact Hts2|exact Hts1]. }
  (* the restoration *)
  assert (E4 : restoreStrings (rangeMap ordLits lits) (render ts3)
               = fillTokens (literals B) ts3).
  { rewrite restoreStrings_render; [|
      |exact Hclean].
    - apply restore_fills.
      + apply Forall_forall. intros [ph l] He. apply rangeMap_elem in He.
        cbn [fst snd] in He. apply Hlits in He as (j & _ & -> & ->). eauto.
      + intros i Hi. rewrite Hph3, Hph2, Hph1 in Hi.
        apply elem_of_seq in Hi.
        exists (placeholder i, nth i (literals B) []).
        split; [|reflexivity]. apply rangeMap_elem. apply Hlits.
        exists i. split; [lia|auto].
    - apply Forall_forall. intros [ph l] He. apply rangeMap_elem in He.
      cbn [fst snd] in He. apply Hlits in He as (j & Hj & -> & ->).
      split; [eauto|]. cbn [snd].
      rewrite Forall_forall in Hfree, Hquoted.
      split; [apply Hquoted|apply Hfree]; apply list_elem_of_In, nth_In, Hj. }
  exists lits, m', (render ts2), ts3.
  split; [exact E1|]. split; [exact E2|]. split; [exact E3|].
  split; [exact Hclean|]. split; [rewrite Hph3, Hph2; exact Hph1|].
  split; [exact (sameMarks_trans _ _ _ HR2 HR3)|].
  split; [exact E4|].
  unfold shortenVariableNames. rewrite E1, E2, E3, E4. reflexivity.
Qed.
End Shielding.

(** ** The text handed to the renamer *)

Lemma steps_plain :
  forallb (fun st : step => forallb plainChar st.2) (commentSteps ++ compactSteps)
  = true.
Proof. vm_compute. reflexivity. Qed.

Lemma compacted_plain pl src : plainText src -> plainText (compacted pl src).
Proof.
  unfold plainText, compacted, uncommented. intros H.
  destruct (extractLicense_parts pl src) as (license & rest & Hs & -> & _).
  rewrite Hs, forallb_app in H. apply andb_true_iff in H as [_ H].
  pose proof steps_plain as Hsteps.
  rewrite forallb_app in Hsteps. apply andb_true_iff in Hsteps as [H1 H2].
  assert (Hall : forall steps s,
             forallb (fun st : step => forallb plainChar st.2) steps = true ->
             forallb plainChar s = true ->
             forallb plainChar (rewrite steps s) = true).
  { intros steps s Hst Hplain. apply forallb_forall. intros c Hc.
    apply list_elem_of_In in Hc. revert c Hc. apply Forall_forall.
    apply rewrite_Forall.
    - apply Forall_forall. intros st Hin. apply Forall_forall. intros c Hc.
      rewrite forallb_forall in Hst.
      apply list_elem_of_In, Hst in Hin. rewrite forallb_forall in Hin.
      apply Hin, list_elem_of_In, Hc.
    - apply Forall_forall. intros c Hc. rewrite forallb_forall in Hplain.
      apply Hplain, list_elem_of_In, Hc. }
  auto.
Qed.

Lemma renamerInv_fresh src pl sv k :
  (Z.of_nat k <= int_max)%Z -> renamerInv k (NewMinifier src pl sv).
Proof.
  intros Hk. split; [apply declInv_fresh; exact Hk|].
  cbn [varMap NewMinifier]. apply map_Forall_empty.
Qed.

Lemma fair_sites code :
  Forall placeholderFree (declarationSites code) -> compilable code ->
  Forall fairSite (declarationSites code).
Proof.
  unfold compilable, declaredNames. rewrite Forall_map. intros H1 H2.
  rewrite Forall_forall in *. intros site Hsite. split; auto.
Qed.

(** [Minify] with the renamer, on an input for which the text handed to
    the renamer holds no placeholder, also with two underscores on both
    sides of each literal, no declaration site holds a placeholder, and
    the declared identifiers compile. *)
Lemma minified_structure (ordVars ordLits : RangeOrder) src pl :
  validString src ->
  placeholderFree (padded (compacted pl src)) ->
  Forall placeholderFree (declarationSites (compacted pl src)) ->
  compilable (compacted pl src) ->
  exists lits m' code2 ts',
    ReplaceAllStringFunc stringRe shield ∅ (compacted pl src)
    = Some (lits, shielded (compacted pl src))
    /\ ReplaceAllStringFunc declRe declare (NewMinifier src pl true)
         (shielded (compacted pl src)) = Some (m', code2)
    /\ replaceUsages (rangeMap ordVars (varMap m')) code2 = Some (render ts')
    /\ cleanToks ts'
    /\ pholders ts' = seq 0 (length (literals (compacted pl src)))
    /\ sameMarks (shielded (compacted pl src)) (render ts')
    /\ restoreStrings (rangeMap ordLits lits) (render ts')
       = fillTokens (literals (compacted pl src)) ts'
    /\ minified ordVars ordLits src pl true
       = Some ((extractLicense pl src).1
                 ++ fillTokens (literals (compacted pl src)) ts').
Proof.
  intros Hvalid Hsrc Hsites Hcomp.
  destruct (shorten_structure ordVars ordLits (NewMinifier src pl true)
              (compacted pl src))
    as (lits & m' & code2 & ts' & E1 & E2 & E3 & Hts & Hph & HR & E4 & E5).
  - exact Hsrc.
  - apply fair_sites; assumption.
  - apply renamerInv_fresh. pose proof (compact_lowerOrSpace pl src) as Hle.
    unfold validString in Hvalid. unfold compacted. lia.
  - exists lits, m', code2, ts'. repeat (split; [assumption|]).
    unfold minified. rewrite Minify_unfold.
    cbn [preserveLicense input shortenVars NewMinifier].
    unfold compacted, uncommented in E5 |- *.
    destruct (extractLicense pl src) as [lic rest]. cbn [fst snd] in *.
    cbn zeta. rewrite E5. reflexivity.
Qed.

(** ** Occurrences of a placeholder *)

Lemma occurrences_skip sub w :
  forall s,
    (forall v u, w = v ++ u -> u <> [] -> prefixb sub (u ++ s) = false) ->
    occurrences sub (w ++ s) = occurrences sub s.
Proof.
  induction w as [|c w IH]; intros s H; [reflexivity|].
  cbn [app occurrences].
  pose proof (H [] (c :: w) eq_refl) as H0. cbn [app] in H0.
  rewrite H0 by discriminate. cbn [Nat.add]. apply IH.
  intros v u E Hu. apply (H (c :: v) u); [rewrite E; reflexivity|exact Hu].
Qed.

Lemma occurrences_render j ts :
  cleanToks ts ->
  occurrences (placeholder j) (render ts) = countP j ts.
Proof.
  induction ts as [|[c|i] ts IH]; cbn [countP]; intros Hts.
  - rewrite placeholder_unfold. reflexivity.
  - rewrite render_cons. cbn [renderTok app occurrences].
    rewrite no_placeholder_at_char by exact Hts.
    cbn [Nat.add]. eapply IH, cleanToks_tail, Hts.
  - rewrite render_cons. cbn [renderTok].
    destruct (placeholder i) as [|p0 p] eqn:Ep;
      [destruct (placeholder_nonempty i Ep)|].
    cbn [app occurrences]. rewrite occurrences_skip.
    + rewrite (IH (cleanToks_tail _ _ Hts)). f_equal.
      change (p0 :: p ++ render ts) with ((p0 :: p) ++ render ts).
      rewrite <- Ep. case_bool_decide as Hij.
      * subst j. rewrite prefixb_app. reflexivity.
      * rewrite (no_placeholder_inside i j [] (placeholder i) ts);
          [reflexivity|reflexivity|apply placeholder_nonempty|
           right; exact Hij|exact Hts].
    + intros v u E Hu.
      apply (no_placeholder_inside i j (p0 :: v) u ts);
        [rewrite Ep, E; reflexivity|exact Hu|left; discriminate|exact Hts].
Qed.

Lemma countP_shieldTokens j ps :
  forall k,
    countP j (shieldTokens k ps)
    = if (k <=? j) && (j <? k + hits ps) then 1 else 0.
Proof.
  induction ps as [|[c|m caps] ps IH]; intros k;
    cbn [shieldTokens countP hits].
  - destruct (Nat.leb_spec k j), (Nat.ltb_spec j (k + 0));
      cbn [andb]; (reflexivity || lia).
  - apply IH.
  - rewrite IH. case_bool_decide as Hkj;
      destruct (Nat.leb_spec k j), (Nat.leb_spec (S k) j),
        (Nat.ltb_spec j (S k + hits ps)), (Nat.ltb_spec j (k + S (hits ps)));
      cbn [andb Nat.add]; (reflexivity || lia).
Qed.

(** In the shielded form of a text that, with two underscores on both
    sides of each literal, holds no placeholder, the placeholders below the
    number of literals occur once each, and no other does. *)
Lemma shielded_occurrences B j :
  placeholderFree (padded B) ->
  occurrences (placeholder j) (shielded B)
  = if j <? length (literals B) then 1 else 0.
Proof.
  intros HB. unfold shielded. rewrite occurrences_render.
  - rewrite countP_shieldTokens. unfold literals. rewrite hits_hitTexts.
    reflexivity.
  - apply shield_clean, HB.
Qed.

Lemma pholders_split i ts :
  i ∈ pholders ts -> exists ts1 ts2, ts = ts1 ++ P i :: ts2.
Proof.
  induction ts as [|[c|k] ts IH]; cbn [pholders]; intros H.
  - apply elem_of_nil in H. contradiction.
  - destruct (IH H) as (ts1 & ts2 & ->). exists (T c :: ts1), ts2. reflexivity.
  - apply elem_of_cons in H as [->|H].
    + exists [], ts. reflexivity.
    + destruct (IH H) as (ts1 & ts2 & ->). exists (P k :: ts1), ts2.
      reflexivity.
Qed.

(** A text with all literals filled in contains the literal of each of
    its placeholders. *)
Lemma fill_contains texts ts pre lit :
  pholders ts = seq 0 (length texts) -> lit ∈ texts ->
  contains (pre ++ fillTokens texts ts) lit = true.
Proof.
  intros Hph Hlit. apply list_elem_of_In, (In_nth _ _ []) in Hlit
    as (i & Hi & Hnth).
  assert (Hin : i ∈ pholders ts) by (rewrite Hph; apply elem_of_seq; lia).
  apply pholders_split in Hin as (ts1 & ts2 & ->).
  rewrite fillTokens_app, fillTokens_cons. cbn [fillTok]. rewrite Hnth.
  apply contains_spec.
  exists (pre ++ fillTokens texts ts1), (fillTokens texts ts2).
  rewrite <- !app_assoc. reflexivity.
Qed.
Lemma countP_seq j ts :
  forall k n,
    pholders ts = seq k n ->
    countP j ts = if (k <=? j) && (j <? k + n) then 1 else 0.
Proof.
  induction ts as [|[c|i] ts IH]; intros k n H; cbn [pholders countP] in *.
  - destruct n; [|discriminate].
    destruct (Nat.leb_spec k j), (Nat.ltb_spec j (k + 0));
      cbn [andb]; (reflexivity || lia).
  - apply IH, H.
  - destruct n as [|n]; [discriminate|]. cbn [seq] in H.
    inversion H as [[Hi Hrest]]. rewrite (IH _ _ Hrest).
    case_bool_decide as Hkj;
      destruct (Nat.leb_spec k j), (Nat.leb_spec (S k) j),
        (Nat.ltb_spec j (S k + n)), (Nat.ltb_spec j (k + S n));
      cbn [andb Nat.add]; (reflexivity || lia).
Qed.

(** * String literals and the renamer *)







(** * The end-to-end example *)

(** C7. On the example input of the specification, with both options off,
    [Minify] returns [functiontest(a,b){return a\+b;}]: the replacement of
    the operator step is the pattern text, backslash included, so the output
    differs from the expected [function test(a,b){return a+b;}] even after
    all whitespace is deleted from both. *)
Theorem Minify_basic_example (ordVars ordLits : RangeOrder) :
  minified ordVars ordLits basicInput false false
  = Some (str "functiontest(a,b){return a\+b;}")
  /\ normalizeWhitespace (str "functiontest(a,b){return a\+b;}")
     <> normalizeWhitespace basicExpected.
Proof.
  split.
  - vm_compute. reflexivity.
  - vm_compute. discriminate.
Qed.

(** * Brackets *)

Lemma count_fill c texts ts :
  isIdentOrSpace c = false ->
  count c (fillTokens texts ts)
  = count c (render ts)
    + sum_list_with (fun i => count c (nth i texts [])) (pholders ts).
Proof.
  intros Hc. induction ts as [|[d|i] ts IH]; [reflexivity| |].
  - rewrite fillTokens_cons, render_cons, !count_app, IH.
    cbn [fillTok renderTok pholders]. lia.
  - rewrite fillTokens_cons, render_cons, !count_app, IH.
    cbn [fillTok renderTok pholders sum_list_with].
    rewrite (count_zero_outside isIdentOrSpace c (placeholder i)
               (word_identOrSpace _ (placeholder_word i)) Hc).
    lia.
Qed.

Lemma fill_sameMarks texts ts ts' :
  pholders ts = pholders ts' ->
  sameMarks (render ts) (render ts') ->
  sameMarks (fillTokens texts ts) (fillTokens texts ts').
Proof.
  intros Hph HR c Hc. rewrite !count_fill by exact Hc.
  rewrite Hph, (HR c Hc). reflexivity.
Qed.

(** When the text handed to the renamer and its declaration sites hold no
    placeholder and the declared identifiers compile, the renamer changes
    identifier characters and whitespace only. *)
Lemma minified_marks (ordVars ordLits : RangeOrder) src pl :
  validString src ->
  placeholderFree (padded (compacted pl src)) ->
  Forall placeholderFree (declarationSites (compacted pl src)) ->
  compilable (compacted pl src) ->
  exists out,
    minified ordVars ordLits src pl true
    = Some ((extractLicense pl src).1 ++ out)
    /\ sameMarks (compacted pl src) out.
Proof.
  intros Hvalid Hsrc Hsites Hcomp.
  destruct (minified_structure ordVars ordLits src pl Hvalid Hsrc Hsites Hcomp)
    as (lits & m' & code2 & ts' & _ & _ & _ & _ & Hph & HR & _ & E).
  eexists. split; [exact E|].
  pose proof (fill_sameMarks (literals (compacted pl src))
                (shieldTokens 0 (matches stringRe (compacted pl src))) ts')
    as H.
  rewrite shielded_fill in H. apply H; [|exact HR].
  rewrite pholders_shieldTokens, Hph. unfold literals.
  rewrite hits_hitTexts. reflexivity.
Qed.

Lemma bracket_mark c : c ∈ brackets -> isIdentOrSpace c = false.
Proof.
  unfold brackets. rewrite !elem_of_cons, elem_of_nil.
  intros [->|[->|[->|[->|[->|[->|[]]]]]]]; reflexivity.
Qed.

Lemma shortened_brackets ordVars ordLits src pl c :
  c ∈ brackets ->
  validString src ->
  placeholderFree (padded (compacted pl src)) ->
  Forall placeholderFree (declarationSites (compacted pl src)) ->
  compilable (compacted pl src) ->
  exists out license rest,
    minified ordVars ordLits src pl true = Some out
    /\ src = license ++ rest
    /\ (extractLicense pl src).2 = rest
    /\ count c out = count c license + count c (rewrite commentSteps rest).
Proof.
  intros Hc Hvalid Hsrc Hsites Hcomp.
  destruct (minified_marks ordVars ordLits src pl Hvalid Hsrc Hsites Hcomp)
    as (out & E & HR).
  destruct (extractLicense_parts pl src)
    as (license & rest & Hs & Hrest & Hlic).
  eexists _, license, rest. split; [exact E|].
  split; [exact Hs|]. split; [exact Hrest|].
  rewrite count_app, <- (HR c (bracket_mark c Hc)).
  unfold compacted, uncommented. rewrite Hrest.
  rewrite rewrite_keepsCount.
  2:{ pose proof compactSteps_brackets as H. rewrite forallb_forall in H.
      apply H, list_elem_of_In, Hc. }
  f_equal. destruct Hlic as [[-> ->]|[-> _]]; [reflexivity|].
  rewrite count_app, bracket_not_nl by exact Hc. lia.
Qed.




(** * When [Minify] returns *)



(** C9.  With preserve-license disabled, or when the license pattern finds
    no marked comment at the start of the input, whatever [Minify] returns
    contains no line feed, for every input, both settings of shorten-vars
    and every order of the map iterations.  And [Minify] returns: always
    with shorten-vars disabled, and with shorten-vars enabled when every
    identifier declared in the text handed to the renamer gives a pattern
    that the regexp package compiles (otherwise it panics and there is no
    output).  The line break of the claim is the line feed, which is the
    character that the engine removes: a carriage return is kept.  The
    length of the input is a Go [int]. *)
Theorem Minify_no_newline (ordVars ordLits : RangeOrder) (src : buf)
    (pl sv : bool) :
  validString src ->
  pl = false \/ FindString licenseRe src = [] ->
  (forall out, minified ordVars ordLits src pl sv = Some out -> nl ∉ out)
  /\ ((sv = true -> compilable (compacted pl src)) ->
      exists out, minified ordVars ordLits src pl sv = Some out).
Proof.
  intros Hvalid Hlic. split.
  - unfold minified. rewrite Minify_unfold.
    cbn [preserveLicense shortenVars input NewMinifier].
    assert (E : extractLicense pl src = ([], src)).
    { unfold extractLicense. destruct Hlic as [->| ->]; [reflexivity|].
      destruct pl; reflexivity. }
    pose proof (compact_lowerOrSpace pl src) as Hle.
    unfold uncommented in Hle. rewrite E in *. cbn [snd] in Hle.
    pose proof (compact_no_newline (rewrite commentSteps src)) as Hnl.
    destruct sv.
    + destruct (shortenVariableNames ordVars ordLits (NewMinifier src pl true)
                  (rewrite compactSteps (rewrite commentSteps src)))
        as [[result m']|] eqn:Es; [|discriminate].
      intros out Hout. inversion Hout; subst out. cbn [app].
      assert (Hinv : declInv
                       (countIf isLowerOrSpace
                          (rewrite compactSteps (rewrite commentSteps src)))
                       (NewMinifier src pl true)).
      { apply declInv_fresh. unfold validString in Hvalid. lia. }
      assert (Hcode : Forall (fun c => c <> nl)
                        (rewrite compactSteps (rewrite commentSteps src))).
      { apply Forall_forall. intros c Hc ->. contradiction. }
      assert (Hs : Forall (fun c => c <> nl) result).
      { eapply (shortenVariableNames_sound (fun c => c <> nl));
          [intros c Hc ->; discriminate|discriminate|exact Hinv|exact Hcode
          |exact Es]. }
      rewrite Forall_forall in Hs. intros H. exact (Hs _ H eq_refl).
    + intros out Hout. inversion Hout; subst out. exact Hnl.
  - intros Hcomp. apply minified_returns. intros ->. auto.
Qed.

Lemma Minify_no_newline_witness :
  (forall out,
      minified inOrder reversed
        (str "var x = 1;" ++ nl :: str "let y = 'a';" ++ [nl]) false true
      = Some out -> nl ∉ out)
  /\ ((true = true ->
       compilable
         (compacted false
            (str "var x = 1;" ++ nl :: str "let y = 'a';" ++ [nl]))) ->
      exists out,
        minified inOrder reversed
          (str "var x = 1;" ++ nl :: str "let y = 'a';" ++ [nl]) false true
        = Some out).
Proof.
  apply (Minify_no_newline inOrder reversed
           (str "var x = 1;" ++ nl :: str "let y = 'a';" ++ [nl]) false true).
  - vm_compute. discriminate.
  - left. reflexivity.
Defined.

(** C5.  For every input that starts with the marked opener and contains a
    closing delimiter, whatever [Minify] returns with preserve-license
    enabled starts with the marked comment of the input, from its opener
    up to and including its first closing delimiter, unchanged; a line
    break follows it.  And [Minify] returns: always with shorten-vars
    disabled, and with shorten-vars enabled when the length of the input
    is a Go [int] and every identifier declared in the text handed to the
    renamer gives a pattern that the regexp package compiles (otherwise it
    panics and there is no output). *)
Theorem license_preserved (ordVars ordLits : RangeOrder) (src : buf)
    (sv : bool) :
  prefixb (str "/*!") src = true ->
  contains src (str "*/") = true ->
  exists body rest,
    src = str "/*!" ++ body ++ str "*/" ++ rest
    /\ contains body (str "*/") = false
    /\ (forall out,
           minified ordVars ordLits src true sv = Some out ->
           exists out', out = str "/*!" ++ body ++ str "*/" ++ nl :: out')
    /\ ((sv = true -> validString src /\ compilable (compacted true src)) ->
        exists out, minified ordVars ordLits src true sv = Some out).
Proof.
  intros Hopen Hclose.
  apply prefixb_spec in Hopen as (t & ->).
  assert (Ht : contains t (str "*/") = true).
  { cbn [app str String.list_ascii_of_string contains prefixb] in Hclose.
    change (Ascii.eqb "*" "/") with false in Hclose.
    change (Ascii.eqb "/" "!") with false in Hclose.
    change (Ascii.eqb "*" "!") with false in Hclose.
    rewrite ?andb_false_r in Hclose. exact Hclose. }
  destruct (first_close t Ht) as (body & rest & -> & Hb).
  exists body, rest. split; [reflexivity|]. split; [exact Hb|]. split.
  - unfold minified. rewrite Minify_unfold.
    cbn [preserveLicense shortenVars input NewMinifier].
    rewrite extractLicense_marked by exact Hb.
    destruct (if sv then _ else _) as [[result m'']|]; [|discriminate].
    intros out Hout. inversion Hout; subst out. exists result.
    rewrite <- !app_assoc. reflexivity.
  - apply minified_returns.
Qed.

Lemma license_preserved_witness :
  exists body rest,
    str "/*! MIT */ var x = 1; /* c */" = str "/*!" ++ body ++ str "*/" ++ rest
    /\ contains body (str "*/") = false
    /\ (forall out,
           minified inOrder inOrder (str "/*! MIT */ var x = 1; /* c */")
             true true = Some out ->
           exists out', out = str "/*!" ++ body ++ str "*/" ++ nl :: out')
    /\ ((true = true ->
         validString (str "/*! MIT */ var x = 1; /* c */")
         /\ compilable (compacted true (str "/*! MIT */ var x = 1; /* c */"))) ->
        exists out,
          minified inOrder inOrder (str "/*! MIT */ var x = 1; /* c */")
            true true = Some out).
Proof.
  apply (license_preserved inOrder inOrder
           (str "/*! MIT */ var x = 1; /* c */") true).
  - reflexivity.
  - reflexivity.
Defined.

(** * What the compaction changes *)

Lemma stripped_app a b : stripped (a ++ b) = stripped a ++ stripped b.
Proof. apply List.filter_app. Qed.

Lemma stripped_spaces m : forallb isSpace m = true -> stripped m = [].
Proof.
  induction m as [|c m IH]; [reflexivity|]. cbn [forallb stripped List.filter].
  intros H. apply andb_true_iff in H as [Hc H]. rewrite Hc. apply IH, H.
Qed.

Lemma stripped_elem c s : isSpace c = false -> c ∈ s -> c ∈ stripped s.
Proof.
  intros Hc H. apply list_elem_of_In, List.filter_In.
  split; [apply list_elem_of_In, H|]. rewrite Hc. reflexivity.
Qed.

Lemma stripped_solid s : countIf isSpace s = 0 -> stripped s = s.
Proof.
  induction s as [|c s IH]; [reflexivity|]. cbn [countIf stripped List.filter].
  destruct (isSpace c); [lia|]. intros H. cbn [negb]. f_equal. apply IH, H.
Qed.

Lemma stripped_no_space s : countIf isSpace (stripped s) = 0.
Proof.
  induction s as [|c s IH]; [reflexivity|]. cbn [stripped List.filter].
  destruct (isSpace c) eqn:E; cbn [negb]; [exact IH|].
  cbn [countIf]. rewrite E. exact IH.
Qed.

(** The whitespace-free text of a match is the one the pattern fixes. *)
Lemma solid_sound r prev m rest caps caps' :
  Matches r prev m rest caps caps' ->
  forall t, solid r = Some t -> stripped m = t.
Proof.
  induction 1 as [| |p d ? ? ? Hd|g p ? m ? ? Hm
                  |r1 r2 ? m1 m2 ? ? ? ? _ IH1 _ IH2
                  |r1 r2 ? ? ? ? ? _ IH|r1 r2 ? ? ? ? ? _ IH
                  |i r ? ? ? ? ? _ IH| | |]; intros t Ht; cbn [solid] in Ht.
  - inversion Ht. reflexivity.
  - inversion Ht. reflexivity.
  - destruct (subclass p isSpace) eqn:E; [|discriminate]. inversion Ht.
    apply stripped_spaces. cbn [forallb].
    rewrite (subclass_sound _ _ _ E Hd). reflexivity.
  - destruct (subclass p isSpace) eqn:E; [|discriminate]. inversion Ht.
    apply stripped_spaces. apply forallb_forall. intros d Hin.
    rewrite forallb_forall in Hm. apply (subclass_sound _ _ _ E), Hm, Hin.
  - destruct (solid r1) as [a|]; [|discriminate].
    destruct (solid r2) as [b|]; [|discriminate]. inversion Ht.
    rewrite stripped_app, (IH1 a eq_refl), (IH2 b eq_refl). reflexivity.
  - destruct (solid r1) as [a|]; [|discriminate].
    destruct (solid r2) as [b|]; [|discriminate].
    case_bool_decide; [|discriminate]. inversion Ht. subst. apply IH.
    reflexivity.
  - destruct (solid r1) as [a|]; [|discriminate].
    destruct (solid r2) as [b|]; [|discriminate].
    case_bool_decide; [|discriminate]. inversion Ht. subst. apply IH.
    reflexivity.
  - apply IH, Ht.
  - inversion Ht. reflexivity.
  - inversion Ht. reflexivity.
  - inversion Ht. reflexivity.
Qed.

Lemma ReplaceAllString_stripped st s :
  spaceOnly st = true ->
  stripped (ReplaceAllString st.1 st.2 s) = stripped s.
Proof.
  destruct st as [r repl]. unfold spaceOnly. cbn [fst snd].
  destruct (solid r) as [t|] eqn:Et; [|discriminate].
  intros H. apply bool_decide_eq_true in H. subst t.
  unfold ReplaceAllString. rewrite <- (matches_source r s) at 2.
  pose proof (matches_hits r s) as Hall.
  induction Hall as [|[c|m caps] ps Hp _ IH]; cbn [map concat subst source].
  - reflexivity.
  - rewrite !stripped_app, IH. reflexivity.
  - rewrite !stripped_app, IH. f_equal. destruct Hp as (prev & rest & M).
    symmetry. apply (solid_sound _ _ _ _ _ _ M). exact Et.
Qed.

Lemma semicolons_inv prev m rest caps caps' :
  Matches semicolonsRe prev m rest caps caps' ->
  exists t, m = str ";;" ++ t.
Proof. unfold semicolonsRe. intros M. invM. eexists. reflexivity. Qed.

Lemma contains_stripped s sub :
  countIf isSpace sub = 0 ->
  contains s sub = true -> contains (stripped s) sub = true.
Proof.
  intros Hsub H. apply contains_spec in H as (pre & post & ->).
  apply contains_spec. exists (stripped pre), (stripped post).
  rewrite !stripped_app, (stripped_solid sub Hsub). reflexivity.
Qed.

(** A step that changes whitespace only, or that finds no match for want
    of a quoted operator or of two semicolons in a row. *)
Lemma step_stripped st s :
  spaceOnly st = true \/ needsQuoted st = true \/ st.1 = semicolonsRe ->
  Forall (fun c => c ∉ stripped s) quotedOperators ->
  contains (stripped s) (str ";;") = false ->
  stripped (ReplaceAllString st.1 st.2 s) = stripped s.
Proof.
  intros [H|[H|H]] Hops Hsemi.
  - apply ReplaceAllString_stripped, H.
  - unfold needsQuoted in H. apply existsb_exists in H as (c & Hc & Hmin).
    apply Nat.leb_le in Hmin. f_equal.
    apply (ReplaceAllString_absent (fun d => Ascii.eqb d c)); [exact Hmin|].
    apply count_zero_iff. intros Hin.
    rewrite Forall_forall in Hops. apply (Hops c).
    + apply list_elem_of_In, Hc.
    + apply stripped_elem; [|exact Hin].
      unfold quotedOperators in Hc. cbn [In] in Hc.
      destruct Hc as [<-|[<-|[<-|[<-|[]]]]]; reflexivity.
  - f_equal. rewrite H. apply ReplaceAllString_no_match.
    intros pre m post prev rest caps caps' -> M.
    apply semicolons_inv in M as (t & ->).
    assert (Hc : contains (pre ++ (str ";;" ++ t) ++ post) (str ";;") = true).
    { apply contains_spec. exists pre, (t ++ post).
      rewrite <- !app_assoc. reflexivity. }
    apply contains_stripped in Hc; [congruence|reflexivity].
Qed.

Lemma rewrite_stripped steps :
  Forall (fun st : step =>
            spaceOnly st = true \/ needsQuoted st = true
            \/ st.1 = semicolonsRe) steps ->
  forall s,
    Forall (fun c => c ∉ stripped s) quotedOperators ->
    contains (stripped s) (str ";;") = false ->
    stripped (rewrite steps s) = stripped s.
Proof.
  unfold rewrite.
  induction 1 as [|[re repl] steps Hst _ IH]; intros s Hops Hsemi;
    cbn [foldl]; [reflexivity|].
  pose proof (step_stripped (re, repl) s Hst Hops Hsemi) as E.
  cbn [fst snd] in E. rewrite IH.
  - exact E.
  - rewrite E. exact Hops.
  - rewrite E. exact Hsemi.
Qed.

Lemma compactSteps_semicolons :
  compactSteps
  = take 16 compactSteps ++ [(semicolonsRe, str ";")] ++ drop 17 compactSteps.
Proof. vm_compute. reflexivity. Qed.

Lemma compactSteps_spaceOnly :
  forallb (fun st => spaceOnly st || needsQuoted st)
          (take 16 compactSteps ++ drop 17 compactSteps) = true.
Proof. vm_compute. reflexivity. Qed.

Lemma compactSteps_stripped :
  Forall (fun st : step =>
            spaceOnly st = true \/ needsQuoted st = true
            \/ st.1 = semicolonsRe) compactSteps.
Proof.
  pose proof compactSteps_spaceOnly as H.
  rewrite forallb_app in H. apply andb_true_iff in H as [H1 H2].
  assert (Hb : forall l,
             forallb (fun st => spaceOnly st || needsQuoted st) l = true ->
             Forall (fun st : step =>
                       spaceOnly st = true \/ needsQuoted st = true
                       \/ st.1 = semicolonsRe) l).
  { intros l Hl. apply Forall_forall. intros st Hin.
    rewrite forallb_forall in Hl. apply list_elem_of_In, Hl in Hin.
    apply orb_true_iff in Hin as [?|?]; auto. }
  rewrite compactSteps_semicolons. apply Forall_app. split; [auto|].
  apply Forall_app. split; [|auto]. constructor; [|constructor].
  right. right. reflexivity.
Qed.

Lemma compactSteps_no_space :
  forallb (noMoreIf isSpace) compactSteps = true.
Proof. vm_compute. reflexivity. Qed.

(** On a text without comment opener, without quoted operator and without
    two semicolons in a row once the whitespace is taken out, the engine
    without renaming changes whitespace only. *)
Lemma minified_stripped ordVars ordLits src pl :
  contains src (str "//") = false ->
  contains src (str "/*") = false ->
  Forall (fun c => c ∉ src) quotedOperators ->
  contains (stripped src) (str ";;") = false ->
  exists license rest,
    src = license ++ rest
    /\ (extractLicense pl src).2 = rest
    /\ minified ordVars ordLits src pl false
       = Some ((extractLicense pl src).1 ++ rewrite compactSteps rest)
    /\ stripped ((extractLicense pl src).1) = stripped license
    /\ stripped (rewrite compactSteps rest) = stripped rest
    /\ countIf isSpace (rewrite compactSteps rest) <= countIf isSpace rest.
Proof.
  intros H1 H2 Hops Hsemi. rewrite minified_plain. unfold uncommented.
  destruct (extractLicense_parts pl src)
    as (license & rest & Hs & Hrest & Hlic).
  exists license, rest. split; [exact Hs|]. split; [exact Hrest|].
  rewrite Hrest. rewrite Hs in H1, H2. apply contains_false_app in H1, H2.
  rewrite commentSteps_no_opener by assumption.
  split; [reflexivity|]. split.
  { destruct Hlic as [[-> ->]|[-> _]]; [reflexivity|].
    rewrite stripped_app, app_nil_r. reflexivity. }
  split; [|apply rewrite_noMoreIf, compactSteps_no_space].
  apply rewrite_stripped; [apply compactSteps_stripped| |].
  - apply Forall_forall. intros c Hc Hin.
    rewrite Forall_forall in Hops. apply (Hops c Hc).
    rewrite Hs, elem_of_app. right.
    apply list_elem_of_In, List.filter_In in Hin as [Hin _].
    apply list_elem_of_In, Hin.
  - rewrite Hs, stripped_app in Hsemi.
    destruct (contains (stripped rest) (str ";;")) eqn:E; [|reflexivity].
    apply contains_spec in E as (pre & post & E).
    rewrite E in Hsemi.
    assert (contains (stripped license ++ pre ++ str ";;" ++ post) (str ";;")
            = true) as Hc.
    { apply contains_spec. exists (stripped license ++ pre), post.
      rewrite <- !app_assoc. reflexivity. }
    congruence.
Qed.

Lemma license_inv prev m rest caps caps' :
  Matches licenseRe prev m rest caps caps' ->
  exists t, m = str "/*" ++ t.
Proof.
  unfold licenseRe. cbn [Lit str String.list_ascii_of_string].
  intros M. invM. eexists. reflexivity.
Qed.

(** Without a comment opener there is no license to set aside. *)
Lemma license_absent pl src :
  contains src (str "/*") = false -> extractLicense pl src = ([], src).
Proof.
  intros H.
  destruct (extractLicense_spec pl src)
    as [E|(license & rest & caps & _ & _ & Hs & Ex & _)]; [exact E|].
  apply exec_sound in Ex as (m & rest' & Hs' & _ & M).
  apply license_inv in M as (t & ->).
  assert (contains src (str "/*") = true); [|congruence].
  apply contains_spec. exists [], (t ++ rest').
  rewrite Hs'. rewrite <- !app_assoc. reflexivity.
Qed.

(** X1. On an input that has no comment opener (neither two slashes nor a
    slash and a star), none of the characters [+ * ? |] and, once its
    whitespace is taken out, no two semicolons in a row, [Minify] without
    renaming changes whitespace only: the output and the input are the
    same text once the whitespace characters are taken out of both. *)
Theorem Minify_whitespace_only (ordVars ordLits : RangeOrder) (src : buf)
    (pl : bool) :
  contains src (str "//") = false ->
  contains src (str "/*") = false ->
  Forall (fun c => c ∉ src) quotedOperators ->
  contains (stripped src) (str ";;") = false ->
  exists out,
    minified ordVars ordLits src pl false = Some out
    /\ stripped out = stripped src.
Proof.
  intros H1 H2 Hops Hsemi.
  destruct (minified_stripped ordVars ordLits src pl H1 H2 Hops Hsemi)
    as (license & rest & Hs & _ & E & Hlic & Hrest & _).
  eexists. split; [exact E|].
  rewrite stripped_app, Hlic, Hrest, Hs, stripped_app. reflexivity.
Qed.

Lemma Minify_whitespace_only_witness :
  exists out,
    minified inOrder inOrder
      (str "if ( a < b ) {" ++ nl :: str "  return a - b ;" ++ nl :: str "}") true false = Some out
    /\ stripped out
       = stripped (str "if ( a < b ) {" ++ nl :: str "  return a - b ;" ++ nl :: str "}").
Proof.
  apply (Minify_whitespace_only inOrder inOrder
           (str "if ( a < b ) {" ++ nl :: str "  return a - b ;" ++ nl :: str "}") true).
  - vm_compute. reflexivity.
  - vm_compute. reflexivity.
  - unfold quotedOperators.
    repeat constructor; apply count_zero_iff; vm_compute; reflexivity.
  - vm_compute. reflexivity.
Defined.

(** X2. An input that is already compact is returned as it is: when the
    input has no whitespace, no comment opener, none of the characters
    [+ * ? |] and no two semicolons in a row, [Minify] without renaming
    returns the input, for both settings of preserve-license. *)
Theorem Minify_compact_input (ordVars ordLits : RangeOrder) (src : buf)
    (pl : bool) :
  countIf isSpace src = 0 ->
  contains src (str "//") = false ->
  contains src (str "/*") = false ->
  Forall (fun c => c ∉ src) quotedOperators ->
  contains src (str ";;") = false ->
  minified ordVars ordLits src pl false = Some src.
Proof.
  intros Hsp H1 H2 Hops Hsemi.
  destruct (minified_stripped ordVars ordLits src pl H1 H2 Hops)
    as (license & rest & _ & Hr & E & _ & Hrest & Hle).
  { rewrite stripped_solid by exact Hsp. exact Hsemi. }
  rewrite E. rewrite (license_absent pl src H2) in Hr |- *.
  cbn [fst snd app] in *. subst rest. f_equal.
  rewrite <- (stripped_solid src Hsp) at 2. rewrite <- Hrest.
  symmetry. apply stripped_solid. lia.
Qed.

Lemma Minify_compact_input_witness :
  minified inOrder inOrder (str "if(a<b){return[a-b];}") true false
  = Some (str "if(a<b){return[a-b];}").
Proof.
  apply (Minify_compact_input inOrder inOrder
           (str "if(a<b){return[a-b];}") true).
  - vm_compute. reflexivity.
  - vm_compute. reflexivity.
  - vm_compute. reflexivity.
  - unfold quotedOperators.
    repeat constructor; apply count_zero_iff; vm_compute; reflexivity.
  - vm_compute. reflexivity.
Defined.

(** * The trimming step and the step on runs of whitespace *)

Lemma trimLeft_length s : length (trimLeft s) <= length s.
Proof.
  induction s as [|c s IH]; [reflexivity|]. cbn [trimLeft].
  destruct (isSpace c); cbn [length]; lia.
Qed.

Lemma trimLeft_head s : headSpace (trimLeft s) = false.
Proof.
  induction s as [|c s IH]; [reflexivity|]. cbn [trimLeft].
  destruct (isSpace c) eqn:E; [exact IH|]. exact E.
Qed.

(** The text is its leading whitespace followed by the rest. *)
Lemma trimLeft_split s :
  exists w,
    s = w ++ trimLeft s /\ forallb isSpace w = true
    /\ length w = length s - length (trimLeft s).
Proof.
  induction s as [|c s (w & Hs & Hw & Hl)]; [exists []; auto|].
  cbn [trimLeft]. destruct (isSpace c) eqn:E.
  - exists (c :: w). cbn [app forallb length]. rewrite E, Hw, <- Hs.
    repeat split. pose proof (trimLeft_length s). lia.
  - exists []. cbn [app forallb length]. repeat split. lia.
Qed.

Lemma trimLeft_solid s : headSpace s = false -> trimLeft s = s.
Proof. destruct s as [|c s]; [reflexivity|]. cbn. intros ->. reflexivity. Qed.

Lemma trimRight_nil s : trimRight s = [] <-> forallb isSpace s = true.
Proof.
  destruct s as [|c s]; [split; reflexivity|]. cbn [trimRight].
  destruct (forallb isSpace (c :: s)); split; congruence.
Qed.

(** The greedy run of whitespace takes all the leading whitespace when
    what follows always succeeds, and the whole text when what follows is
    the end of the text. *)
Lemma starGreedy_spaces {A} (g : buf -> A) s :
  forall prev,
    starGreedy isSpace (fun _ s' => Some (g s')) prev s
    = Some (g (trimLeft s)).
Proof.
  induction s as [|c s IH]; intros prev; cbn [starGreedy trimLeft];
    [reflexivity|].
  destruct (isSpace c); [rewrite IH|]; reflexivity.
Qed.

Lemma starGreedy_end {A} p (g : buf -> A) s :
  forall prev,
    starGreedy p
      (fun _ s' => match s' with [] => Some (g s') | _ :: _ => None end)
      prev s
    = if forallb p s then Some (g []) else None.
Proof.
  induction s as [|c s IH]; intros prev; cbn [starGreedy forallb];
    [reflexivity|].
  destruct (p c); [|reflexivity]. rewrite IH. cbn [andb].
  destruct (forallb p s); reflexivity.
Qed.

(** The matches of the trimming pattern: at the start of the text, the
    leading whitespace; elsewhere, the rest of the text when it is
    whitespace. *)
Lemma exec_trim_start s :
  exec trimRe None s
  = if headSpace s then Some (length s - length (trimLeft s), []) else None.
Proof.
  unfold exec, trimRe, Plus.
  cbn [run ngroups Nat.add replicate].
  destruct s as [|c s]; [reflexivity|]. cbn [headSpace trimLeft].
  destruct (isSpace c); [|reflexivity].
  rewrite (starGreedy_spaces
             (fun s' => (length (c :: s) - length s', @nil buf))).
  reflexivity.
Qed.

Lemma exec_trim_inner p s :
  exec trimRe (Some p) s
  = match s with
    | [] => None
    | _ :: _ => if forallb isSpace s then Some (length s, []) else None
    end.
Proof.
  unfold exec, trimRe, Plus.
  cbn [run ngroups Nat.add replicate].
  destruct s as [|c s]; [reflexivity|]. cbn [forallb].
  destruct (isSpace c); [|reflexivity].
  rewrite (starGreedy_end isSpace
             (fun s' => (length (c :: s) - length s', @nil buf))).
  cbn [andb length]. destruct (forallb isSpace s); [|reflexivity].
  rewrite Nat.sub_0_r. reflexivity.
Qed.

Lemma exec_trim_end q : exec trimRe q [] = None.
Proof. destruct q; reflexivity. Qed.

(** The characters of a match that are passed over lead to the position
    after them. *)
Lemma scan_skip_end r s :
  (forall q, exec r q [] = None) ->
  forall prev adj, scan r prev adj (length s) s = [].
Proof.
  intros Hr. induction s as [|c s IH]; intros prev adj; cbn [scan length].
  - rewrite Hr. reflexivity.
  - apply IH.
Qed.

Lemma scan_skip_any r w s c adj :
  exists p adj',
    scan r (Some c) adj (length w) (w ++ s) = scan r (Some p) adj' 0 s.
Proof.
  destruct w as [|d w].
  - exists c, adj. reflexivity.
  - rewrite scan_skip by discriminate.
    destruct (after (Some c) (d :: w)) as [p|] eqn:E.
    + exists p, true. reflexivity.
    + exfalso. unfold after in E.
      destruct (last (d :: w)); discriminate.
Qed.

(** After the start of the text the trimming step deletes the trailing
    whitespace. *)
Lemma trim_inner t :
  forall p adj,
    concat (map (subst (fun _ => [])) (scan trimRe (Some p) adj 0 t))
    = trimRight t.
Proof.
  induction t as [|c t IH]; intros p adj; cbn [scan].
  - rewrite exec_trim_end. reflexivity.
  - rewrite exec_trim_inner. cbn [trimRight].
    destruct (forallb isSpace (c :: t)).
    + cbn [length map concat subst app].
      rewrite (scan_skip_end trimRe t exec_trim_end). reflexivity.
    + cbn [map concat subst app]. rewrite IH. reflexivity.
Qed.

(** The trimming step on the whole text. *)
Lemma trim_step s : ReplaceAllString trimRe [] s = trimRight (trimLeft s).
Proof.
  unfold ReplaceAllString, matches. destruct s as [|c s]; cbn [scan].
  - rewrite exec_trim_end. reflexivity.
  - rewrite exec_trim_start. cbn [headSpace trimLeft].
    destruct (isSpace c) eqn:Ec.
    + destruct (trimLeft_split s) as (w & Hs & _ & _).
      remember (trimLeft s) as t eqn:Et. clear Et. subst s.
      replace (length (c :: w ++ t) - length t) with (S (length w))
        by (cbn [length]; rewrite length_app; lia).
      cbn [map concat subst app].
      destruct (scan_skip_any trimRe w t c true) as (p & adj & ->).
      apply trim_inner.
    + cbn [map concat subst app]. rewrite trim_inner.
      cbn [trimRight forallb]. rewrite Ec. reflexivity.
Qed.

(** The matches of the pattern of the whitespace runs: two whitespace
    characters and all the whitespace that follows. *)
Lemma exec_spaces prev s :
  exec spacesRe prev s
  = match s with
    | c :: d :: s' =>
        if isSpace c && isSpace d
        then Some (length s - length (trimLeft s'), [])
        else None
    | _ => None
    end.
Proof.
  unfold exec, spacesRe, AtLeast2.
  cbn [run ngroups Nat.add replicate].
  destruct s as [|c [|d s]]; [reflexivity| |].
  - destruct (isSpace c); reflexivity.
  - destruct (isSpace c); [|reflexivity]. destruct (isSpace d); [|reflexivity].
    rewrite (starGreedy_spaces
               (fun s' => (length (c :: d :: s) - length s', @nil buf))).
    reflexivity.
Qed.

Lemma squeeze_head s : headSpace s = false -> squeeze true s = squeeze false s.
Proof.
  destruct s as [|c s]; [reflexivity|]. cbn [headSpace squeeze].
  intros ->. reflexivity.
Qed.

(** The step on the runs of whitespace, from a position inside a match or
    between two matches. *)
Lemma scan_spaces s :
  forall prev adj k,
    k = 0
    \/ (exists w t,
          s = w ++ t /\ length w = k /\ forallb isSpace w = true
          /\ headSpace t = false) ->
    concat (map (subst (fun _ => str " ")) (scan spacesRe prev adj k s))
    = squeeze (negb (k =? 0)) s.
Proof.
  induction s as [|c s IH]; intros prev adj k Hk.
  - cbn [scan]. destruct k; [rewrite exec_spaces|]; reflexivity.
  - cbn [scan]. destruct k as [|k].
    + clear Hk. rewrite exec_spaces. cbn [Nat.eqb negb squeeze].
      destruct s as [|d s].
      * cbn [map concat subst app]. rewrite (IH _ _ 0) by (left; reflexivity).
        cbn [headSpace]. destruct (isSpace c); reflexivity.
      * cbn [headSpace]. destruct (isSpace c) eqn:Ec; cbn [andb].
        -- destruct (isSpace d) eqn:Ed.
           ++ destruct (trimLeft_split s) as (w & Hs & Hw & _).
              remember (trimLeft s) as t eqn:Et.
              assert (Ht : headSpace t = false)
                by (rewrite Et; apply trimLeft_head).
              clear Et. subst s.
              replace (length (c :: d :: w ++ t) - length t)
                with (S (S (length w)))
                by (cbn [length]; rewrite length_app; lia).
              cbn [map concat subst app].
              rewrite (IH _ _ (S (length w))); [reflexivity|].
              right. exists (d :: w), t. cbn [app length forallb].
              rewrite Ed, Hw. auto.
           ++ cbn [map concat subst app].
              rewrite (IH _ _ 0) by (left; reflexivity). reflexivity.
        -- cbn [map concat subst app].
           rewrite (IH _ _ 0) by (left; reflexivity). reflexivity.
    + destruct Hk as [Hk|(w & t & Hs & Hl & Hw & Ht)]; [discriminate|].
      destruct w as [|c' w]; [discriminate|]. cbn [app] in Hs.
      inversion Hs; subst c' s. cbn [forallb] in Hw.
      apply andb_true_iff in Hw as [Hc Hw]. cbn [length] in Hl.
      inversion Hl; subst k. cbn [Nat.eqb negb squeeze]. rewrite Hc.
      destruct w as [|d w].
      * cbn [app length]. rewrite (IH _ _ 0) by (left; reflexivity).
        cbn [Nat.eqb negb]. symmetry. apply squeeze_head, Ht.
      * rewrite IH; [reflexivity|]. right. exists (d :: w), t. auto.
Qed.

Lemma spaces_step s : ReplaceAllString spacesRe (str " ") s = squeeze false s.
Proof.
  unfold ReplaceAllString, matches.
  rewrite (scan_spaces s None false 0) by (left; reflexivity). reflexivity.
Qed.

(** * Whitespace in the compacted text *)

Lemma endsSpace_cons q c s : endsSpace q (c :: s) = endsSpace (isSpace c) s.
Proof.
  unfold endsSpace. destruct s as [|d s]; [reflexivity|].
  change (last (c :: d :: s)) with (last (d :: s)).
  destruct (last (d :: s)) eqn:E; [reflexivity|].
  apply last_None in E. discriminate.
Qed.

Lemma endsSpace_app q a b : endsSpace q (a ++ b) = endsSpace (endsSpace q a) b.
Proof.
  revert q. induction a as [|c a IH]; intros q; [reflexivity|].
  cbn [app]. rewrite !endsSpace_cons. apply IH.
Qed.

Lemma tight_app q a b : tight q (a ++ b) = tight q a && tight (endsSpace q a) b.
Proof.
  revert q. induction a as [|c a IH]; intros q; [reflexivity|].
  cbn [app tight]. rewrite IH, endsSpace_cons, andb_assoc. reflexivity.
Qed.

Lemma tight_head q s : headSpace s = false -> tight q s = tight false s.
Proof.
  destruct s as [|c s]; [reflexivity|]. cbn [headSpace tight].
  intros ->. rewrite andb_false_r. reflexivity.
Qed.

Lemma tight_weaken q s : tight q s = true -> tight false s = true.
Proof.
  destruct s as [|c s]; [reflexivity|]. cbn [tight]. intros H.
  apply andb_true_iff in H as [_ H]. exact H.
Qed.

(** No two whitespace characters of a tight text stand side by side. *)
Lemma tight_pairs pre :
  forall q s c d post,
    tight q s = true -> s = pre ++ c :: d :: post ->
    isSpace c && isSpace d = false.
Proof.
  induction pre as [|x pre IH]; intros q s c d post Ht ->; cbn [app tight] in Ht.
  - apply andb_true_iff in Ht as [_ Ht]. apply andb_true_iff in Ht as [Ht _].
    apply negb_true_iff in Ht. exact Ht.
  - apply andb_true_iff in Ht as [_ Ht]. exact (IH _ _ _ _ _ Ht eq_refl).
Qed.

(** ** The two steps that set the text up *)

Lemma trimRight_head t : headSpace t = false -> headSpace (trimRight t) = false.
Proof.
  destruct t as [|c t]; [reflexivity|]. cbn [trimRight headSpace].
  destruct (forallb isSpace (c :: t)); [reflexivity|]. cbn [headSpace]. auto.
Qed.

Lemma trimRight_end t :
  forall q,
    q = false \/ forallb isSpace t = false ->
    endsSpace q (trimRight t) = false.
Proof.
  induction t as [|c t IH]; intros q Hq.
  - destruct Hq as [->|Hq]; [reflexivity|discriminate].
  - cbn [trimRight]. destruct (forallb isSpace (c :: t)) eqn:E.
    + destruct Hq as [->|Hq]; [reflexivity|discriminate].
    + rewrite endsSpace_cons. apply IH. cbn [forallb] in E.
      apply andb_false_iff in E. exact E.
Qed.

(** After the trimming step the text neither starts nor ends with
    whitespace. *)
Lemma trim_edges s :
  headSpace (ReplaceAllString trimRe [] s) = false
  /\ endsSpace false (ReplaceAllString trimRe [] s) = false.
Proof.
  rewrite trim_step. split.
  - apply trimRight_head, trimLeft_head.
  - apply trimRight_end. left. reflexivity.
Qed.

Lemma squeeze_tight s :
  forall b q,
    (q = true -> b = false -> headSpace s = false) ->
    tight q (squeeze b s) = true.
Proof.
  induction s as [|c s IH]; intros b q Hq; [reflexivity|].
  cbn [squeeze]. destruct (isSpace c) eqn:Ec.
  - destruct b.
    + apply IH. intros _ H. discriminate.
    + assert (q = false) as ->.
      { destruct q; [|reflexivity]. specialize (Hq eq_refl eq_refl).
        cbn [headSpace] in Hq. congruence. }
      destruct (headSpace s) eqn:Es; cbn [tight andb negb].
      * apply IH. intros _ H. discriminate.
      * rewrite Ec. apply IH. intros _ _. reflexivity.
  - cbn [tight]. rewrite Ec, andb_false_r. cbn [negb andb].
    apply IH. intros H. discriminate.
Qed.

Lemma squeeze_last s :
  forall b x,
    isSpace x = false -> exists o, squeeze b (s ++ [x]) = o ++ [x].
Proof.
  induction s as [|c s IH]; intros b x Hx; cbn [app squeeze].
  - rewrite Hx. exists []. reflexivity.
  - destruct (isSpace c).
    + destruct b.
      * apply IH, Hx.
      * destruct (headSpace (s ++ [x])).
        -- destruct (IH true x Hx) as (o & ->). exists (" "%char :: o).
           reflexivity.
        -- destruct (IH false x Hx) as (o & ->). exists (c :: o). reflexivity.
    + destruct (IH false x Hx) as (o & ->). exists (c :: o). reflexivity.
Qed.

Lemma endsSpace_snoc q s x : endsSpace q (s ++ [x]) = isSpace x.
Proof. unfold endsSpace. rewrite last_snoc. reflexivity. Qed.

(** The step on the runs of whitespace makes a text that neither starts
    nor ends with whitespace compact. *)
Lemma spaces_compact s :
  headSpace s = false -> endsSpace false s = false ->
  compactText (ReplaceAllString spacesRe (str " ") s) = true.
Proof.
  intros Hh He. rewrite spaces_step. unfold compactText.
  rewrite squeeze_tight by auto. cbn [andb].
  destruct s as [|c s _] using rev_ind; [reflexivity|].
  rewrite endsSpace_snoc in He.
  destruct (squeeze_last s false c He) as (o & ->).
  rewrite endsSpace_snoc, He. reflexivity.
Qed.

(** ** The later steps *)

Lemma firm_spec repl q :
  firm repl = true ->
  tight q repl = true /\ endsSpace q repl = false.
Proof.
  unfold firm. intros H. apply andb_true_iff in H as [H Ht].
  apply andb_true_iff in H as [Hh He].
  apply negb_true_iff in Hh, He. split.
  - rewrite tight_head by exact Hh. exact Ht.
  - destruct repl as [|c repl]; [discriminate|].
    rewrite endsSpace_cons in *. exact He.
Qed.

(** A scan whose replacement is firm, or is empty while every match starts
    with whitespace, keeps a text tight and does not make it end with
    whitespace. *)
Lemma tight_pieces repl ps :
  Forall (fun pc =>
            isHit pc = true ->
            firm repl = true \/ repl = [] /\ headSpace (source pc) = true)
         ps ->
  forall p q,
    (q = true -> p = true) ->
    tight p (concat (map source ps)) = true ->
    tight q (concat (map (subst (fun _ => repl)) ps)) = true
    /\ (endsSpace q (concat (map (subst (fun _ => repl)) ps)) = true ->
        endsSpace p (concat (map source ps)) = true).
Proof.
  induction 1 as [|[c|m caps] ps Hp _ IH]; intros p q Hq Ht;
    cbn [map concat source subst] in *.
  - split; [reflexivity|exact Hq].
  - cbn [app tight] in *. apply andb_true_iff in Ht as [Hc Ht].
    destruct (IH (isSpace c) (isSpace c)) as [IH1 IH2]; [auto|exact Ht|].
    rewrite !endsSpace_cons. split; [|exact IH2].
    rewrite IH1, andb_true_r. destruct q; [|reflexivity].
    rewrite (Hq eq_refl) in Hc. exact Hc.
  - rewrite tight_app in Ht. apply andb_true_iff in Ht as [Hm Ht].
    rewrite !endsSpace_app.
    destruct (Hp eq_refl) as [Hf|[-> Hh]].
    + destruct (firm_spec repl q Hf) as [H1 H2].
      rewrite tight_app, H1, H2. cbn [andb].
      apply IH; [discriminate|exact Ht].
    + cbn [app]. assert (p = false) as ->.
      { destruct p; [|reflexivity]. destruct m as [|d m]; [discriminate|].
        cbn [headSpace] in Hh. cbn [tight] in Hm. rewrite Hh in Hm.
        discriminate. }
      assert (q = false) as ->
        by (destruct q; [specialize (Hq eq_refl); discriminate|reflexivity]).
      change (endsSpace false []) with false.
      apply IH; [discriminate|exact Ht].
Qed.

Lemma step_compact st s :
  firm st.2 = true
  \/ st.2 = []
     /\ (forall prev m rest caps caps',
            Matches st.1 prev m rest caps caps' -> headSpace m = true) ->
  compactText s = true ->
  compactText (ReplaceAllString st.1 st.2 s) = true.
Proof.
  destruct st as [r repl]. cbn [fst snd]. intros Hst Hs.
  unfold compactText in *. apply andb_true_iff in Hs as [Ht He].
  apply negb_true_iff in He.
  assert (Hps : Forall (fun pc =>
                          isHit pc = true ->
                          firm repl = true
                          \/ repl = [] /\ headSpace (source pc) = true)
                       (matches r s)).
  { eapply Forall_impl; [apply matches_hits|].
    intros [c|m caps] Hp Hhit; [discriminate|].
    destruct Hst as [Hf|[Hr Hm]]; [left; exact Hf|right].
    split; [exact Hr|]. destruct Hp as (prev & rest & M).
    exact (Hm _ _ _ _ _ M). }
  unfold ReplaceAllString.
  destruct (tight_pieces repl _ Hps true true) as [H1 _];
    [auto|rewrite matches_source; exact Ht|].
  destruct (tight_pieces repl _ Hps false false) as [_ H2];
    [auto|rewrite matches_source; apply (tight_weaken true), Ht|].
  rewrite matches_source in H2. rewrite H1. cbn [andb].
  apply negb_true_iff.
  destruct (endsSpace false
              (concat (map (subst (fun _ => repl)) (matches r s)))) eqn:E;
    [|reflexivity].
  rewrite (H2 eq_refl) in He. discriminate.
Qed.

Lemma newlines_inv prev m rest caps caps' :
  Matches newlinesRe prev m rest caps caps' -> headSpace m = true.
Proof.
  unfold newlinesRe, Plus. intros M. invM. cbn [app headSpace].
  match goal with H : Ascii.eqb nl _ = true |- _ =>
    apply Ascii.eqb_eq in H; subst end.
  reflexivity.
Qed.

Lemma compactSteps_firm :
  forallb (fun st : step => firm st.2)
          (drop 2 (take 18 compactSteps) ++ drop 19 compactSteps) = true.
Proof. vm_compute. reflexivity. Qed.

Lemma compactSteps_setup :
  compactSteps
  = [(trimRe, []); (spacesRe, str " ")]
      ++ drop 2 (take 18 compactSteps)
      ++ [(newlinesRe, [])] ++ drop 19 compactSteps.
Proof. vm_compute. reflexivity. Qed.

Lemma rewrite_compact steps :
  Forall (fun st : step =>
            firm st.2 = true
            \/ st.2 = []
               /\ (forall prev m rest caps caps',
                      Matches st.1 prev m rest caps caps' ->
                      headSpace m = true)) steps ->
  forall s, compactText s = true -> compactText (rewrite steps s) = true.
Proof.
  unfold rewrite. induction 1 as [|[re repl] steps Hst _ IH]; intros s Hs;
    cbn [foldl]; [exact Hs|].
  apply IH. apply (step_compact (re, repl) s Hst Hs).
Qed.

(** The text handed to the renamer (and returned when renaming is off)
    neither starts nor ends with whitespace and has no two whitespace
    characters in a row. *)
Lemma compactSteps_compact s : compactText (rewrite compactSteps s) = true.
Proof.
  rewrite compactSteps_setup, rewrite_app.
  apply rewrite_compact.
  - pose proof compactSteps_firm as H. rewrite forallb_app in H.
    apply andb_true_iff in H as [H1 H2].
    assert (Hb : forall l,
               forallb (fun st : step => firm st.2) l = true ->
               Forall (fun st : step =>
                         firm st.2 = true
                         \/ st.2 = []
                            /\ (forall prev m rest caps caps',
                                   Matches st.1 prev m rest caps caps' ->
                                   headSpace m = true)) l).
    { intros l Hl. apply Forall_forall. intros st Hin.
      rewrite forallb_forall in Hl. left. apply Hl, list_elem_of_In, Hin. }
    apply Forall_app. split; [auto|]. apply Forall_app. split; [|auto].
    constructor; [|constructor]. right. split; [reflexivity|].
    exact newlines_inv.
  - unfold rewrite. cbn [foldl].
    destruct (trim_edges s) as [H1 H2]. apply spaces_compact; assumption.
Qed.

Lemma trimRight_split t :
  exists w, t = trimRight t ++ w /\ forallb isSpace w = true.
Proof.
  induction t as [|c t (w & Ht & Hw)]; [exists []; auto|].
  cbn [trimRight]. destruct (forallb isSpace (c :: t)) eqn:E.
  - exists (c :: t). auto.
  - exists w. cbn [app]. rewrite <- Ht. auto.
Qed.

(** X3. Without renaming, the text that [Minify] returns after the license
    has no two whitespace characters in a row, whatever the input and the
    setting of preserve-license. *)
Theorem Minify_single_whitespace (ordVars ordLits : RangeOrder) (src : buf)
    (pl : bool) :
  exists body,
    minified ordVars ordLits src pl false
    = Some ((extractLicense pl src).1 ++ body)
    /\ forall pre c d post,
         body = pre ++ c :: d :: post -> isSpace c && isSpace d = false.
Proof.
  exists (rewrite compactSteps (uncommented pl src)).
  split; [apply minified_plain|]. intros pre c d post E.
  pose proof (compactSteps_compact (uncommented pl src)) as H.
  unfold compactText in H. apply andb_true_iff in H as [H _].
  exact (tight_pairs pre _ _ _ _ _ H E).
Qed.

(** X4. Without renaming, the text that [Minify] returns after the license
    neither starts nor ends with a whitespace character, whatever the input
    and the setting of preserve-license. *)
Theorem Minify_trimmed (ordVars ordLits : RangeOrder) (src : buf) (pl : bool) :
  exists body,
    minified ordVars ordLits src pl false
    = Some ((extractLicense pl src).1 ++ body)
    /\ (forall c rest, body = c :: rest -> isSpace c = false)
    /\ (forall pre c, body = pre ++ [c] -> isSpace c = false).
Proof.
  exists (rewrite compactSteps (uncommented pl src)).
  split; [apply minified_plain|].
  pose proof (compactSteps_compact (uncommented pl src)) as H.
  unfold compactText in H. apply andb_true_iff in H as [Ht He].
  apply negb_true_iff in He. split.
  - intros c rest E. rewrite E in Ht. cbn [tight andb] in Ht.
    apply andb_true_iff in Ht as [Ht _]. apply negb_true_iff in Ht. exact Ht.
  - intros pre c E. rewrite E, endsSpace_snoc in He. exact He.
Qed.

(** X5. The trimming step of [Minify] works on the whole text, not line by
    line: it deletes the whitespace before the first and after the last
    character that is not whitespace, and nothing else, so that whitespace
    at the start or at the end of an inner line stays. *)
Theorem trim_whole_text (s : buf) :
  exists before after,
    s = before ++ ReplaceAllString trimRe [] s ++ after
    /\ forallb isSpace before = true
    /\ forallb isSpace after = true
    /\ headSpace (ReplaceAllString trimRe [] s) = false
    /\ endsSpace false (ReplaceAllString trimRe [] s) = false.
Proof.
  destruct (trimLeft_split s) as (w1 & Hs & Hw1 & _).
  destruct (trimRight_split (trimLeft s)) as (w2 & Ht & Hw2).
  exists w1, w2. rewrite trim_step. split.
  - rewrite <- Ht. exact Hs.
  - split; [exact Hw1|]. split; [exact Hw2|]. split.
    + apply trimRight_head, trimLeft_head.
    + apply trimRight_end. left. reflexivity.
Qed.

(** X6. The step on multiple spaces replaces every maximal run of two or
    more whitespace characters, line breaks included, by one space, and
    keeps a whitespace character that stands alone as it is. *)
Theorem spaces_squeezed (s : buf) :
  ReplaceAllString spacesRe (str " ") s = squeeze false s.
Proof.
  unfold ReplaceAllString, matches.
  rewrite (scan_spaces s None false 0) by (left; reflexivity). reflexivity.
Qed.

(** * The checks of the test suite *)

Lemma contains_count c s : contains s [c] = negb (count c s =? 0).
Proof.
  induction s as [|d s IH]; [reflexivity|].
  cbn [contains prefixb]. unfold count in *. cbn [countIf].
  rewrite IH, andb_true_r, (Ascii.eqb_sym c d).
  destruct (Ascii.eqb d c); [reflexivity|]. reflexivity.
Qed.

Lemma compactSteps_validity :
  forallb (fun c => forallb (keepsCount c) compactSteps)
          [squote; dquote; "{"; "}"; "("; ")"]%char = true.
Proof. vm_compute. reflexivity. Qed.

(** Without a comment opener the engine without renaming runs the
    compaction steps on the input. *)
Lemma minified_uncommented ordVars ordLits src pl :
  contains src (str "//") = false ->
  contains src (str "/*") = false ->
  minified ordVars ordLits src pl false = Some (rewrite compactSteps src).
Proof.
  intros H1 H2. rewrite minified_plain. unfold uncommented.
  rewrite (license_absent pl src H2). cbn [fst snd app].
  rewrite commentSteps_no_opener by assumption. reflexivity.
Qed.

(** X7. On an input without comment opener, [Minify] without renaming
    does not change the verdict of the test suite's [isValidJavaScript]:
    the numbers of braces, of quotes of each kind and of parentheses are
    those of the input. *)
Theorem Minify_keeps_validity (ordVars ordLits : RangeOrder) (src : buf)
    (pl : bool) :
  contains src (str "//") = false ->
  contains src (str "/*") = false ->
  exists out,
    minified ordVars ordLits src pl false = Some out
    /\ isValidJavaScript out = isValidJavaScript src.
Proof.
  intros H1 H2. eexists. split; [apply minified_uncommented; assumption|].
  assert (Hc : forall c,
             c ∈ [squote; dquote; "{"; "}"; "("; ")"]%char ->
             count c (rewrite compactSteps src) = count c src).
  { intros c Hc. apply rewrite_keepsCount.
    pose proof compactSteps_validity as H. rewrite forallb_forall in H.
    apply H, list_elem_of_In, Hc. }
  unfold isValidJavaScript.
  change (str "{") with ["{"%char]. change (str "}") with ["}"%char].
  rewrite !contains_count.
  rewrite !Hc by (rewrite !elem_of_cons; auto 10). reflexivity.
Qed.

Lemma Minify_keeps_validity_witness :
  exists out,
    minified inOrder inOrder (str "f ( 'x' ) { return ( 1 ) ; }") false false
    = Some out
    /\ isValidJavaScript out
       = isValidJavaScript (str "f ( 'x' ) { return ( 1 ) ; }").
Proof.
  apply (Minify_keeps_validity inOrder inOrder
           (str "f ( 'x' ) { return ( 1 ) ; }") false);
    vm_compute; reflexivity.
Defined.

(** One [strings.ReplaceAll] with a one-character string and the empty
    replacement deletes the occurrences of the character. *)
Lemma delete_char c s :
  stringsReplace s [c] [] = List.filter (fun d => negb (Ascii.eqb c d)) s.
Proof.
  unfold stringsReplace.
  induction s as [|d s IH]; [reflexivity|].
  cbn [replaceFrom prefixb length pred List.filter app].
  rewrite andb_true_r. destruct (Ascii.eqb c d); cbn [negb]; rewrite IH;
    reflexivity.
Qed.

Lemma normalizeWhitespace_filter s :
  normalizeWhitespace s
  = List.filter
      (fun d => negb (Ascii.eqb d nl || Ascii.eqb d "009" || Ascii.eqb d " "))
      s.
Proof.
  unfold normalizeWhitespace. rewrite !delete_char.
  induction s as [|d s IH]; [reflexivity|]. cbn [List.filter].
  rewrite (Ascii.eqb_sym d nl), (Ascii.eqb_sym d "009"),
    (Ascii.eqb_sym d " ").
  destruct (Ascii.eqb nl d); cbn [negb orb List.filter]; [exact IH|].
  destruct (Ascii.eqb "009" d); cbn [negb orb List.filter]; [exact IH|].
  destruct (Ascii.eqb " " d); cbn [negb orb List.filter]; [exact IH|].
  f_equal. exact IH.
Qed.

(** On a text without carriage return and form feed, the normalisation of
    the test suite takes out all the whitespace. *)
Lemma normalize_stripped s :
  count "013" s = 0 -> count "012" s = 0 -> normalizeWhitespace s = stripped s.
Proof.
  intros Hcr Hff. rewrite normalizeWhitespace_filter. unfold stripped.
  apply List.filter_ext_in. intros d Hd. apply list_elem_of_In in Hd.
  apply count_zero_iff in Hcr, Hff.
  assert (E1 : Ascii.eqb d "013" = false)
    by (apply Ascii.eqb_neq; intros ->; contradiction).
  assert (E2 : Ascii.eqb d "012" = false)
    by (apply Ascii.eqb_neq; intros ->; contradiction).
  unfold isSpace, nl. rewrite E1, E2.
  destruct (Ascii.eqb d "009"), (Ascii.eqb d "010"), (Ascii.eqb d " ");
    reflexivity.
Qed.

Lemma compactSteps_returns :
  forallb (fun c => forallb (noMoreOf c) compactSteps) ["013"; "012"]%char
  = true.
Proof. vm_compute. reflexivity. Qed.

(** X8. The comparison of the test suite: on an input without comment
    opener, without carriage return and form feed, without any of the
    characters [+ * ? |] and, once its whitespace is taken out, without two
    semicolons in a row, the output of [Minify] without renaming and the
    input are equal after [normalizeWhitespace]. *)
Theorem Minify_normalized (ordVars ordLits : RangeOrder) (src : buf)
    (pl : bool) :
  contains src (str "//") = false ->
  contains src (str "/*") = false ->
  count "013" src = 0 ->
  count "012" src = 0 ->
  Forall (fun c => c ∉ src) quotedOperators ->
  contains (stripped src) (str ";;") = false ->
  exists out,
    minified ordVars ordLits src pl false = Some out
    /\ normalizeWhitespace out = normalizeWhitespace src.
Proof.
  intros H1 H2 Hcr Hff Hops Hsemi.
  eexists. split; [apply minified_uncommented; assumption|].
  assert (Hle : forall c,
             c ∈ ["013"; "012"]%char -> count c src = 0 ->
             count c (rewrite compactSteps src) = 0).
  { intros c Hc H0.
    pose proof (rewrite_noMoreOf c compactSteps src) as Hle.
    pose proof compactSteps_returns as H. rewrite forallb_forall in H.
    specialize (Hle (H c (proj1 (list_elem_of_In _ _) Hc))). lia. }
  rewrite !normalize_stripped;
    try assumption; try (apply Hle; [rewrite !elem_of_cons; auto|assumption]).
  apply rewrite_stripped; [apply compactSteps_stripped| |exact Hsemi].
  apply Forall_forall. intros c Hc Hin.
  rewrite Forall_forall in Hops. apply (Hops c Hc).
  apply list_elem_of_In, List.filter_In in Hin as [Hin _].
  apply list_elem_of_In, Hin.
Qed.

Lemma Minify_normalized_witness :
  exists out,
    minified inOrder inOrder (str "const regex = /test/g;") false false
    = Some out
    /\ normalizeWhitespace out
       = normalizeWhitespace (str "const regex = /test/g;").
Proof.
  apply (Minify_normalized inOrder inOrder
           (str "const regex = /test/g;") false);
    try (vm_compute; reflexivity).
  unfold quotedOperators.
  repeat constructor; apply count_zero_iff; vm_compute; reflexivity.
Defined.

(** * The options and the text *)

Lemma replaceFunc_sim {St} (f : St -> buf -> option (St * buf))
    (R : St -> St -> Prop) :
  (forall a b m, R a b -> sameRun R (f a m) (f b m)) ->
  forall ps a b, R a b -> sameRun R (replaceFunc f a ps) (replaceFunc f b ps).
Proof.
  intros Hf. induction ps as [|[c|m caps] ps IH]; intros a b Hab;
    cbn [replaceFunc].
  - split; [reflexivity|exact Hab].
  - specialize (IH a b Hab). unfold sameRun in *.
    destruct (replaceFunc f a ps) as [[a' o1]|],
             (replaceFunc f b ps) as [[b' o2]|]; try contradiction; [|exact I].
    destruct IH as [-> HR]. auto.
  - pose proof (Hf a b m Hab) as H. unfold sameRun in H.
    destruct (f a m) as [[a1 n1]|], (f b m) as [[b1 n2]|];
      try contradiction; [|exact I].
    destruct H as [-> H1]. specialize (IH a1 b1 H1). unfold sameRun in *.
    destruct (replaceFunc f a1 ps) as [[a' o1]|],
             (replaceFunc f b1 ps) as [[b' o2]|]; try contradiction; [|exact I].
    destruct IH as [-> HR]. auto.
Qed.

(** The closure of the declaration scan reads the table and the counter
    only. *)
Lemma declare_sameTable m1 m2 s :
  sameTable m1 m2 -> sameRun sameTable (declare m1 s) (declare m2 s).
Proof.
  intros [Hm Hc]. unfold declare, sameRun.
  destruct (length (FindStringSubmatch declRe s) =? 3);
    [|split; [reflexivity|split; assumption]].
  rewrite Hm.
  destruct (varMap m2 !! nth 2 (FindStringSubmatch declRe s) []) as [short|]
    eqn:L.
  - rewrite Hm, L. split; [reflexivity|split; assumption].
  - unfold generateVarName. rewrite Hc.
    destruct (index alphabet (Z.rem (varCounter m2) 26)); [|exact I].
    destruct (Z.quot (varCounter m2) 26 =? 0)%Z;
      cbn [varMap setVarMap setVarCounter varCounter];
      rewrite Hm, !lookup_insert_eq; (split; [reflexivity|split; reflexivity]).
Qed.

(** The text written by the renamer depends on the table and the counter of
    the minifier, not on its other fields. *)
Lemma shortenVariableNames_sameTable ordVars ordLits m1 m2 code :
  sameTable m1 m2 ->
  fst <$> shortenVariableNames ordVars ordLits m1 code
  = fst <$> shortenVariableNames ordVars ordLits m2 code.
Proof.
  intros Hm. unfold shortenVariableNames.
  destruct (ReplaceAllStringFunc stringRe shield ∅ code) as [[lits code1]|];
    [|reflexivity].
  pose proof (replaceFunc_sim declare sameTable declare_sameTable
                (matches declRe code1) m1 m2 Hm) as H.
  unfold ReplaceAllStringFunc, sameRun in *.
  destruct (replaceFunc declare m1 (matches declRe code1)) as [[a o1]|],
           (replaceFunc declare m2 (matches declRe code1)) as [[b o2]|];
    try contradiction; [|reflexivity].
  destruct H as [-> [Hv _]]. rewrite Hv.
  destruct (replaceUsages (rangeMap ordVars (varMap b)) o2); reflexivity.
Qed.

(** X9. The preserve-license option only sets the license aside: the
    output with the option is the license found at the start of the input,
    with its line break, followed by the output that [Minify] gives without
    the option for the rest of the input; when no license is found the two
    outputs are the same.  This holds with and without renaming and for
    every order of the map iterations. *)
Theorem preserve_license_splits (ordVars ordLits : RangeOrder) (src : buf)
    (sv : bool) :
  minified ordVars ordLits src true sv
  = (fun out => (extractLicense true src).1 ++ out)
      <$> minified ordVars ordLits (extractLicense true src).2 false sv.
Proof.
  unfold minified. rewrite !Minify_unfold.
  cbn [preserveLicense input shortenVars NewMinifier].
  change (extractLicense false (extractLicense true src).2)
    with (@nil ascii, (extractLicense true src).2).
  destruct (extractLicense true src) as [lic rest]. cbn [fst snd].
  cbn zeta. destruct sv; [|reflexivity].
  pose proof (shortenVariableNames_sameTable ordVars ordLits
                (NewMinifier src true true) (NewMinifier rest false true)
                (rewrite compactSteps (rewrite commentSteps rest))) as H.
  specialize (H (conj eq_refl eq_refl)).
  destruct (shortenVariableNames ordVars ordLits (NewMinifier src true true)
              (rewrite compactSteps (rewrite commentSteps rest)))
    as [[o1 a]|],
    (shortenVariableNames ordVars ordLits (NewMinifier rest false true)
       (rewrite compactSteps (rewrite commentSteps rest)))
    as [[o2 b]|]; cbn [fmap option_fmap option_map fst] in *;
    try discriminate; [|reflexivity].
  inversion H. reflexivity.
Qed.

(** * The table of the renamer *)

Lemma tableInv_fresh src pl sv : tableInv (NewMinifier src pl sv).
Proof.
  unfold tableInv. cbn [varCounter varMap NewMinifier].
  rewrite map_size_empty. split; [reflexivity|].
  split; [intros o s H; rewrite lookup_empty in H; discriminate|].
  split; [intros k Hk; lia|].
  intros o1 o2 s H. rewrite lookup_empty in H. discriminate.
Qed.

(** The closure of the declaration scan keeps the table in order. *)
Lemma declare_table k m s :
  declInv (S k) m /\ tableInv m ->
  exists m' new,
    declare m s = Some (m', new) /\ declInv k m' /\ tableInv m'.
Proof.
  intros [Hinv Htab].
  destruct (declare_step k m s Hinv) as (m' & new & E & Hinv').
  exists m', new. split; [exact E|]. split; [exact Hinv'|].
  destruct (declare_cases m s)
    as [E'|(kw & original & pre & post & Hkw & Hsplit & Hne & Hid
            & [(short & L & E')|(L & E')])].
  - rewrite E' in E. inversion E; subst. exact Htab.
  - rewrite E' in E. inversion E; subst. exact Htab.
  - destruct Hinv as (H0 & H1 & _). rewrite (E' H0) in E.
    inversion E; subst m' new. clear E E'.
    destruct Htab as (Hsize & Hval & Hsur & Hinj).
    unfold tableInv. cbn [varMap varCounter setVarMap setVarCounter].
    rewrite wrap_small by (unfold int_max in *; lia).
    split; [rewrite map_size_insert_None by exact L; lia|].
    split; [|split].
    + intros o s0 Hl. destruct (decide (o = original)) as [->|Hne'].
      * rewrite lookup_insert_eq in Hl. inversion Hl.
        exists (varCounter m). split; [lia|reflexivity].
      * rewrite lookup_insert_ne in Hl by congruence.
        destruct (Hval _ _ Hl) as (j & Hj & ->). exists j. split; [lia|auto].
    + intros j Hj. destruct (decide (j = varCounter m)) as [->|Hne'].
      * exists original. apply lookup_insert_eq.
      * destruct (Hsur j) as (o & Ho); [lia|]. exists o.
        rewrite lookup_insert_ne; [exact Ho|]. intros <-. congruence.
    + intros o1 o2 s0 Hl1 Hl2.
      destruct (decide (o1 = original)) as [->|Hn1],
               (decide (o2 = original)) as [->|Hn2]; [reflexivity| | |].
      * rewrite lookup_insert_eq in Hl1. inversion Hl1; subst s0.
        rewrite lookup_insert_ne in Hl2 by congruence.
        destruct (Hval _ _ Hl2) as (j & Hj & Ej).
        apply specName_inj in Ej; lia.
      * rewrite lookup_insert_eq in Hl2. inversion Hl2; subst s0.
        rewrite lookup_insert_ne in Hl1 by congruence.
        destruct (Hval _ _ Hl1) as (j & Hj & Ej).
        apply specName_inj in Ej; lia.
      * rewrite lookup_insert_ne in Hl1, Hl2 by congruence.
        exact (Hinj _ _ _ Hl1 Hl2).
Qed.

Lemma shortenVariableNames_table ordVars ordLits m code :
  declInv (countIf isLowerOrSpace code) m -> tableInv m ->
  compiles (varMap m) -> compilable code ->
  exists out m',
    shortenVariableNames ordVars ordLits m code = Some (out, m')
    /\ tableInv m'.
Proof.
  intros Hinv Htab Hm Hcomp.
  pose proof (compilable_sites code Hcomp) as Hs.
  unfold shortenVariableNames, ReplaceAllStringFunc in *.
  destruct (shield_total (matches stringRe code) ∅) as (lits & code1 & E1).
  rewrite E1. specialize (Hs lits code1 E1).
  pose proof (shield_lowerOrSpace _ _ _ _ E1) as Hle.
  rewrite matches_source in Hle.
  pose proof (hits_bound isLowerOrSpace declRe code1) as Hh.
  change (minCountIf isLowerOrSpace declRe) with 4 in Hh.
  destruct (replaceFunc_total declare
              (fun k m => declInv k m /\ tableInv m) declare_table
              (matches declRe code1) m) as (m' & code2 & E2 & Hinv' & Htab').
  { split; [|exact Htab]. destruct Hinv as (H0 & H1 & H2).
    split; [exact H0|]. split; [lia|exact H2]. }
  rewrite E2.
  pose proof (declared_compile _ _ _ _ Hs Hm E2) as Hm'.
  destruct (replaceUsages_total (rangeMap ordVars (varMap m'))) with
    (code := code2) as (code3 & E3).
  { unfold rangeMap. rewrite visit_perm.
    destruct Hinv' as (_ & _ & H2).
    apply map_Forall_to_list in H2, Hm'.
    rewrite Forall_forall in H2, Hm'. apply Forall_forall.
    intros [k v] Hin. cbn [fst]. split.
    - apply (H2 _ Hin).
    - apply (Hm' _ Hin). }
  rewrite E3. eauto.
Qed.



(** * Renaming a text without declaration *)

Lemma replaceFunc_no_hit {St} (f : St -> buf -> option (St * buf)) st ps :
  hitTexts ps = [] ->
  replaceFunc f st ps = Some (st, concat (map source ps)).
Proof.
  induction ps as [|[c|m caps] ps IH]; cbn [hitTexts replaceFunc map concat];
    intros H; [reflexivity| |discriminate].
  rewrite (IH H). reflexivity.
Qed.

Lemma rangeMap_empty (o : RangeOrder) : rangeMap o ∅ = [].
Proof.
  unfold rangeMap. rewrite map_to_list_empty.
  apply Permutation_nil_r. apply visit_perm.
Qed.

(** The restoration after shielding alone gives the text back. *)
Lemma restore_shielded (ordLits : RangeOrder) B lits :
  plainText B ->
  (forall ph l,
      lits !! ph = Some l <->
      exists j, j < length (literals B) /\ ph = placeholder j
                /\ l = nth j (literals B) []) ->
  restoreStrings (rangeMap ordLits lits) (shielded B) = B.
Proof.
  intros HB Hlits.
  assert (Hsrc : plainText (concat (map source (matches stringRe B))))
    by (rewrite matches_source; exact HB).
  pose proof (plain_clean _ (plain_shieldTokens _ Hsrc 0)) as Hts.
  pose proof (pholders_shieldTokens (matches stringRe B) 0) as Hph.
  rewrite <- hits_hitTexts in Hph. fold (literals B) in Hph.
  pose proof (hitTexts_plain _ Hsrc) as Hplain. fold (literals B) in Hplain.
  pose proof (hitTexts_quoted _ (matches_hits stringRe B)) as Hquoted.
  fold (literals B) in Hquoted.
  unfold shielded. rewrite restoreStrings_render; [| |exact Hts].
  - rewrite (restore_fills (literals B)); [apply shielded_fill| |].
    + apply Forall_forall. intros [ph l] He. apply rangeMap_elem in He.
      cbn [fst snd] in He. apply Hlits in He as (j & _ & -> & ->). eauto.
    + intros i Hi. rewrite Hph in Hi. apply elem_of_seq in Hi.
      exists (placeholder i, nth i (literals B) []).
      split; [|reflexivity]. apply rangeMap_elem. apply Hlits.
      exists i. split; [lia|auto].
  - apply Forall_forall. intros [ph l] He. apply rangeMap_elem in He.
    cbn [fst snd] in He. apply Hlits in He as (j & Hj & -> & ->).
    split; [eauto|]. cbn [snd]. rewrite Forall_forall in Hplain, Hquoted.
    split; [apply Hquoted|apply plain_free, Hplain];
      apply list_elem_of_In, nth_In, Hj.
Qed.

(** Without a declaration site the renamer gives the text back. *)
Lemma no_declaration_helper (ordVars ordLits : RangeOrder) (src : buf)
    (pl : bool) :
  plainText src ->
  declarationSites (compacted pl src) = [] ->
  minified ordVars ordLits src pl true = minified ordVars ordLits src pl false.
Proof.
  intros Hsrc Hsites. rewrite minified_plain.
  unfold minified. rewrite Minify_unfold.
  cbn [preserveLicense input shortenVars NewMinifier].
  pose proof (compacted_plain pl src Hsrc) as HB.
  unfold declarationSites in Hsites. unfold compacted, uncommented in *.
  destruct (extractLicense pl src) as [lic rest]. cbn [fst snd] in *.
  cbn zeta. unfold shortenVariableNames.
  destruct (shield_spec (rewrite compactSteps (rewrite commentSteps rest)))
    as (lits & -> & Hlits).
  unfold ReplaceAllStringFunc.
  rewrite (replaceFunc_no_hit declare _ _ Hsites), matches_source.
  cbn [varMap NewMinifier]. rewrite rangeMap_empty. cbn [replaceUsages].
  rewrite (restore_shielded ordLits _ lits HB Hlits). reflexivity.
Qed.

(** X11. Renaming leaves a text without declaration alone: when the input
    has neither an underscore nor a dollar sign and the declaration pattern
    finds no match in the shielded form of the text handed to the renamer,
    [Minify] returns with shorten-vars what it returns without, for both
    settings of preserve-license and every order of the map iterations. *)
Theorem no_declaration_unchanged (ordVars ordLits : RangeOrder) (src : buf)
    (pl : bool) :
  plainText src ->
  declarationSites (compacted pl src) = [] ->
  minified ordVars ordLits src pl true = minified ordVars ordLits src pl false.
Proof. apply no_declaration_helper. Qed.

Lemma no_declaration_unchanged_witness :
  minified inOrder reversed (str "f ( 'a b' , x ) ; g ( 'c' )") true true
  = minified inOrder reversed (str "f ( 'a b' , x ) ; g ( 'c' )") true false.
Proof.
  apply (no_declaration_unchanged inOrder reversed
           (str "f ( 'a b' , x ) ; g ( 'c' )") true);
    vm_compute; reflexivity.
Defined.

(** * The generator at the bounds of the counter *)

Lemma index_alphabet i :
  (-26 < i < 26)%Z -> index alphabet i = None <-> (i < 0)%Z.
Proof.
  intros Hi. unfold index. destruct (i <? 0)%Z eqn:E.
  - apply Z.ltb_lt in E. split; auto.
  - apply Z.ltb_ge in E. rewrite alphabet_lookup by lia.
    split; [discriminate|lia].
Qed.

Lemma generateVarName_None m :
  generateVarName m = None <-> (Z.rem (varCounter m) 26 < 0)%Z.
Proof.
  assert (Hr : (-26 < Z.rem (varCounter m) 26 < 26)%Z).
  { pose proof (Z.rem_bound_abs (varCounter m) 26). lia. }
  rewrite <- (index_alphabet _ Hr). unfold generateVarName.
  destruct (index alphabet (Z.rem (varCounter m) 26)).
  - destruct (Z.quot (varCounter m) 26 =? 0)%Z; split; discriminate.
  - split; reflexivity.
Qed.

(** X12. [generateVarName] panics (index out of range) exactly when the
    remainder of the counter by 26 is negative.  At the largest [int] the
    call still returns a name, the counter wraps around to the smallest
    [int], and the next call panics. *)
Theorem generateVarName_bounds (m : Minifier) :
  (generateVarName m = None <-> (Z.rem (varCounter m) 26 < 0)%Z)
  /\ exists name m',
       generateVarName (setVarCounter int_max m) = Some (name, m')
       /\ varCounter m' = (- 2 ^ 63)%Z
       /\ generateVarName m' = None.
Proof.
  split; [apply generateVarName_None|].
  rewrite generateVarName_spec by (cbn [varCounter setVarCounter]; discriminate).
  eexists _, _. split; [reflexivity|].
  cbn [varCounter setVarCounter]. split; [reflexivity|].
  apply generateVarName_None. reflexivity.
Qed.

(** * File names *)

Lemma HasSuffix_app a b : HasSuffix (a ++ b) b = true.
Proof.
  unfold HasSuffix. rewrite length_app.
  replace (length a + length b - length b) with (length a) by lia.
  rewrite drop_app_length. apply andb_true_iff. split.
  - apply Nat.leb_le. lia.
  - apply bool_decide_eq_true. reflexivity.
Qed.

Lemma HasSuffix_split s suffix :
  HasSuffix s suffix = true -> exists a, s = a ++ suffix.
Proof.
  unfold HasSuffix. intros H. apply andb_true_iff in H as [_ H].
  apply bool_decide_eq_true in H.
  exists (take (length s - length suffix) s).
  transitivity (take (length s - length suffix) s
                  ++ drop (length s - length suffix) s).
  - symmetry. apply take_drop.
  - f_equal. exact H.
Qed.

Lemma TrimSuffix_app a b : TrimSuffix (a ++ b) b = a.
Proof.
  unfold TrimSuffix. rewrite HasSuffix_app, length_app.
  replace (length a + length b - length b) with (length a) by lia.
  apply take_app_length.
Qed.

(** What the loop of [filepath.Ext] returns from the index [n]: nothing,
    or the text from a dot on, when no dot and no separator stands between
    the dot and the index. *)
Lemma extFrom_spec path n :
  extFrom path n = []
  \/ exists i,
       i < n /\ path !! i = Some "."%char /\ extFrom path n = drop i path
       /\ forall j c,
            i < j < n -> path !! j = Some c ->
            IsPathSeparator c = false /\ Ascii.eqb c "." = false.
Proof.
  induction n as [|n IH]; [left; reflexivity|]. cbn [extFrom].
  destruct (path !! n) as [c|] eqn:E; [|left; reflexivity].
  destruct (IsPathSeparator c) eqn:Es; [left; reflexivity|].
  destruct (Ascii.eqb c ".") eqn:Ed.
  - apply Ascii.eqb_eq in Ed. subst c. right. exists n.
    split; [lia|]. split; [exact E|]. split; [reflexivity|].
    intros j c Hj. lia.
  - destruct IH as [IH|(i & Hi & Hdot & Hext & Hbetween)]; [left; exact IH|].
    right. exists i. split; [lia|]. split; [exact Hdot|].
    split; [exact Hext|]. intros j d Hj Hd.
    destruct (decide (j = n)) as [->|Hne].
    + rewrite E in Hd. inversion Hd; subst d. auto.
    + apply (Hbetween j d); [lia|exact Hd].
Qed.

(** The extension is a suffix of the path. *)
Lemma Ext_suffix path : exists stem, path = stem ++ Ext path.
Proof.
  unfold Ext.
  destruct (extFrom_spec path (length path)) as [->|(i & _ & _ & -> & _)].
  - exists path. rewrite app_nil_r. reflexivity.
  - exists (take i path). symmetry. apply take_drop.
Qed.

(** The extension of a path that ends with a dot and a text without dot and
    separator is that dot and that text. *)
Lemma Ext_app pre e :
  Forall (fun c => IsPathSeparator c = false /\ Ascii.eqb c "." = false) e ->
  Ext (pre ++ "."%char :: e) = "."%char :: e.
Proof.
  intros He. unfold Ext.
  assert (H : forall k,
             k <= length e ->
             extFrom (pre ++ "."%char :: e) (length pre + 1 + k)
             = "."%char :: e).
  { induction k as [|k IH]; intros Hk.
    - replace (length pre + 1 + 0) with (S (length pre)) by lia.
      cbn [extFrom]. rewrite lookup_app_r by lia.
      rewrite Nat.sub_diag, lookup_cons.
      cbn [IsPathSeparator Ascii.eqb]. rewrite drop_app_length. reflexivity.
    - replace (length pre + 1 + S k) with (S (length pre + 1 + k)) by lia.
      cbn [extFrom]. rewrite lookup_app_r by lia.
      replace (length pre + 1 + k - length pre) with (S k) by lia.
      rewrite lookup_cons.
      destruct (lookup_lt_is_Some_2 e k) as [c Hc]; [lia|]. rewrite Hc.
      rewrite Forall_forall in He.
      destruct (He c (list_elem_of_lookup_2 _ _ _ Hc)) as [-> ->].
      apply IH. lia. }
  rewrite length_app. cbn [length].
  replace (length pre + S (length e)) with (length pre + 1 + length e) by lia.
  apply H. lia.
Qed.

Lemma defaultOutputPath_spec inputPath :
  exists stem,
    inputPath = stem ++ Ext inputPath
    /\ defaultOutputPath inputPath = stem ++ str ".min" ++ Ext inputPath.
Proof.
  destruct (Ext_suffix inputPath) as (stem & Hs). exists stem.
  split; [exact Hs|]. unfold defaultOutputPath. cbn zeta.
  rewrite Hs at 1. rewrite TrimSuffix_app. reflexivity.
Qed.

Lemma defaultOutputPath_differs inputPath :
  defaultOutputPath inputPath <> inputPath.
Proof.
  destruct (defaultOutputPath_spec inputPath) as (stem & Hs & ->).
  intros E. rewrite Hs in E at 2. apply (f_equal (@length ascii)) in E.
  rewrite !length_app in E. cbn [length str String.list_ascii_of_string] in E.
  lia.
Qed.

(** X13. When no output path is given, [processFile] writes to the input
    path with [.min] put before its extension (at the end when the last
    element of the path has no dot): the path written differs from the
    input path, so the input file is not overwritten, and it has the
    extension of the input path when there is one. *)
Theorem default_output_path (inputPath : buf) :
  exists stem,
    inputPath = stem ++ Ext inputPath
    /\ defaultOutputPath inputPath = stem ++ str ".min" ++ Ext inputPath
    /\ defaultOutputPath inputPath <> inputPath
    /\ (Ext inputPath <> [] ->
        Ext (defaultOutputPath inputPath) = Ext inputPath).
Proof.
  destruct (defaultOutputPath_spec inputPath) as (stem & Hs & Hd).
  exists stem. split; [exact Hs|]. split; [exact Hd|].
  split; [apply defaultOutputPath_differs|].
  intros Hne.
  pose proof (extFrom_spec inputPath (length inputPath)) as Hspec.
  fold (Ext inputPath) in Hspec.
  destruct Hspec as [E|(i & Hi & Hdot & E & Hbetween)]; [contradiction|].
  rewrite Hd, E, (drop_S _ _ _ Hdot), app_assoc. apply Ext_app.
  apply Forall_forall. intros c Hc.
  apply list_elem_of_lookup_1 in Hc as [k Hk].
  rewrite lookup_drop in Hk.
  apply (Hbetween (S i + k) c); [|exact Hk].
  apply lookup_lt_Some in Hk. lia.
Qed.

(** X14. The default output of a file whose path ends in [.js] ends in
    [.min.js]: it is one of the files that the directory mode and the watch
    mode skip, so a minified file is not minified again by them. *)
Theorem default_output_skipped (inputPath : buf) :
  HasSuffix inputPath (str ".js") = true ->
  HasSuffix (defaultOutputPath inputPath) (str ".min.js") = true.
Proof.
  intros H. apply HasSuffix_split in H as (a & ->).
  unfold defaultOutputPath. cbn zeta.
  assert (E : Ext (a ++ str ".js") = str ".js").
  { apply (Ext_app a (str "js")). repeat constructor. }
  rewrite E, TrimSuffix_app.
  change (a ++ str ".min" ++ str ".js") with (a ++ str ".min.js").
  apply HasSuffix_app.
Qed.

Lemma default_output_skipped_witness :
  HasSuffix (defaultOutputPath (str "src/app.js")) (str ".min.js") = true.
Proof.
  apply (default_output_skipped (str "src/app.js")). reflexivity.
Defined.

(** * Inputs made of whitespace *)

Lemma spaces_no_slash src :
  forallb isSpace src = true -> forall sub, contains src ("/"%char :: sub) = false.
Proof.
  intros Hs sub. destruct (contains src ("/"%char :: sub)) eqn:E; [|reflexivity].
  apply contains_spec in E as (pre & post & ->).
  rewrite forallb_app in Hs. apply andb_true_iff in Hs as [_ Hs].
  cbn [app forallb] in Hs. discriminate.
Qed.

Lemma trimLeft_spaces s : forallb isSpace s = true -> trimLeft s = [].
Proof.
  induction s as [|c s IH]; [reflexivity|]. cbn [forallb trimLeft].
  intros H. apply andb_true_iff in H as [-> H]. apply IH, H.
Qed.

Lemma compactSteps_empty : rewrite (drop 1 compactSteps) [] = [].
Proof. vm_compute. reflexivity. Qed.

Lemma compacted_spaces pl src :
  forallb isSpace src = true ->
  extractLicense pl src = ([], src) /\ compacted pl src = [].
Proof.
  intros Hs.
  assert (E : extractLicense pl src = ([], src))
    by (apply license_absent, spaces_no_slash, Hs).
  split; [exact E|]. unfold compacted, uncommented. rewrite E. cbn [snd].
  rewrite commentSteps_no_opener by (apply spaces_no_slash, Hs).
  change compactSteps with ([(trimRe, [])] ++ drop 1 compactSteps).
  rewrite rewrite_app. unfold rewrite at 2. cbn [foldl].
  rewrite trim_step, trimLeft_spaces by exact Hs. apply compactSteps_empty.
Qed.

Lemma spaces_plain src : forallb isSpace src = true -> plainText src.
Proof.
  unfold plainText. rewrite !forallb_forall. intros H c Hc.
  specialize (H c Hc).
  pose proof (char_enum (fun c => implb (isSpace c) (plainChar c)) eq_refl c)
    as E.
  cbn beta in E. rewrite H in E. exact E.
Qed.

Lemma minified_spaces ordVars ordLits src pl sv :
  forallb isSpace src = true -> minified ordVars ordLits src pl sv = Some [].
Proof.
  intros Hs. destruct (compacted_spaces pl src Hs) as [E Hc].
  assert (H : minified ordVars ordLits src pl false = Some []).
  { rewrite minified_plain. fold (compacted pl src). rewrite E, Hc.
    reflexivity. }
  destruct sv; [|exact H]. rewrite <- H.
  apply no_declaration_helper; [apply spaces_plain, Hs|].
  rewrite Hc. reflexivity.
Qed.

(** X15. An input made of whitespace only, the empty input included, is
    minified to the empty text, for both options and every order of the
    map iterations. *)
Theorem Minify_blank_input (ordVars ordLits : RangeOrder) (src : buf)
    (pl sv : bool) :
  forallb isSpace src = true ->
  minified ordVars ordLits src pl sv = Some [].
Proof. apply minified_spaces. Qed.

Lemma Minify_blank_input_witness :
  minified inOrder reversed [" "; nl; "009"; " "]%char true true = Some [].
Proof.
  apply (Minify_blank_input inOrder reversed [" "; nl; "009"; " "]%char
           true true).
  reflexivity.
Defined.

(** * [processFile] *)

Section ProcessFileFacts.
Variable World : Type.
Variable ReadFile : World -> buf -> buf + buf.
Variable WriteFile : World -> buf -> buf -> World * option buf.
Variables ordVars ordLits : RangeOrder.


(** X17. For an empty file the reduction that [processFile] reports is not
    a number: the division of zero by zero.  The sizes reported are both
    zero. *)
Theorem processFile_empty_file (elapsed : Z) (w : World)
    (inputPath outputPath : buf) (pl sv : bool) :
  ReadFile w inputPath = inl [] ->
  exists eff,
    processFile World ReadFile WriteFile ordVars ordLits elapsed w
      inputPath outputPath pl sv = Some eff
    /\ forall st,
         st ∈ sent World eff ->
         PrimFloat.is_nan (Reduction st) = true
         /\ OriginalSize st = 0%Z /\ MinifiedSize st = 0%Z.
Proof.
  intros Hr. unfold processFile. rewrite Hr.
  rewrite (minified_spaces ordVars ordLits [] pl sv eq_refl).
  destruct (WriteFile w _ []) as [w' [err|]]; eexists;
    (split; [reflexivity|]); cbn [sent]; intros st Hst.
  - apply elem_of_nil in Hst. contradiction.
  - apply list_elem_of_singleton in Hst. subst st.
    cbn [Reduction OriginalSize MinifiedSize length]. auto.
Qed.
End ProcessFileFacts.

Lemma processFile_empty_file_witness :
  exists eff,
    processFile unit (fun _ _ => inl []) (fun w _ _ => (w, None))
      inOrder inOrder 1500 tt (str "empty.js") [] false false = Some eff
    /\ forall st,
         st ∈ sent unit eff ->
         PrimFloat.is_nan (Reduction st) = true
         /\ OriginalSize st = 0%Z /\ MinifiedSize st = 0%Z.
Proof.
  apply (processFile_empty_file unit (fun _ _ => inl [])
           (fun w _ _ => (w, None)) inOrder inOrder 1500 tt
           (str "empty.js") [] false false).
  reflexivity.
Defined.

(** * Line comments *)

Lemma starGreedy_all {A} p (g : buf -> A) s :
  forallb p s = true ->
  forall prev, starGreedy p (fun _ s' => Some (g s')) prev s = Some (g []).
Proof.
  induction s as [|c s IH]; intros Hs prev; cbn [starGreedy]; [reflexivity|].
  cbn [forallb] in Hs. apply andb_true_iff in Hs as [-> Hs].
  rewrite (IH Hs). reflexivity.
Qed.

(** The pattern of the line comments matches two slashes and the rest of
    the line, and nothing that does not start with a slash. *)
Lemma exec_lineComment_hit prev post :
  forallb notNewline post = true ->
  exec lineCommentRe prev (str "//" ++ post) = Some (2 + length post, []).
Proof.
  intros Hp. unfold exec, lineCommentRe.
  cbn [Lit str String.list_ascii_of_string run ngroups Nat.add replicate app].
  cbn [Ascii.eqb Bool.eqb andb].
  rewrite (starGreedy_all notNewline
             (fun s' => (length ("/"%char :: "/"%char :: post) - length s',
                         @nil buf)) post Hp).
  cbn [length]. rewrite Nat.sub_0_r. reflexivity.
Qed.

Lemma exec_lineComment_miss prev c s :
  c <> "/"%char -> exec lineCommentRe prev (c :: s) = None.
Proof.
  intros Hc. unfold exec, lineCommentRe.
  cbn [Lit str String.list_ascii_of_string run ngroups Nat.add replicate].
  destruct (Ascii.eqb_spec "/" c) as [E|E]; [congruence|reflexivity].
Qed.

Lemma exec_lineComment_end q : exec lineCommentRe q [] = None.
Proof. reflexivity. Qed.

(** On a text without slash followed by two slashes and the rest of the
    line, the step deletes the slashes and what follows. *)
Lemma lineComment_cut pre post :
  "/"%char ∉ pre -> forallb notNewline post = true ->
  forall prev adj,
    concat (map (subst (fun _ => []))
              (scan lineCommentRe prev adj 0 (pre ++ str "//" ++ post)))
    = pre.
Proof.
  intros Hpre Hpost. induction pre as [|c pre IH]; intros prev adj.
  - change ([] ++ str "//" ++ post) with (str "//" ++ post).
    pose proof (exec_lineComment_hit prev post Hpost) as E.
    change (str "//" ++ post) with ("/"%char :: "/"%char :: post) in *.
    cbn [scan]. rewrite E. cbn [Nat.add map concat subst app].
    change (S (length post)) with (length ("/"%char :: post)).
    rewrite (scan_skip_end lineCommentRe _ exec_lineComment_end).
    reflexivity.
  - apply not_elem_of_cons in Hpre as [Hc Hpre]. cbn [app scan].
    rewrite exec_lineComment_miss by congruence.
    cbn [map concat subst app]. rewrite (IH Hpre). reflexivity.
Qed.

Lemma uncommented_cut pl pre post :
  "/"%char ∉ pre -> forallb notNewline post = true ->
  extractLicense pl (pre ++ str "//" ++ post) = ([], pre ++ str "//" ++ post)
  /\ extractLicense pl pre = ([], pre)
  /\ uncommented pl (pre ++ str "//" ++ post) = uncommented pl pre.
Proof.
  intros Hpre Hpost.
  assert (Hslash : count "/" pre = 0) by (apply count_zero_iff, Hpre).
  assert (E1 : extractLicense pl (pre ++ str "//" ++ post)
               = ([], pre ++ str "//" ++ post)).
  { destruct (extractLicense_spec pl (pre ++ str "//" ++ post))
      as [E|(license & rest & caps & _ & _ & _ & Ex & _)]; [exact E|].
    apply exec_sound in Ex as (m & rest' & Hs & _ & M).
    apply license_inv in M as (t & ->). exfalso.
    destruct pre as [|c pre]; cbn [app str String.list_ascii_of_string] in Hs.
    - inversion Hs.
    - inversion Hs; subst c. apply Hpre. apply list_elem_of_here. }
  assert (E2 : extractLicense pl pre = ([], pre)).
  { apply license_absent.
    destruct (contains pre (str "/*")) eqn:E; [|reflexivity].
    apply contains_spec in E as (a & b & ->). exfalso. apply Hpre.
    rewrite elem_of_app. right. apply list_elem_of_here. }
  split; [exact E1|]. split; [exact E2|].
  unfold uncommented. rewrite E1, E2. cbn [snd].
  unfold rewrite, commentSteps. cbn [foldl]. f_equal.
  transitivity pre.
  - unfold ReplaceAllString, matches. apply lineComment_cut; assumption.
  - symmetry.
    apply (ReplaceAllString_absent (fun d => Ascii.eqb d "/"));
      [vm_compute; lia|exact Hslash].
Qed.

(** X18. Line comments are cut without regard to string literals: for a
    text without slash followed by two slashes and anything up to the end
    of the input on the same line, [Minify] returns what it returns for the
    text alone.  The text may end inside a string literal, whose closing
    quote is then lost with the rest of the line. *)
Theorem line_comment_cut (ordVars ordLits : RangeOrder) (pre post : buf)
    (pl sv : bool) :
  "/"%char ∉ pre ->
  nl ∉ post ->
  minified ordVars ordLits (pre ++ str "//" ++ post) pl sv
  = minified ordVars ordLits pre pl sv.
Proof.
  intros Hpre Hpost.
  assert (Hp : forallb notNewline post = true).
  { apply forallb_forall. intros c Hc. unfold notNewline.
    apply negb_true_iff, Ascii.eqb_neq. intros ->.
    apply Hpost, list_elem_of_In, Hc. }
  destruct (uncommented_cut pl pre post Hpre Hp) as (E1 & E2 & Hu).
  unfold minified. rewrite !Minify_unfold.
  cbn [preserveLicense input shortenVars NewMinifier].
  unfold uncommented in Hu. rewrite E1, E2 in *. cbn [snd] in Hu.
  cbn zeta. rewrite Hu. destruct sv; [|reflexivity].
  pose proof (shortenVariableNames_sameTable ordVars ordLits
                (NewMinifier (pre ++ str "//" ++ post) pl true)
                (NewMinifier pre pl true)
                (rewrite compactSteps (rewrite commentSteps pre))
                (conj eq_refl eq_refl)) as H.
  destruct (shortenVariableNames ordVars ordLits
              (NewMinifier (pre ++ str "//" ++ post) pl true)
              (rewrite compactSteps (rewrite commentSteps pre)))
    as [[o1 a]|],
    (shortenVariableNames ordVars ordLits (NewMinifier pre pl true)
       (rewrite compactSteps (rewrite commentSteps pre)))
    as [[o2 b]|]; cbn [fmap option_fmap option_map fst app] in *;
    try discriminate; [|reflexivity].
  inversion H. reflexivity.
Qed.

Lemma line_comment_cut_witness :
  minified inOrder inOrder (str "u = 'http:" ++ str "//" ++ str "a.b';")
    false true
  = minified inOrder inOrder (str "u = 'http:") false true.
Proof.
  apply (line_comment_cut inOrder inOrder (str "u = 'http:") (str "a.b';")
           false true).
  - apply count_zero_iff. reflexivity.
  - apply count_zero_iff. reflexivity.
Defined.

(** * The second version of the engine *)

(** What the second version returns: the license, and the text after it
    once the comments are removed and the text is compacted and, when
    asked, renamed.  The debug file has no part in it. *)
Lemma Revised_minified_unfold ordVars ordLits d src pl sv :
  Revised.minified ordVars ordLits d src pl sv
  = (fun r : buf * Minifier => (extractLicense pl src).1 ++ r.1)
      <$> (if sv
           then shortenVariableNames ordVars ordLits
                  (NewMinifier src pl sv)
                  (Revised.compacted (uncommented pl src))
           else Some (Revised.compacted (uncommented pl src),
                      NewMinifier src pl sv)).
Proof.
  unfold Revised.minified, Revised.Minify, uncommented.
  cbn [preserveLicense shortenVars input NewMinifier].
  assert (Hpl : pl = false -> (extractLicense pl src).1 = []).
  { intros ->. reflexivity. }
  destruct (extractLicense pl src) as [lic rest]. cbn [fst snd] in *.
  change (ReplaceAllString blockCommentRe []
            (ReplaceAllString lineCommentRe [] rest))
    with (rewrite commentSteps rest).
  set (u := rewrite commentSteps rest).
  match goal with
  | |- context [rewrite Revised.bracketSteps ?t] =>
      change (rewrite Revised.bracketSteps t) with (Revised.compacted u)
  end.
  set (body := Revised.compacted u).
  destruct sv.
  - destruct (shortenVariableNames ordVars ordLits (NewMinifier src pl true)
                body) as [[out m']|]; [|reflexivity].
    cbn [fmap option_fmap option_map fst snd].
    destruct pl; [|rewrite (Hpl eq_refl); reflexivity].
    destruct lic; reflexivity.
  - cbn [fmap option_fmap option_map fst snd].
    destruct pl; [|rewrite (Hpl eq_refl); reflexivity].
    destruct lic; reflexivity.
Qed.

Lemma call_inv prev m rest caps caps' :
  Matches Revised.callRe prev m rest caps caps' ->
  exists c ws,
    m = c :: ws ++ str "("
    /\ isIdentChar c = true
    /\ forallb isSpace ws = true
    /\ caps' = <[0 := [c]]> caps.
Proof.
  unfold Revised.callRe. intros M. invM.
  eexists _, _. split; [reflexivity|]. auto.
Qed.

(** Every match of the pattern for calls is an identifier character,
    whitespace and an opening parenthesis, and it is replaced by the
    character and the parenthesis. *)
Lemma call_pieces s :
  Forall (fun p =>
            match p with
            | Keep _ => True
            | Hit m caps =>
                exists c ws,
                  m = c :: ws ++ str "("
                  /\ forallb isSpace ws = true
                  /\ isSpace c = false
                  /\ expand Revised.callTemplate m caps = c :: str "("
            end) (matches Revised.callRe s).
Proof.
  eapply Forall_impl; [apply matches_hits|].
  intros [c|m caps]; [auto|]. intros (prev & rest & M).
  apply call_inv in M as (c & ws & -> & Hc & Hws & ->).
  exists c, ws. split; [reflexivity|]. split; [exact Hws|]. split.
  - destruct (isSpace c) eqn:E; [|reflexivity].
    revert Hc E. generalize c. 
    assert (H : forallb (fun d => implb (isIdentChar d) (negb (isSpace d)))
                  allChars = true) by (vm_compute; reflexivity).
    intros d Hd Hsp. rewrite forallb_forall in H.
    specialize (H d (proj1 (list_elem_of_In _ _) (allChars_complete d))).
    rewrite Hd, Hsp in H. discriminate.
  - reflexivity.
Qed.

Section CallMeasure.
Variable mu : buf -> nat.
Hypothesis mu_app : forall a b, mu (a ++ b) = mu a + mu b.

(** The step on calls never adds to an additive measure of the text. *)
Lemma call_step_le s :
  mu (ReplaceAllStringExpand Revised.callRe Revised.callTemplate s) <= mu s.
Proof.
  unfold ReplaceAllStringExpand.
  rewrite <- (matches_source Revised.callRe s) at 2.
  apply (mu_concat_le mu mu_app).
  eapply Forall_impl; [apply call_pieces|].
  intros [c|m caps]; cbn [substExpand source]; [lia|].
  intros (c & ws & -> & _ & _ & ->).
  change (c :: str "(") with ([c] ++ str "(").
  change (c :: ws ++ str "(") with ([c] ++ ws ++ str "(").
  rewrite !mu_app. lia.
Qed.
End CallMeasure.

(** The step on calls changes whitespace only. *)
Lemma call_step_stripped s :
  stripped (ReplaceAllStringExpand Revised.callRe Revised.callTemplate s)
  = stripped s.
Proof.
  unfold ReplaceAllStringExpand.
  rewrite <- (matches_source Revised.callRe s) at 2.
  pose proof (call_pieces s) as Hall.
  induction Hall as [|[c|m caps] ps Hp _ IH];
    cbn [map concat substExpand source].
  - reflexivity.
  - rewrite !stripped_app, IH. reflexivity.
  - rewrite !stripped_app, IH. f_equal.
    destruct Hp as (c & ws & -> & Hws & Hc & ->).
    change (c :: ws ++ str "(") with ([c] ++ ws ++ str "(").
    change (c :: str "(") with ([c] ++ str "(").
    rewrite !stripped_app, (stripped_spaces ws Hws). reflexivity.
Qed.

Lemma revised_spaceOnly :
  forallb spaceOnly
    (take 16 Revised.beforeCall ++ drop 17 Revised.beforeCall
     ++ Revised.afterCall) = true.
Proof. vm_compute. reflexivity. Qed.

Lemma revised_semicolons :
  Revised.beforeCall
  = take 16 Revised.beforeCall ++ [(semicolonsRe, str ";")]
    ++ drop 17 Revised.beforeCall.
Proof. vm_compute. reflexivity. Qed.

Lemma revised_noLonger :
  forallb noLonger (Revised.beforeCall ++ Revised.afterCall) = true.
Proof. vm_compute. reflexivity. Qed.

Lemma revised_noMore :
  forallb (fun c => isSpace c
                    || forallb (noMoreOf c)
                         (Revised.beforeCall ++ Revised.afterCall))
          allChars = true.
Proof. vm_compute. reflexivity. Qed.

Lemma comment_noMore :
  forallb (fun c => forallb (noMoreOf c) commentSteps) allChars = true.
Proof. vm_compute. reflexivity. Qed.

Lemma rewrite_spaceOnly steps :
  forallb spaceOnly steps = true ->
  forall s, stripped (rewrite steps s) = stripped s.
Proof.
  unfold rewrite. induction steps as [|[re repl] steps IH]; intros H s;
    cbn [foldl]; [reflexivity|].
  cbn [forallb] in H. apply andb_true_iff in H as [Hst H].
  rewrite (IH H). apply (ReplaceAllString_stripped (re, repl) s Hst).
Qed.

(** The step on semicolons finds nothing in a text that has no two
    semicolons in a row once its whitespace is taken out. *)
Lemma semicolons_absent repl s :
  contains (stripped s) (str ";;") = false ->
  ReplaceAllString semicolonsRe repl s = s.
Proof.
  intros Hsemi. apply ReplaceAllString_no_match.
  intros pre m post prev rest caps caps' -> M.
  apply semicolons_inv in M as (t & ->).
  assert (Hc : contains (pre ++ (str ";;" ++ t) ++ post) (str ";;") = true).
  { apply contains_spec. exists pre, (t ++ post).
    rewrite <- !app_assoc. reflexivity. }
  apply contains_stripped in Hc; [congruence|reflexivity].
Qed.

Lemma revised_compacted_stripped s :
  contains (stripped s) (str ";;") = false ->
  stripped (Revised.compacted s) = stripped s.
Proof.
  intros Hsemi. pose proof revised_spaceOnly as H.
  rewrite !forallb_app in H.
  apply andb_true_iff in H as [H1 H]. apply andb_true_iff in H as [H2 H3].
  unfold Revised.compacted.
  rewrite (rewrite_spaceOnly _ H3), call_step_stripped.
  rewrite revised_semicolons, !rewrite_app.
  rewrite (rewrite_spaceOnly _ H2).
  unfold rewrite at 1. cbn [foldl].
  rewrite semicolons_absent; rewrite (rewrite_spaceOnly _ H1);
    [reflexivity|exact Hsemi].
Qed.

(** No step of the second version adds to the number of characters of a
    class when its replacement has no more of them than its matches. *)
Lemma revised_compacted_le q s :
  forallb (noMoreIf q) (Revised.beforeCall ++ Revised.afterCall) = true ->
  countIf q (Revised.compacted s) <= countIf q s.
Proof.
  intros H. rewrite forallb_app in H. apply andb_true_iff in H as [H1 H2].
  unfold Revised.compacted.
  etransitivity; [apply rewrite_noMoreIf, H2|].
  etransitivity; [apply (call_step_le (countIf q) (countIf_app q))|].
  apply rewrite_noMoreIf, H1.
Qed.

Lemma revised_length s pl :
  length (Revised.compacted (uncommented pl s)) <= length s.
Proof.
  rewrite <- !countIf_anyChar.
  etransitivity; [apply revised_compacted_le, revised_noLonger|].
  unfold uncommented.
  etransitivity; [apply rewrite_noMoreIf, commentSteps_noLonger|].
  destruct (extractLicense_parts pl s) as (license & rest & Hs & -> & _).
  rewrite Hs, countIf_app. lia.
Qed.

Lemma revised_no_newline s : nl ∉ Revised.compacted s.
Proof.
  unfold Revised.compacted.
  set (t := ReplaceAllStringExpand _ _ _).
  change Revised.afterCall
    with ([(newlinesRe, [])] ++ ((commaRe, str ",") :: Revised.bracketSteps)).
  rewrite rewrite_app. apply count_zero_iff.
  assert (H : forallb (noMoreOf nl)
                ((commaRe, str ",") :: Revised.bracketSteps) = true)
    by (vm_compute; reflexivity).
  pose proof (rewrite_noMoreOf nl _ (rewrite [(newlinesRe, [])] t) H) as Hle.
  assert (E : count nl (rewrite [(newlinesRe, [])] t) = 0).
  { apply count_zero_iff. unfold rewrite. cbn [foldl]. apply newline_step. }
  lia.
Qed.

(** X19. On an input without comment opener and, once its whitespace is
    taken out, without two semicolons in a row, the second version of
    [Minify] without renaming changes whitespace only, whatever operators
    the input has. *)
Theorem Revised_whitespace_only (ordVars ordLits : RangeOrder) (d : bool)
    (src : buf) (pl : bool) :
  contains src (str "//") = false ->
  contains src (str "/*") = false ->
  contains (stripped src) (str ";;") = false ->
  exists out,
    Revised.minified ordVars ordLits d src pl false = Some out
    /\ stripped out = stripped src.
Proof.
  intros H1 H2 Hsemi. rewrite Revised_minified_unfold. unfold uncommented.
  rewrite (license_absent pl src H2). cbn [fst snd].
  rewrite (commentSteps_no_opener src H1 H2).
  eexists. split; [reflexivity|].
  cbn [app fst]. apply revised_compacted_stripped, Hsemi.
Qed.

Lemma Revised_whitespace_only_witness :
  exists out,
    Revised.minified inOrder inOrder true
      (str "x = a + b * ( c | d ) ? 1 : 2 ;" ++ nl :: str "  f ( x ) ;")
      true false = Some out
    /\ stripped out
       = stripped (str "x = a + b * ( c | d ) ? 1 : 2 ;" ++ nl
                     :: str "  f ( x ) ;").
Proof.
  apply (Revised_whitespace_only inOrder inOrder true
           (str "x = a + b * ( c | d ) ? 1 : 2 ;" ++ nl :: str "  f ( x ) ;")
           true); vm_compute; reflexivity.
Defined.

(** X20. Without renaming the second version of [Minify] never returns a
    longer text than its input, but for the line break after a kept
    license, and never returns more occurrences of a character that is not
    whitespace than the input has: no backslash is written before an
    operator. *)
Theorem Revised_never_adds (ordVars ordLits : RangeOrder) (d : bool)
    (src : buf) (pl : bool) :
  exists out,
    Revised.minified ordVars ordLits d src pl false = Some out
    /\ length out <= length src + licenseBreak pl src
    /\ forall c, isSpace c = false -> count c out <= count c src.
Proof.
  rewrite Revised_minified_unfold. eexists. split; [reflexivity|].
  cbn [fmap option_fmap option_map fst].
  destruct (extractLicense_parts pl src)
    as (license & rest & Hs & Hrest & Hlic).
  split.
  - pose proof (revised_length src pl) as Hle. rewrite length_app.
    unfold licenseBreak.
    destruct Hlic as [[E ->]|[E _]]; rewrite E.
    + cbn [length]. lia.
    + rewrite length_app. cbn [length].
      assert (length (Revised.compacted (uncommented pl src)) <= length rest).
      { rewrite <- !countIf_anyChar.
        etransitivity; [apply revised_compacted_le, revised_noLonger|].
        unfold uncommented. rewrite Hrest.
        apply rewrite_noMoreIf, commentSteps_noLonger. }
      assert (Esrc : length src = length license + length rest)
        by (rewrite Hs; apply length_app).
      destruct (license ++ [nl]) eqn:En; [destruct license; discriminate|].
      lia.
  - intros c Hc.
    assert (Hb : forallb (noMoreOf c) (Revised.beforeCall ++ Revised.afterCall)
                 = true).
    { pose proof revised_noMore as H. rewrite forallb_forall in H.
      specialize (H c (proj1 (list_elem_of_In _ _) (allChars_complete c))).
      rewrite Hc in H. exact H. }
    assert (Hk : forallb (noMoreOf c) commentSteps = true).
    { pose proof comment_noMore as H. rewrite forallb_forall in H.
      exact (H c (proj1 (list_elem_of_In _ _) (allChars_complete c))). }
    assert (Hbody : count c (Revised.compacted (uncommented pl src))
                    <= count c rest).
    { etransitivity; [apply revised_compacted_le, Hb|].
      unfold uncommented. rewrite Hrest. apply rewrite_noMoreOf, Hk. }
    assert (Esrc : count c src = count c license + count c rest)
      by (rewrite Hs; apply count_app).
    rewrite count_app.
    destruct Hlic as [[E ->]|[E _]]; rewrite E.
    + change (count c []) with 0 in *. lia.
    + rewrite count_app.
      assert (count c [nl] = 0).
      { apply count_zero_iff. intros Hin.
        apply elem_of_cons in Hin as [->|Hin]; [discriminate|].
        apply elem_of_nil in Hin. contradiction. }
      lia.
Qed.



(** ** The result of the second version is compact *)

Lemma endsSpace_nonempty q q' s : s <> [] -> endsSpace q s = endsSpace q' s.
Proof.
  destruct s as [|c s]; [congruence|]. intros _.
  rewrite !endsSpace_cons. reflexivity.
Qed.

Lemma endsSpace_false q s : endsSpace false s = true -> endsSpace q s = true.
Proof.
  destruct s as [|c s]; [discriminate|]. rewrite !endsSpace_cons. auto.
Qed.

Lemma endsSpace_spaces q ws :
  forallb isSpace ws = true -> ws <> [] -> endsSpace q ws = true.
Proof.
  revert q. induction ws as [|c ws IH]; intros q H Hne; [congruence|].
  cbn [forallb] in H. apply andb_true_iff in H as [Hc H].
  rewrite endsSpace_cons. destruct ws as [|d ws]; [exact Hc|].
  apply IH; [exact H|discriminate].
Qed.

(** A scan whose replacements fit their matches keeps a text tight and
    does not make it end with whitespace. *)
Lemma fitting_pieces (f : piece -> buf) ps :
  Forall (fun pc =>
            match pc with
            | Keep c => f pc = [c]
            | Hit m _ => fits m (f pc)
            end) ps ->
  forall p q,
    (q = true -> p = true) ->
    tight p (concat (map source ps)) = true ->
    tight q (concat (map f ps)) = true
    /\ (endsSpace q (concat (map f ps)) = true ->
        endsSpace p (concat (map source ps)) = true).
Proof.
  induction 1 as [|[c|m caps] ps Hp _ IH]; intros p q Hq Ht;
    cbn [map concat source] in *.
  - split; [reflexivity|exact Hq].
  - rewrite Hp. cbn [app tight] in *. apply andb_true_iff in Ht as [Hc Ht].
    destruct (IH (isSpace c) (isSpace c)) as [IH1 IH2]; [auto|exact Ht|].
    rewrite !endsSpace_cons. split; [|exact IH2].
    rewrite IH1, andb_true_r. destruct q; [|reflexivity].
    rewrite (Hq eq_refl) in Hc. exact Hc.
  - rewrite tight_app in Ht. apply andb_true_iff in Ht as [Hm Ht].
    rewrite !endsSpace_app.
    destruct Hp as [(H1 & H2 & H3 & H4)|[-> Hh]].
    + rewrite tight_app, (tight_head q _ H2), H1. cbn [andb].
      apply IH; [|exact Ht].
      intros E. rewrite (endsSpace_nonempty q true _ H3) in E.
      apply endsSpace_false, H4, E.
    + cbn [app]. assert (p = false) as ->.
      { destruct p; [|reflexivity]. destruct m as [|x m]; [discriminate|].
        cbn [headSpace] in Hh. cbn [tight] in Hm. rewrite Hh in Hm.
        discriminate. }
      assert (q = false) as ->
        by (destruct q; [specialize (Hq eq_refl); discriminate|reflexivity]).
      change (endsSpace false []) with false.
      apply IH; [discriminate|exact Ht].
Qed.

Lemma fitting_compact (f : piece -> buf) r s :
  (forall c, f (Keep c) = [c]) ->
  (forall prev m rest caps,
      Matches r prev m rest (replicate (ngroups r) []) caps ->
      fits m (f (Hit m caps))) ->
  compactText s = true ->
  compactText (concat (map f (matches r s))) = true.
Proof.
  intros Hk Hh Hs. unfold compactText in *.
  apply andb_true_iff in Hs as [Ht He]. apply negb_true_iff in He.
  assert (Hps : Forall (fun pc =>
                          match pc with
                          | Keep c => f pc = [c]
                          | Hit m _ => fits m (f pc)
                          end) (matches r s)).
  { eapply Forall_impl; [apply matches_hits|].
    intros [c|m caps] Hp; [apply Hk|].
    destruct Hp as (prev & rest & M). exact (Hh _ _ _ _ M). }
  destruct (fitting_pieces f _ Hps true true) as [H1 _];
    [auto|rewrite matches_source; exact Ht|].
  destruct (fitting_pieces f _ Hps false false) as [_ H2];
    [auto|rewrite matches_source; apply (tight_weaken true), Ht|].
  rewrite matches_source in H2. rewrite H1. cbn [andb].
  apply negb_true_iff.
  destruct (endsSpace false (concat (map f (matches r s)))) eqn:E;
    [|reflexivity].
  rewrite (H2 eq_refl) in He. discriminate.
Qed.

Lemma function_inv prev m rest caps caps' :
  Matches functionRe prev m rest caps caps' ->
  exists ws,
    m = str "function" ++ ws /\ ws <> [] /\ forallb isSpace ws = true.
Proof.
  unfold functionRe, Plus. cbn [Lit str String.list_ascii_of_string].
  intros M. invM.
  match goal with
  | Hd : isSpace ?d = true, Hm : forallb isSpace ?w = true |- _ =>
      exists (d :: w); split; [reflexivity|]; split; [discriminate|];
      cbn [forallb]; rewrite Hd, Hm; reflexivity
  end.
Qed.

(** The step that leaves one space after [function] keeps a compact text
    compact. *)
Lemma function_step_compact s :
  compactText s = true ->
  compactText (ReplaceAllString functionRe (str "function ") s) = true.
Proof.
  apply fitting_compact; [reflexivity|].
  intros prev m rest caps M.
  apply function_inv in M as (ws & -> & Hne & Hws).
  left. split; [reflexivity|]. split; [reflexivity|].
  split; [discriminate|]. intros _.
  rewrite endsSpace_app. apply endsSpace_spaces; assumption.
Qed.

Lemma call_step_compact s :
  compactText s = true ->
  compactText
    (ReplaceAllStringExpand Revised.callRe Revised.callTemplate s) = true.
Proof.
  apply fitting_compact; [reflexivity|].
  intros prev m rest caps M.
  apply call_inv in M as (c & ws & -> & Hc & Hws & ->).
  assert (Hsp : isSpace c = false).
  { assert (H : forallb (fun x => implb (isIdentChar x) (negb (isSpace x)))
                  allChars = true) by (vm_compute; reflexivity).
    rewrite forallb_forall in H.
    specialize (H c (proj1 (list_elem_of_In _ _) (allChars_complete c))).
    rewrite Hc in H. apply negb_true_iff, H. }
  left. cbn [substExpand].
  change (expand _ _ _) with (c :: str "(").
  split; [|split; [exact Hsp|split; [discriminate|]]].
  - cbn [tight str String.list_ascii_of_string]. rewrite Hsp. reflexivity.
  - intros E. rewrite endsSpace_cons in E. discriminate.
Qed.

Lemma revised_firm :
  forallb (fun st : step => firm st.2)
          (drop 2 (take 17 Revised.beforeCall) ++ drop 1 Revised.afterCall)
  = true.
Proof. vm_compute. reflexivity. Qed.

Lemma revised_setup :
  Revised.beforeCall
  = [(trimRe, []); (spacesRe, str " ")]
      ++ drop 2 (take 17 Revised.beforeCall)
      ++ [(functionRe, str "function ")]
  /\ Revised.afterCall = [(newlinesRe, [])] ++ drop 1 Revised.afterCall.
Proof. vm_compute. split; reflexivity. Qed.

(** The text the second version hands to the renamer neither starts nor
    ends with whitespace and has no two whitespace characters in a row. *)
Lemma revised_compact s : compactText (Revised.compacted s) = true.
Proof.
  pose proof revised_firm as H. rewrite forallb_app in H.
  apply andb_true_iff in H as [H1 H2].
  assert (Hb : forall l,
             forallb (fun st : step => firm st.2) l = true ->
             Forall (fun st : step =>
                       firm st.2 = true
                       \/ st.2 = []
                          /\ (forall prev m rest caps caps',
                                 Matches st.1 prev m rest caps caps' ->
                                 headSpace m = true)) l).
  { intros l Hl. apply Forall_forall. intros st Hin.
    rewrite forallb_forall in Hl. left. apply Hl, list_elem_of_In, Hin. }
  destruct revised_setup as [E1 E2].
  unfold Revised.compacted. rewrite E2, E1, !rewrite_app.
  apply rewrite_compact; [apply Hb, H2|].
  apply (step_compact (newlinesRe, [])).
  { right. split; [reflexivity|]. exact newlines_inv. }
  apply call_step_compact.
  apply function_step_compact.
  apply rewrite_compact; [apply Hb, H1|].
  unfold rewrite. cbn [foldl].
  destruct (trim_edges s) as [T1 T2]. apply spaces_compact; assumption.
Qed.

(** X22. Without renaming, the text that the second version of [Minify]
    returns after the license neither starts nor ends with a whitespace
    character and has no two whitespace characters in a row, whatever the
    input: the space it leaves after [function] is never the last
    character and never stands next to another one. *)
Theorem Revised_compact (ordVars ordLits : RangeOrder) (d : bool)
    (src : buf) (pl : bool) :
  exists body,
    Revised.minified ordVars ordLits d src pl false
    = Some ((extractLicense pl src).1 ++ body)
    /\ (forall c rest, body = c :: rest -> isSpace c = false)
    /\ (forall pre c, body = pre ++ [c] -> isSpace c = false)
    /\ (forall pre c c' post,
           body = pre ++ c :: c' :: post -> isSpace c && isSpace c' = false).
Proof.
  exists (Revised.compacted (uncommented pl src)).
  split; [apply Revised_minified_unfold|].
  pose proof (revised_compact (uncommented pl src)) as H.
  unfold compactText in H. apply andb_true_iff in H as [Ht He].
  apply negb_true_iff in He. split; [|split].
  - intros c rest E. rewrite E in Ht. cbn [tight andb] in Ht.
    apply andb_true_iff in Ht as [Ht _]. apply negb_true_iff in Ht. exact Ht.
  - intros pre c E. rewrite E, endsSpace_snoc in He. exact He.
  - intros pre c c' post E. exact (tight_pairs pre _ _ _ _ _ Ht E).
Qed.
